(** * A best-fit boundary-tag allocator: embedding of [Dynamic_Mem_Alloc.c]

    The allocator manages one region obtained from [mmap].  Every block
    starts with a one-word header [size_status]; the region ends with an
    end mark whose header is exactly [1].

    Modelling conventions

    - An [int] is a [Z] in the range [-2^31, 2^31); arithmetic that may
      leave that range is passed through [wrap32].  A [size_t] is a [Z]
      reduced modulo [2^64] by [to_size_t].
    - A pointer is the [Z] of its address, [NULL] is [0].  Addresses have
      64 bits: the bounds that [bfree] compares a pointer with are reduced
      by [to_ptr].
    - Memory is a finite map from word addresses to [int] values.  An
      address is mapped exactly when it is a key of the map; a load or a
      store at an unmapped address yields [Fault].
    - The [while] loops of the source carry no bound; the loop functions
      take a [fuel] and answer [OutOfFuel] when it is used up.  The
      operations run their loops with [heap_fuel], and on a well-formed
      heap that fuel is never exhausted. *)

From Stdlib Require Import ZArith Lia Bool List.
From stdpp Require Import base option list gmap fin_maps.

Local Open Scope Z_scope.

(** ** Machine integers *)

Definition INT_MIN : Z := - 2 ^ 31.
Definition INT_MAX : Z := 2 ^ 31 - 1.

Definition is_int (z : Z) : Prop := INT_MIN <= z <= INT_MAX.

(** Two's-complement reduction to a 32-bit signed [int]. *)
Definition wrap32 (z : Z) : Z := (z + 2 ^ 31) mod 2 ^ 32 - 2 ^ 31.

(** Conversion of an integer value to the unsigned type [size_t]. *)
Definition to_size_t (z : Z) : Z := z mod 2 ^ 64.

(** The address a pointer computation yields: addresses have 64 bits, and
    pointers are compared as unsigned 64-bit values. *)
Definition to_ptr (z : Z) : Z := z mod 2 ^ 64.

(** [sizeof(blockHeader)]: the struct holds a single [int]. *)
Definition sizeof_blockHeader : Z := 4.

Definition NULL : Z := 0.

(** ** Results of running an operation *)

Inductive result (A : Type) : Type :=
| Ret (v : A)
| Fault
| OutOfFuel.

Arguments Ret {A} v.
Arguments Fault {A}.
Arguments OutOfFuel {A}.

#[global] Instance result_ret : MRet result := fun A v => Ret v.

#[global] Instance result_bind : MBind result := fun A B k r =>
  match r with
  | Ret v => k v
  | Fault => Fault
  | OutOfFuel => OutOfFuel
  end.

(** ** Memory *)

Abbreviation mem := (gmap Z Z).

Definition load (m : mem) (a : Z) : result Z :=
  match m !! a with
  | Some v => Ret v
  | None => Fault
  end.

Definition store (m : mem) (a v : Z) : result mem :=
  match m !! a with
  | Some _ => Ret (<[a := v]> m)
  | None => Fault
  end.

(** The zero-filled pages handed out by [mmap] on [/dev/zero]:
    [nwords] words starting at [base]. *)
Fixpoint zero_region (base : Z) (nwords : nat) : mem :=
  match nwords with
  | O => ∅
  | S k => <[base + 4 * Z.of_nat k := 0]> (zero_region base k)
  end.

(** ** Allocator state: the globals of the source and the memory *)

Record state : Type := mkState {
  heap_start : Z;          (* blockHeader *heap_start *)
  alloc_size : Z;          (* int alloc_size *)
  allocated_once : bool;   (* static int allocated_once of init_heap *)
  heap : mem
}.

(** State of the process before any call: [heap_start = NULL], the
    zero-initialised globals, nothing mapped. *)
Definition initial_state : state :=
  {| heap_start := NULL; alloc_size := 0; allocated_once := false; heap := ∅ |}.

Definition set_heap (s : state) (m : mem) : state :=
  {| heap_start := heap_start s; alloc_size := alloc_size s;
     allocated_once := allocated_once s; heap := m |}.

(** Number of loop iterations granted to a scan of the region. *)
Definition heap_fuel (s : state) : nat := S (Z.to_nat (alloc_size s)).

(** ** Header decoding *)

(** [size_status >> 2 << 2] *)
Definition size_of (ss : Z) : Z := Z.shiftl (Z.shiftr ss 2) 2.

(** [size_status & ~3] *)
Definition size_mask (ss : Z) : Z := Z.land ss (-4).

(** [size_status & 1] is non-zero *)
Definition a_bit (ss : Z) : bool := negb (Z.land ss 1 =? 0).

(** [size_status & 2] is non-zero *)
Definition p_bit (ss : Z) : bool := negb (Z.land ss 2 =? 0).

(** ** balloc *)

(** [((size + sizeof(blockHeader) + 7) / 8) * 8], computed in [size_t]
    and converted to [int] on assignment to [blockSize]. *)
Definition block_size (size : Z) : Z :=
  wrap32 (to_size_t (to_size_t (to_size_t size + sizeof_blockHeader + 7) / 8 * 8)).

(** The search loop of [balloc]; [bestFit] is [NULL] until a candidate
    has been seen.  The result is the final [bestFit]. *)
Fixpoint best_fit_scan (fuel : nat) (m : mem) (blockSize current bestFit : Z)
  : result Z :=
  match fuel with
  | O => OutOfFuel
  | S fuel' =>
    ss ← load m current;
    if ss =? 1 then Ret bestFit
    else
      let currentSize := size_of ss in
      if negb (a_bit ss) && (currentSize >=? blockSize) then
        better ←
          (if bestFit =? NULL then Ret true
           else bs ← load m bestFit; Ret (currentSize <? size_of bs));
        if (better : bool) then
          if currentSize =? blockSize then Ret current
          else best_fit_scan fuel' m blockSize (current + currentSize) current
        else best_fit_scan fuel' m blockSize (current + currentSize) bestFit
      else best_fit_scan fuel' m blockSize (current + currentSize) bestFit
  end.

(** [if (nextBlock->size_status != 1) nextBlock->size_status |= 2;] *)
Definition set_next_p_bit (m : mem) (nextBlock : Z) : result mem :=
  ns ← load m nextBlock;
  if ns =? 1 then Ret m else store m nextBlock (Z.lor ns 2).

(** Placement in the block found by the search. *)
Definition place (m : mem) (blockSize bestFit : Z) : result mem :=
  bs ← load m bestFit;
  let remainder := wrap32 (size_of bs - blockSize) in
  if to_size_t remainder >=? to_size_t (sizeof_blockHeader * 2 + 8) then
    m1 ← store m bestFit (Z.lor (Z.lor blockSize (Z.land bs 3)) 1);
    let newBlock := bestFit + blockSize in
    m2 ← store m1 newBlock (Z.lor remainder 2);
    let nextBlock := newBlock + remainder in
    set_next_p_bit m2 nextBlock
  else
    m1 ← store m bestFit (Z.lor bs 1);
    bs' ← load m1 bestFit;
    let nextBlock := bestFit + size_of bs' in
    set_next_p_bit m1 nextBlock.

Definition balloc_fuel (fuel : nat) (size : Z) (s : state) : result (Z * state) :=
  if size <? 1 then Ret (NULL, s)
  else
    let blockSize := block_size size in
    bestFit ← best_fit_scan fuel (heap s) blockSize (heap_start s) NULL;
    if bestFit =? NULL then Ret (NULL, s)
    else
      m' ← place (heap s) blockSize bestFit;
      Ret (bestFit + sizeof_blockHeader, set_heap s m').

Definition balloc (size : Z) (s : state) : result (Z * state) :=
  balloc_fuel (heap_fuel s) size s.

(** ** bfree *)

Definition bfree (ptr : Z) (s : state) : result (Z * state) :=
  if (ptr =? NULL) || negb (ptr mod 8 =? 0)
     || (ptr <? to_ptr (heap_start s + sizeof_blockHeader))
     || (ptr >=? to_ptr (heap_start s + alloc_size s))
  then Ret (-1, s)
  else
    let block := ptr - sizeof_blockHeader in
    bs ← load (heap s) block;
    if negb (a_bit bs) then Ret (-1, s)
    else
      m1 ← store (heap s) block (Z.land bs (-2));
      bs' ← load m1 block;
      let nextBlock := block + size_mask bs' in
      ns ← load m1 nextBlock;
      m2 ← (if ns =? 1 then Ret m1 else store m1 nextBlock (Z.land ns (-3)));
      Ret (0, set_heap s m2).

(** ** coalesce *)

(** The inner loop: absorb the free blocks that follow [current].  The
    result is the memory and the final [nextBlock]. *)
Fixpoint absorb (fuel : nat) (m : mem) (current nextBlock : Z) : result (mem * Z) :=
  match fuel with
  | O => OutOfFuel
  | S fuel' =>
    ns ← load m nextBlock;
    if negb (ns =? 1) && negb (a_bit ns) then
      cs ← load m current;
      m1 ← store m current (wrap32 (cs + size_mask ns));
      cs' ← load m1 current;
      absorb fuel' m1 current (current + size_mask cs')
    else Ret (m, nextBlock)
  end.

Fixpoint coalesce_loop (fuel : nat) (m : mem) (current : Z) : result mem :=
  match fuel with
  | O => OutOfFuel
  | S fuel' =>
    cs ← load m current;
    if cs =? 1 then Ret m
    else
      m2 ←
        (if negb (a_bit cs) then
           '(m1, nextBlock) ← absorb fuel' m current (current + size_mask cs);
           set_next_p_bit m1 nextBlock
         else Ret m);
      cs' ← load m2 current;
      coalesce_loop fuel' m2 (current + size_mask cs')
  end.

Definition coalesce_fuel (fuel : nat) (s : state) : result (Z * state) :=
  m' ← coalesce_loop fuel (heap s) (heap_start s);
  Ret (0, set_heap s m').

Definition coalesce (s : state) : result (Z * state) :=
  coalesce_fuel (heap_fuel s) s.

(** ** init_heap *)

(** What the operating system answers to [init_heap]: the page size, whether
    [open("/dev/zero")] succeeds, and the address [mmap] returns for a given
    length ([None] stands for [MAP_FAILED]). *)
Record os : Type := mkOs {
  getpagesize : Z;
  open_ok : bool;
  mmap : Z -> option Z
}.

(** The writes of [init_heap] into the fresh pages: the end mark, then the
    header and the footer of the single free block. *)
Definition format_heap (m0 : mem) (hs alloc_size1 : Z) : result mem :=
  let end_mark := hs + alloc_size1 in
  m1 ← store m0 end_mark 1;
  m2 ← store m1 hs alloc_size1;
  h ← load m2 hs;
  m3 ← store m2 hs (wrap32 (h + 2));
  let footer := hs + alloc_size1 - 4 in
  store m3 footer alloc_size1.

(** [sizeOfRegion] rounded up to a multiple of the page size: the value of
    [alloc_size] that [init_heap] passes to [mmap]. *)
Definition padded_region_size (env : os) (sizeOfRegion : Z) : Z :=
  let pagesize := getpagesize env in
  let padsize := Z.rem sizeOfRegion pagesize in
  let padsize := Z.rem (wrap32 (pagesize - padsize)) pagesize in
  wrap32 (sizeOfRegion + padsize).

Definition init_heap (env : os) (sizeOfRegion : Z) (s : state) : result (Z * state) :=
  if negb (Bool.eqb (allocated_once s) false) then Ret (-1, s)
  else if sizeOfRegion <=? 0 then Ret (-1, s)
  else
    let alloc_size0 := padded_region_size env sizeOfRegion in
    let s1 := {| heap_start := heap_start s; alloc_size := alloc_size0;
                 allocated_once := allocated_once s; heap := heap s |} in
    if negb (open_ok env) then Ret (-1, s1)
    else
      match mmap env (to_size_t alloc_size0) with
      | None =>
        Ret (-1, {| heap_start := heap_start s; alloc_size := alloc_size0;
                    allocated_once := false; heap := heap s |})
      | Some mmap_ptr =>
        let m0 := zero_region mmap_ptr (Z.to_nat (alloc_size0 / 4)) in
        let alloc_size1 := wrap32 (alloc_size0 - 8) in
        let hs := mmap_ptr + sizeof_blockHeader in
        m4 ← format_heap m0 hs alloc_size1;
        Ret (0, {| heap_start := hs; alloc_size := alloc_size1;
                   allocated_once := true; heap := m4 |})
      end.

(** ** disp_heap: the block list *)

(** The traversal of [disp_heap]: starting at [current], read a header, stop
    at the end mark, otherwise record the block and advance by its size with
    the status bits removed.  The result lists (address, header) pairs. *)
Fixpoint walk (fuel : nat) (m : mem) (current : Z) : result (list (Z * Z)) :=
  match fuel with
  | O => OutOfFuel
  | S fuel' =>
    ss ← load m current;
    if ss =? 1 then Ret []
    else
      rest ← walk fuel' m (current + size_of ss);
      Ret ((current, ss) :: rest)
  end.

Definition blocks (s : state) : result (list (Z * Z)) :=
  walk (heap_fuel s) (heap s) (heap_start s).

(** ** Sequences of calls *)

Inductive op : Type :=
| Init (sizeOfRegion : Z)
| Alloc (size : Z)
| Free (ptr : Z)
| Coalesce.

Definition step (env : os) (o : op) (s : state) : result state :=
  match o with
  | Init n => '(_, s') ← init_heap env n s; Ret s'
  | Alloc n => '(_, s') ← balloc n s; Ret s'
  | Free p => '(_, s') ← bfree p s; Ret s'
  | Coalesce => '(_, s') ← coalesce s; Ret s'
  end.

Fixpoint run (env : os) (ops : list op) (s : state) : result state :=
  match ops with
  | [] => Ret s
  | o :: ops' => s' ← step env o s; run env ops' s'
  end.

(** Arguments a C caller can pass: [int] sizes, 64-bit addresses. *)
Definition wf_op (o : op) : Prop :=
  match o with
  | Init n => is_int n
  | Alloc n => is_int n
  | Free p => 0 <= p < 2 ^ 64
  | Coalesce => True
  end.

(** A client writing a word of a payload it owns. *)
Definition client_write (a v : Z) (s : state) : state :=
  set_heap s (<[a := v]> (heap s)).

(** ** Vocabulary of the statements *)

(** Smallest multiple of 8 that is at least [x]. *)
Definition round_up8 (x : Z) : Z := 8 * ((x + 7) / 8).

Definition is_free (ss : Z) : bool := negb (a_bit ss).

(** A block that can serve a request needing [need] bytes. *)
Definition eligible (need : Z) (b : Z * Z) : Prop :=
  is_free b.2 = true ∧ need <= size_of b.2.

(** Address of the footer of the block whose header is at [a]. *)
Definition footer_addr (a ss : Z) : Z := a + size_of ss - 4.

(** Headers [l] laid out from address [a]. *)
Fixpoint layout (a : Z) (l : list Z) : list (Z * Z) :=
  match l with
  | [] => []
  | v :: l' => (a, v) :: layout (a + size_of v) l'
  end.

(** The blocks [bl] tile the address range from [a] to [e]: each starts
    where its predecessor ends, each has a positive size, the last one ends
    at [e]. *)
Fixpoint tiles (a : Z) (bl : list (Z * Z)) (e : Z) : Prop :=
  match bl with
  | [] => a = e
  | b :: bl' => b.1 = a ∧ 0 < size_of b.2 ∧ tiles (a + size_of b.2) bl' e
  end.

Definition total_size (bl : list (Z * Z)) : Z :=
  foldr (fun b acc => size_of b.2 + acc) 0 bl.


(** No free block is directly followed by a free block. *)
Fixpoint no_adjacent_free (l : list Z) : Prop :=
  match l with
  | [] => True
  | v :: l' =>
    match l' with
    | [] => True
    | w :: _ => ¬ (is_free v = true ∧ is_free w = true)
    end ∧ no_adjacent_free l'
  end.

(** Memory contains the headers [l] back to back from [a] up to [e]. *)
Fixpoint chain (m : mem) (a : Z) (l : list Z) (e : Z) : Prop :=
  match l with
  | [] => a = e
  | v :: l' =>
    m !! a = Some v ∧ 8 <= size_of v ∧ size_of v mod 8 = 0
    ∧ chain m (a + size_of v) l' e
  end.

(** The state of a heap that has been initialised: the region lies in the
    address space, the mapped words are those of the region, the end mark
    is in place, and the headers form a chain from [heap_start] to the end
    mark. *)
Record heap_ok (s : state) : Prop := {
  ok_once : allocated_once s = true;
  ok_base : 4 < heap_start s;
  ok_size : 8 <= alloc_size s <= 2 ^ 31 - 16;
  ok_top : heap_start s + alloc_size s + 4 <= 2 ^ 64;
  ok_mapped : ∀ x, is_Some (heap s !! x) ↔
    (heap_start s - 4 <= x < heap_start s + alloc_size s + 4
     ∧ (x - heap_start s) mod 4 = 0);
  ok_end : heap s !! (heap_start s + alloc_size s) = Some 1;
  ok_chain : ∃ l, chain (heap s) (heap_start s) l (heap_start s + alloc_size s)
}.

(** [m'] has a word wherever [m] has one, and it decodes to the same size. *)
Definition same_sizes (m m' : mem) : Prop :=
  ∀ x v, m !! x = Some v → ∃ v', m' !! x = Some v' ∧ size_of v' = size_of v.

(** The state of a process in which no [init_heap] has succeeded. *)
Definition uninitialised (s : state) : Prop :=
  allocated_once s = false ∧ heap_start s = NULL ∧ heap s = ∅.

(** What is assumed of the operating system: pages are a multiple of 8
    bytes and at least 16 bytes, [mmap] refuses lengths beyond the address
    space, never answers the null address, and answers a range that lies
    in the address space. *)
Record os_sane (env : os) : Prop := {
  page_bounds : 16 <= getpagesize env <= INT_MAX;
  page_mult : getpagesize env mod 8 = 0;
  mmap_some : ∀ len p, mmap env len = Some p →
    0 < len < 2 ^ 63 ∧ 0 < p ∧ p + len <= 2 ^ 64
}.

(** After a pass of [coalesce]: a free block is followed by the end of the
    list or by an allocated block whose p-bit is set. *)
Fixpoint settled (l : list Z) : Prop :=
  match l with
  | [] => True
  | v :: l' =>
    (is_free v = true →
     match l' with
     | [] => True
     | w :: _ => a_bit w = true ∧ Z.lor w 2 = w
     end) ∧ settled l'
  end.

(** The search of [balloc] on a block list: [best] is the candidate so far. *)
Fixpoint pick (need : Z) (bl : list (Z * Z)) (best : option (Z * Z))
  : option (Z * Z) :=
  match bl with
  | [] => best
  | b :: bl' =>
    if is_free b.2 && (size_of b.2 >=? need) then
      if match best with None => true | Some c => size_of b.2 <? size_of c.2 end
      then if size_of b.2 =? need then Some b else pick need bl' (Some b)
      else pick need bl' best
    else pick need bl' best
  end.

Definition addr_of (best : option (Z * Z)) : Z :=
  match best with None => NULL | Some b => b.1 end.

(** [r] is the best fit of [bl]: the first among the smallest eligible
    blocks, or nothing when no block is eligible. *)
Definition best_fit (need : Z) (bl : list (Z * Z)) (r : option (Z * Z)) : Prop :=
  match r with
  | None => ∀ j b, bl !! j = Some b → ¬ eligible need b
  | Some b =>
    ∃ i : nat, bl !! i = Some b ∧ eligible need b
      ∧ ∀ (j : nat) b', bl !! j = Some b' → eligible need b' →
          size_of b.2 <= size_of b'.2 ∧ (size_of b'.2 = size_of b.2 → (i <= j)%nat)
  end.

(** Every word of [m] that is marked free is still there and marked free
    in [m']. *)
Definition keeps_free (m m' : mem) : Prop :=
  ∀ x v, m !! x = Some v → a_bit v = false →
         ∃ v', m' !! x = Some v' ∧ a_bit v' = false.

(** [ptr] passes the pointer checks of [bfree] and the word in front of it
    is marked free. *)
Definition free_marked (ptr : Z) (s : state) : Prop :=
  ptr <> NULL ∧ ptr mod 8 = 0
  ∧ to_ptr (heap_start s + sizeof_blockHeader) <= ptr
    < to_ptr (heap_start s + alloc_size s)
  ∧ ∃ bs, heap s !! (ptr - sizeof_blockHeader) = Some bs ∧ a_bit bs = false.

(** Calls that allocate nothing. *)
Definition releases_only (o : op) : Prop :=
  match o with
  | Free _ | Coalesce => True
  | _ => False
  end.

(** Calls other than [init_heap]. *)
Definition no_init (o : op) : Prop :=
  match o with
  | Init _ => False
  | _ => True
  end.

(** ** A concrete system and concrete heaps *)

Definition linux : os :=
  {| getpagesize := 4096; open_ok := true;
     mmap := fun len =>
       if (0 <? len) && (len <? 2 ^ 40) then Some 0x7f0000000000 else None |}.

Definition state_of {A : Type} (r : result (A * state)) : state :=
  match r with
  | Ret (_, s) => s
  | _ => initial_state
  end.

(** The call returned the value [v]. *)
Definition returns (v : Z) (r : result (Z * state)) : bool :=
  match r with
  | Ret (v', _) => v' =? v
  | _ => false
  end.

Definition is_ret {A : Type} (r : result A) : bool :=
  match r with
  | Ret _ => true
  | _ => false
  end.

(** [init_heap(4096)] *)
Definition heap4096 : state := state_of (init_heap linux 4096 initial_state).

(** Address of the payload of the block at offset [off] of [heap4096]. *)
Definition payload_at (off : Z) : Z :=
  heap_start heap4096 + off + sizeof_blockHeader.

Definition result_state (r : result state) : state :=
  match r with
  | Ret s => s
  | _ => initial_state
  end.

(** Six allocations of 40, 8, 24, 8, 24 and 8 bytes, then the first, third
    and fifth are freed: free blocks of 48, 32 and 32 bytes separated by
    allocated blocks of 16 bytes, in front of the free rest of the region. *)
Definition gaps_ops : list op :=
  [Alloc 40; Alloc 8; Alloc 24; Alloc 8; Alloc 24; Alloc 8;
   Free (payload_at 0); Free (payload_at 64); Free (payload_at 112)].

Definition gaps_heap : state := result_state (run linux gaps_ops heap4096).

(** [a = balloc(1)] on the fresh heap. *)
Definition one_alloc : state := state_of (balloc 1 heap4096).

(** [a = balloc(8); bfree(a)] on the fresh heap. *)
Definition alloc_free : state :=
  state_of (bfree (payload_at 0) (state_of (balloc 8 heap4096))).

(** [a = balloc(8); bfree(a); coalesce()] *)
Definition alloc_free_coalesced : state :=
  result_state (run linux [Coalesce] alloc_free).

(** [a = balloc(8); b = balloc(8); c = balloc(8); bfree(a); bfree(b)] *)
Definition two_freed : state :=
  result_state (run linux [Alloc 8; Alloc 8; Alloc 8;
                           Free (payload_at 0); Free (payload_at 16)] heap4096).

(** [a = balloc(100); b = balloc(8); bfree(a)] *)
Definition hole_heap : state :=
  result_state (run linux [Alloc 100; Alloc 8; Free (payload_at 0)] heap4096).

(** [a = balloc(100)], after which the client stores [v] in the second word
    of the payload. *)
Definition scribbled (v : Z) : state :=
  client_write (payload_at 0 + 4) v (state_of (balloc 100 heap4096)).

(** ** disp_heap: the report *)

(** One line of the block list printed by [disp_heap]. *)
Record row : Type := mkRow {
  row_no : Z;              (* counter *)
  row_used : bool;         (* status is "alloc" *)
  row_prev_used : bool;    (* p_status is "alloc" *)
  row_begin : Z;           (* t_begin *)
  row_end : Z;             (* t_end *)
  row_size : Z             (* t_size *)
}.

(** What [disp_heap] prints: the lines of the block list, then the three
    totals.  The banner lines around them are fixed text and are left
    out. *)
Record report : Type := mkReport {
  rows : list row;
  used_total : Z;
  free_total : Z;
  size_total : Z
}.

(** The loop of [disp_heap].  [t_size] starts as the header and loses 1 when
    bit 0 is set, then 2 when bit 1 of what is left is set. *)
Fixpoint disp_loop (fuel : nat) (m : mem) (current counter used_size free_size : Z)
  : result (list row * Z * Z) :=
  match fuel with
  | O => OutOfFuel
  | S fuel' =>
    ss ← load m current;
    if ss =? 1 then Ret ([], used_size, free_size)
    else
      let t_begin := current in
      let is_used := a_bit ss in
      let t_size := if is_used then wrap32 (ss - 1) else ss in
      let prev_used := p_bit t_size in
      let t_size := if prev_used then wrap32 (t_size - 2) else t_size in
      let used_size := if is_used then wrap32 (used_size + t_size) else used_size in
      let free_size := if is_used then free_size else wrap32 (free_size + t_size) in
      let t_end := t_begin + t_size - 1 in
      '(rest, u, f) ← disp_loop fuel' m (current + t_size) (wrap32 (counter + 1))
                                   used_size free_size;
      Ret (mkRow counter is_used prev_used t_begin t_end t_size :: rest, u, f)
  end.

Definition disp_heap (s : state) : result report :=
  '(rs, u, f) ← disp_loop (heap_fuel s) (heap s) (heap_start s) 1 0 0;
  Ret (mkReport rs u f (wrap32 (u + f))).

(** ** Vocabulary of the further statements *)

(** Address, size and allocation status of each block. *)
Definition shape (bl : list (Z * Z)) : list (Z * Z * bool) :=
  map (fun b => (b.1, size_of b.2, a_bit b.2)) bl.

(** Address and size of each block. *)
Definition extents (bl : list (Z * Z)) : list (Z * Z) :=
  map (fun b => (b.1, size_of b.2)) bl.

(** The allocated blocks, with their addresses and sizes. *)
Definition allocated_blocks (bl : list (Z * Z)) : list (Z * Z) :=
  extents (filter (fun b => a_bit b.2 = true) bl).

(** Bytes in allocated blocks and bytes in free blocks. *)
Definition used_bytes (bl : list (Z * Z)) : Z :=
  foldr (fun b acc => (if a_bit b.2 then size_of b.2 else 0) + acc) 0 bl.

Definition free_bytes (bl : list (Z * Z)) : Z :=
  foldr (fun b acc => (if a_bit b.2 then 0 else size_of b.2) + acc) 0 bl.

(** The headers behind a block that has just been allocated or found free by
    [coalesce]: the first one gets bit 1 set. *)
Definition mark_next (l : list Z) : list Z :=
  match l with
  | [] => []
  | w :: r => Z.lor w 2 :: r
  end.

(** The headers behind a block that has just been freed: the first one gets
    bit 1 cleared. *)
Definition unmark_next (l : list Z) : list Z :=
  match l with
  | [] => []
  | w :: r => Z.land w (-3) :: r
  end.

(** The line [disp_heap] prints for the block [b] under the number [no]. *)
Definition row_of (no : Z) (b : Z * Z) : row :=
  mkRow no (a_bit b.2) (p_bit b.2) b.1 (b.1 + size_of b.2 - 1) (size_of b.2).

Fixpoint rows_from (no : Z) (bl : list (Z * Z)) : list row :=
  match bl with
  | [] => []
  | b :: bl' => row_of no b :: rows_from (no + 1) bl'
  end.


(** [x] is the address of a payload word of an allocated block of [bl]: it
    lies behind the header of the block and inside the block. *)
Definition in_payload (bl : list (Z * Z)) (x : Z) : Prop :=
  ∃ b, b ∈ bl ∧ a_bit b.2 = true
       ∧ b.1 + sizeof_blockHeader <= x < b.1 + size_of b.2.

(** ** Further heaps the statements are run on *)

(** The block list of [gaps_heap]. *)
Definition gaps_blocks : list (Z * Z) :=
  [(payload_at 0 - 4, 50); (payload_at 48 - 4, 17); (payload_at 64 - 4, 34);
   (payload_at 96 - 4, 17); (payload_at 112 - 4, 34); (payload_at 144 - 4, 17);
   (payload_at 160 - 4, 3930)].

(** The block list of [hole_heap]. *)
Definition hole_blocks : list (Z * Z) :=
  [(payload_at 0 - 4, 106); (payload_at 104 - 4, 17); (payload_at 120 - 4, 3970)].

(** The block list of [two_freed]. *)
Definition two_freed_blocks : list (Z * Z) :=
  [(payload_at 0 - 4, 18); (payload_at 16 - 4, 16); (payload_at 32 - 4, 17);
   (payload_at 48 - 4, 4042)].

(** [a = balloc(8); b = balloc(24); bfree(a); bfree(b)]: three free blocks. *)
Definition all_freed_ops : list op :=
  [Alloc 8; Alloc 24; Free (payload_at 0); Free (payload_at 16)].

Definition all_freed : state := result_state (run linux all_freed_ops heap4096).

Definition all_freed_blocks : list (Z * Z) :=
  [(payload_at 0 - 4, 18); (payload_at 16 - 4, 32); (payload_at 48 - 4, 4040)].

(** [init_heap(5000)]: the size is padded to two pages. *)
Definition heap5000 : state := state_of (init_heap linux 5000 initial_state).

(** [init_heap(2147483647)]: the padded size overflows to [INT_MIN], [mmap]
    refuses the length, and [alloc_size] keeps that value. *)
Definition failed_init : state :=
  state_of (init_heap linux 2147483647 initial_state).

(** An address in memory of the caller, outside any heap. *)
Definition caller_addr : Z := 0x7ffd00001000.

(** A process holding the words 17 and 0 at [caller_addr + 4] and at
    [caller_addr + 20], before any [init_heap] and after the failed one. *)
Definition caller_memory (s : state) : state :=
  client_write (caller_addr + 20) 0 (client_write (caller_addr + 4) 17 s).

(** * Properties *)

(** ** Arithmetic of headers *)

Section HeaderArithmetic.

Lemma wrap32_id z : is_int z -> wrap32 z = z.
Proof.
  unfold is_int, INT_MIN, INT_MAX, wrap32. intros H.
  rewrite Z.mod_small by lia. lia.
Qed.

Lemma to_size_t_id z : 0 <= z < 2 ^ 64 -> to_size_t z = z.
Proof. unfold to_size_t. intros H. now rewrite Z.mod_small. Qed.

Lemma to_ptr_id z : 0 <= z < 2 ^ 64 -> to_ptr z = z.
Proof. unfold to_ptr. intros H. now rewrite Z.mod_small. Qed.

Lemma size_of_div v : size_of v = 4 * (v / 4).
Proof.
  unfold size_of. rewrite Z.shiftl_mul_pow2, Z.shiftr_div_pow2 by lia.
  change (2 ^ 2) with 4. lia.
Qed.

Lemma size_mask_size_of v : size_mask v = size_of v.
Proof.
  unfold size_mask, size_of.
  rewrite <- (Z.ldiff_ones_r v 2) by lia. now rewrite Z.ldiff_land.
Qed.

Lemma size_of_mod4 v : size_of v mod 4 = 0.
Proof. rewrite size_of_div. rewrite Z.mul_comm. apply Z.mod_mul. lia. Qed.

Lemma size_of_le v : size_of v <= v < size_of v + 4.
Proof.
  rewrite size_of_div. pose proof (Z.mod_pos_bound v 4).
  pose proof (Z.div_mod v 4). lia.
Qed.

Lemma size_of_aligned b : b mod 4 = 0 -> size_of b = b.
Proof. rewrite size_of_div. intros H. pose proof (Z.div_mod b 4). lia. Qed.

Lemma size_of_one : size_of 1 = 0.
Proof. reflexivity. Qed.

Lemma size_of_lor_1 v : size_of (Z.lor v 1) = size_of v.
Proof. unfold size_of. rewrite Z.shiftr_lor. simpl (Z.shiftr 1 2). now rewrite Z.lor_0_r. Qed.

Lemma size_of_lor_2 v : size_of (Z.lor v 2) = size_of v.
Proof. unfold size_of. rewrite Z.shiftr_lor. simpl (Z.shiftr 2 2). now rewrite Z.lor_0_r. Qed.

Lemma size_of_land_m2 v : size_of (Z.land v (-2)) = size_of v.
Proof.
  unfold size_of. rewrite Z.shiftr_land. change (Z.shiftr (-2) 2) with (-1).
  now rewrite Z.land_m1_r.
Qed.

Lemma size_of_land_m3 v : size_of (Z.land v (-3)) = size_of v.
Proof.
  unfold size_of. rewrite Z.shiftr_land. change (Z.shiftr (-3) 2) with (-1).
  now rewrite Z.land_m1_r.
Qed.

Lemma size_of_split_header b v :
  b mod 4 = 0 -> size_of (Z.lor (Z.lor b (Z.land v 3)) 1) = b.
Proof.
  intros Hb. rewrite size_of_lor_1. unfold size_of.
  rewrite Z.shiftr_lor, Z.shiftr_land. change (Z.shiftr 3 2) with 0.
  rewrite Z.land_0_r, Z.lor_0_r. now apply size_of_aligned.
Qed.

Lemma size_of_add v k : k mod 4 = 0 -> size_of (v + k) = size_of v + k.
Proof.
  intros Hk. rewrite !size_of_div.
  pose proof (Z.div_mod k 4). replace (v + k) with (v + (k / 4) * 4) by lia.
  rewrite Z.div_add by lia. lia.
Qed.

Lemma a_bit_odd v : a_bit v = Z.odd v.
Proof.
  unfold a_bit. change 1 with (Z.ones 1). rewrite Z.land_ones by lia.
  change (2 ^ 1) with 2. rewrite Zmod_odd. now destruct (Z.odd v).
Qed.

Lemma a_bit_lor_1 v : a_bit (Z.lor v 1) = true.
Proof.
  rewrite a_bit_odd. rewrite <- Z.bit0_odd, Z.lor_spec. simpl (Z.testbit 1 0).
  apply orb_true_r.
Qed.

Lemma a_bit_lor_2 v : a_bit (Z.lor v 2) = a_bit v.
Proof.
  rewrite !a_bit_odd. rewrite <- !Z.bit0_odd, Z.lor_spec. simpl (Z.testbit 2 0).
  apply orb_false_r.
Qed.

Lemma a_bit_land_m2 v : a_bit (Z.land v (-2)) = false.
Proof.
  rewrite a_bit_odd. rewrite <- Z.bit0_odd, Z.land_spec. simpl (Z.testbit (-2) 0).
  apply andb_false_r.
Qed.

Lemma a_bit_land_m3 v : a_bit (Z.land v (-3)) = a_bit v.
Proof.
  rewrite !a_bit_odd. rewrite <- !Z.bit0_odd, Z.land_spec. simpl (Z.testbit (-3) 0).
  apply andb_true_r.
Qed.


Lemma a_bit_add v k : k mod 4 = 0 -> a_bit (v + k) = a_bit v.
Proof.
  intros Hk. rewrite !a_bit_odd. pose proof (Z.div_mod k 4).
  replace k with (2 * (2 * (k / 4))) by lia.
  rewrite Z.odd_add, Z.odd_even. apply xorb_false_r.
Qed.

Lemma p_bit_lor_2 v : p_bit (Z.lor v 2) = true.
Proof.
  unfold p_bit. rewrite Z.land_lor_distr_l. change (Z.land 2 2) with 2.
  destruct (Z.eqb_spec (Z.lor (Z.land v 2) 2) 0) as [H|H]; [|reflexivity].
  apply Z.lor_eq_0_iff in H. lia.
Qed.

Lemma lor_2_idem v : Z.lor (Z.lor v 2) 2 = Z.lor v 2.
Proof. rewrite <- Z.lor_assoc. reflexivity. Qed.

(** A live header is never the end mark. *)
Lemma size_of_pos_not_one v : 0 < size_of v -> v <> 1.
Proof. intros H ->. rewrite size_of_one in H. lia. Qed.

End HeaderArithmetic.

(** ** Loads and stores *)

Section Memory.

Implicit Types (m : gmap Z Z) (a x v : Z).

Lemma load_lookup m a v : m !! a = Some v -> load m a = Ret v.
Proof. unfold load. now intros ->. Qed.

Lemma load_unmapped m a : m !! a = None -> load m a = Fault.
Proof. unfold load. now intros ->. Qed.

Lemma load_inv m a v : load m a = Ret v -> m !! a = Some v.
Proof. unfold load. destruct (m !! a); congruence. Qed.

Lemma store_mapped m a v : is_Some (m !! a) -> store m a v = Ret (<[a := v]> m).
Proof. unfold store. now intros [w ->]. Qed.

Lemma store_unmapped m a v : m !! a = None -> store m a v = Fault.
Proof. unfold store. now intros ->. Qed.

Lemma store_inv m a v m' :
  store m a v = Ret m' -> is_Some (m !! a) ∧ m' = <[a := v]> m.
Proof. unfold store. destruct (m !! a) eqn:E; intros H; inversion H; eauto. Qed.

Lemma insert_mapped m a v x :
  is_Some (m !! a) -> is_Some (<[a := v]> m !! x) ↔ is_Some (m !! x).
Proof.
  intros Ha. destruct (decide (a = x)) as [->|Hne].
  - rewrite lookup_insert_eq. split; eauto.
  - now rewrite lookup_insert_ne.
Qed.

Lemma zero_region_lookup base n x :
  zero_region base n !! x =
  if decide (base <= x < base + 4 * Z.of_nat n ∧ (x - base) mod 4 = 0)
  then Some 0 else None.
Proof.
  induction n as [|k IH].
  - simpl. rewrite lookup_empty. case_decide; [lia|reflexivity].
  - cbn [zero_region]. destruct (decide (base + 4 * Z.of_nat k = x)) as [<-|Hne].
    + rewrite lookup_insert_eq. rewrite decide_True; [reflexivity|].
      split; [lia|]. replace (base + 4 * Z.of_nat k - base) with (Z.of_nat k * 4) by lia.
      apply Z.mod_mul. lia.
    + rewrite lookup_insert_ne by assumption. rewrite IH.
      repeat case_decide; try reflexivity; exfalso.
      * apply H0. split; [lia|tauto].
      * apply H. split; [|tauto]. destruct H0 as [Hr Hm].
        pose proof (Z.div_mod (x - base) 4). lia.
Qed.

End Memory.

(** ** Chains of headers *)

Section Chains.

Implicit Types (m : gmap Z Z) (a e x v : Z) (l : list Z).

Lemma chain_bounds m a l e : chain m a l e -> a + 8 * Z.of_nat (length l) <= e.
Proof.
  revert a. induction l as [|v l IH]; intros a; simpl.
  - lia.
  - intros (_ & Hs & _ & Hc). apply IH in Hc. lia.
Qed.

Lemma chain_le m a l e : chain m a l e -> a <= e.
Proof. intros H. apply chain_bounds in H. lia. Qed.

Lemma chain_aligned m a l e : chain m a l e -> (e - a) mod 8 = 0.
Proof.
  revert a. induction l as [|v l IH]; intros a; simpl.
  - intros ->. now rewrite Z.sub_diag.
  - intros (_ & _ & Hm & Hc). apply IH in Hc.
    replace (e - a) with ((e - (a + size_of v)) + size_of v) by lia.
    rewrite Z.add_mod, Hc, Hm by lia. reflexivity.
Qed.

(** Only the words between [a] and [e] matter to a chain. *)
Lemma chain_agree m m' a l e :
  chain m a l e -> (∀ x, a <= x < e -> m' !! x = m !! x) -> chain m' a l e.
Proof.
  revert a. induction l as [|v l IH]; intros a; simpl; [tauto|].
  intros (Hv & Hs & Hm & Hc) Hag. pose proof (chain_le _ _ _ _ Hc) as Hle.
  split; [rewrite Hag; [assumption|lia]|].
  repeat split; try assumption. apply IH; [assumption|].
  intros x Hx. apply Hag. lia.
Qed.

Lemma chain_insert m a l e x v :
  chain m a l e -> x < a ∨ e <= x -> chain (<[x := v]> m) a l e.
Proof.
  intros Hc Hx. apply (chain_agree m); [assumption|].
  intros y Hy. apply lookup_insert_ne. lia.
Qed.

Lemma chain_app m a l1 l2 e :
  chain m a (l1 ++ l2) e ↔ ∃ b, chain m a l1 b ∧ chain m b l2 e.
Proof.
  revert a. induction l1 as [|v l1 IH]; intros a; simpl.
  - split; [eauto|]. now intros (b & -> & H).
  - rewrite IH. split.
    + intros (Hv & Hs & Hm & b & H1 & H2). eauto 10.
    + intros (b & (Hv & Hs & Hm & H1) & H2). eauto 10.
Qed.

Lemma chain_total m a l e : chain m a l e -> total_size (layout a l) = e - a.
Proof.
  revert a. induction l as [|v l IH]; intros a; simpl.
  - lia.
  - intros (_ & _ & _ & Hc). unfold total_size in *. simpl.
    rewrite (IH _ Hc). lia.
Qed.

Lemma chain_tiles m a l e : chain m a l e -> tiles a (layout a l) e.
Proof.
  revert a. induction l as [|v l IH]; intros a; simpl; [tauto|].
  intros (_ & Hs & _ & Hc). split; [reflexivity|]. split; [lia|]. now apply IH.
Qed.

(** [disp_heap]'s traversal reads exactly the chain. *)
Lemma walk_chain fuel m a l e :
  chain m a l e -> m !! e = Some 1 -> (length l < fuel)%nat ->
  walk fuel m a = Ret (layout a l).
Proof.
  revert a l. induction fuel as [|f IH]; intros a l Hc He Hf; [lia|].
  destruct l as [|v l]; simpl in Hc.
  - subst a. cbn [walk]. rewrite (load_lookup _ _ _ He). reflexivity.
  - destruct Hc as (Hv & Hs & Hm & Hc). cbn [walk].
    rewrite (load_lookup _ _ _ Hv). cbn.
    destruct (Z.eqb_spec v 1) as [->|_]; [rewrite size_of_one in Hs; lia|].
    rewrite (IH _ l) by (simpl in Hf; (assumption || lia)). reflexivity.
Qed.

(** The block at position [i] of a chain splits it in three. *)
Lemma chain_lookup m a l e (i : nat) b :
  chain m a l e -> layout a l !! i = Some b ->
  ∃ l1 l2, l = l1 ++ b.2 :: l2 ∧ length l1 = i
    ∧ chain m a l1 b.1 ∧ m !! b.1 = Some b.2
    ∧ 8 <= size_of b.2 ∧ size_of b.2 mod 8 = 0
    ∧ chain m (b.1 + size_of b.2) l2 e.
Proof.
  revert a i. induction l as [|v l IH]; intros a i Hc Hi; [discriminate|].
  destruct Hc as (Hv & Hs & Hm & Hc). destruct i as [|i]; simpl in Hi.
  - inversion Hi; subst b; simpl. exists [], l. simpl. tauto.
  - destruct (IH _ _ Hc Hi) as (l1 & l2 & -> & Hlen & H1 & Hb & Hs' & Hm' & H2).
    exists (v :: l1), l2. simpl. repeat split; try assumption. lia.
Qed.

Lemma layout_app a l1 l2 :
  layout a (l1 ++ l2) = layout a l1 ++ layout (a + total_size (layout a l1)) l2.
Proof.
  revert a. induction l1 as [|v l1 IH]; intros a; simpl.
  - unfold total_size. simpl. now rewrite Z.add_0_r.
  - rewrite IH. unfold total_size. simpl. now rewrite Z.add_assoc.
Qed.

Lemma layout_length a l : length (layout a l) = length l.
Proof. revert a. induction l; intros; simpl; auto. Qed.

End Chains.

(** ** The best-fit search *)

Section Search.

Implicit Types (m : gmap Z Z) (need : Z) (bl pre rest : list (Z * Z))
  (best : option (Z * Z)).

Lemma eligible_test need (b : Z * Z) :
  is_free b.2 && (size_of b.2 >=? need) = true ↔ eligible need b.
Proof.
  unfold eligible. rewrite andb_true_iff, Z.geb_le. tauto.
Qed.

Lemma best_fit_nil need : best_fit need [] None.
Proof. intros j b Hj. discriminate. Qed.

(** The search of the block list returns the best fit.  The candidate so
    far is the best fit of the blocks already seen, and it is not an exact
    fit, since an exact fit ends the search. *)
Lemma pick_best_fit need rest : ∀ pre best,
  best_fit need pre best ->
  (∀ c, best = Some c -> need < size_of c.2) ->
  best_fit need (pre ++ rest) (pick need rest best).
Proof.
  induction rest as [|b rest IH]; intros pre best Hbest Hstrict.
  { simpl. now rewrite app_nil_r. }
  replace (pre ++ b :: rest) with ((pre ++ [b]) ++ rest)
    by now rewrite <- app_assoc.
  cbn [pick].
  destruct (is_free b.2 && (size_of b.2 >=? need)) eqn:Hel.
  - apply eligible_test in Hel.
    destruct (match best with
              | None => true
              | Some c => size_of b.2 <? size_of c.2
              end) eqn:Hbetter.
    + (* [b] replaces the candidate *)
      assert (Hnew : best_fit need (pre ++ [b]) (Some b)).
      { exists (length pre). split; [now apply list_lookup_middle|].
        split; [assumption|]. intros j b' Hj Hel'.
        apply lookup_snoc_Some in Hj as [[Hlt Hj]|[-> ->]]; [|split; lia].
        destruct best as [c|]; [|now destruct (Hbest _ _ Hj)].
        destruct Hbest as (i & Hi & Hc & Hmin).
        apply Z.ltb_lt in Hbetter. destruct (Hmin _ _ Hj Hel'). lia. }
      destruct (Z.eqb_spec (size_of b.2) need) as [Hex|Hne].
      * (* exact fit: the search stops *)
        destruct Hnew as (i & Hi & _ & Hmin).
        exists i. split; [now apply lookup_app_l_Some|]. split; [assumption|].
        intros j b' Hj Hel'. apply lookup_app_Some in Hj as [Hj|[Hge Hj]].
        -- now apply Hmin.
        -- apply lookup_lt_Some in Hi. destruct Hel' as [_ Hsz]. split; lia.
      * apply IH; [assumption|]. intros c [= <-]. destruct Hel. lia.
    + (* the candidate stays *)
      destruct best as [c|]; [|discriminate]. apply Z.ltb_ge in Hbetter.
      apply IH; [|assumption].
      destruct Hbest as (i & Hi & Hc & Hmin). exists i.
      split; [now apply lookup_app_l_Some|]. split; [assumption|].
      intros j b' Hj Hel'.
      apply lookup_snoc_Some in Hj as [[Hlt Hj]|[-> ->]]; [now apply Hmin|].
      apply lookup_lt_Some in Hi. split; lia.
  - (* [b] is allocated or too small *)
    apply IH; [|assumption].
    assert (Hnel : ¬ eligible need b).
    { intros H. apply eligible_test in H. congruence. }
    destruct best as [c|].
    + destruct Hbest as (i & Hi & Hc & Hmin). exists i.
      split; [now apply lookup_app_l_Some|]. split; [assumption|].
      intros j b' Hj Hel'.
      apply lookup_snoc_Some in Hj as [[Hlt Hj]|[-> ->]]; [now apply Hmin|].
      contradiction.
    + intros j b' Hj.
      apply lookup_snoc_Some in Hj as [[Hlt Hj]|[-> ->]]; [now apply (Hbest j)|].
      assumption.
Qed.

Lemma pick_spec need bl : best_fit need bl (pick need bl None).
Proof.
  apply (pick_best_fit need bl [] None); [apply best_fit_nil|discriminate].
Qed.

(** The loop of [balloc] computes [pick] on the chain it walks. *)
Lemma scan_pick m need e l : ∀ fuel a best,
  chain m a l e -> m !! e = Some 1 -> (length l < fuel)%nat -> 0 < a ->
  (∀ c, best = Some c -> m !! c.1 = Some c.2 ∧ c.1 <> NULL) ->
  best_fit_scan fuel m need a (addr_of best)
  = Ret (addr_of (pick need (layout a l) best)).
Proof.
  induction l as [|v l IH]; intros fuel a best Hc He Hf Ha Hbest;
    (destruct fuel as [|fuel]; [simpl in Hf; lia|]); simpl in Hc.
  - subst a. cbn [best_fit_scan]. rewrite (load_lookup _ _ _ He). reflexivity.
  - destruct Hc as (Hv & Hs & Hm & Hc). cbn [best_fit_scan layout pick].
    rewrite (load_lookup _ _ _ Hv). cbn.
    destruct (Z.eqb_spec v 1) as [->|_]; [rewrite size_of_one in Hs; lia|].
    assert (Hrec : ∀ best', (∀ c, best' = Some c -> m !! c.1 = Some c.2 ∧ c.1 <> NULL) ->
      best_fit_scan fuel m need (a + size_of v) (addr_of best')
      = Ret (addr_of (pick need (layout (a + size_of v) l) best'))).
    { intros best' Hb'. apply IH; try assumption; simpl in Hf; lia. }
    unfold is_free. destruct (negb (a_bit v) && (size_of v >=? need));
      [|now apply (Hrec best)].
    assert (Hnew : ∀ c', Some (a, v) = Some c' -> m !! c'.1 = Some c'.2 ∧ c'.1 <> NULL).
    { intros c' [= <-]. simpl. unfold NULL. split; [assumption|lia]. }
    destruct best as [c|]; cbn.
    + destruct (Hbest c eq_refl) as [Hcv Hcn].
      destruct (Z.eqb_spec c.1 NULL) as [?|_]; [contradiction|].
      rewrite (load_lookup _ _ _ Hcv). cbn.
      destruct (size_of v <? size_of c.2); [|now apply (Hrec (Some c))].
      destruct (size_of v =? need); [reflexivity|].
      now apply (Hrec (Some (a, v))).
    + destruct (size_of v =? need); [reflexivity|].
      now apply (Hrec (Some (a, v))).
Qed.

End Search.

(** ** Block size computed by balloc *)

Section BlockSize.

Lemma round_up8_least x :
  round_up8 x mod 8 = 0 ∧ x <= round_up8 x
  ∧ ∀ y, y mod 8 = 0 -> x <= y -> round_up8 x <= y.
Proof.
  unfold round_up8. split; [|split].
  - rewrite Z.mul_comm. apply Z.mod_mul. lia.
  - pose proof (Z.div_mod (x + 7) 8). pose proof (Z.mod_pos_bound (x + 7) 8). lia.
  - intros y Hy Hxy. pose proof (Z.div_mod y 8).
    assert ((x + 7) / 8 <= y / 8); [|lia].
    replace y with (y / 8 * 8) in Hxy by lia.
    apply Z.lt_succ_r. apply Z.div_lt_upper_bound; lia.
Qed.

(** As long as the rounded size fits an [int], [block_size] is the rounding
    of [size + sizeof(blockHeader)] up to a multiple of 8. *)
Lemma block_size_in_range n :
  1 <= n <= 2 ^ 31 - 12 ->
  block_size n = round_up8 (n + sizeof_blockHeader)
  ∧ 8 <= block_size n <= 2 ^ 31 - 8 ∧ block_size n mod 8 = 0.
Proof.
  intros Hn. unfold block_size, round_up8, sizeof_blockHeader.
  pose proof (Z.div_mod (n + 4 + 7) 8). pose proof (Z.mod_pos_bound (n + 4 + 7) 8).
  rewrite (to_size_t_id n) by lia. rewrite (to_size_t_id (n + 4 + 7)) by lia.
  rewrite to_size_t_id by lia.
  rewrite wrap32_id by (unfold is_int, INT_MIN, INT_MAX; lia).
  replace (n + 4 + 7) with (n + 4 + 7) in * by reflexivity.
  split; [lia|]. split; [lia|]. apply Z.mod_mul. lia.
Qed.

(** Beyond that the conversion to [int] yields a negative block size. *)
Lemma block_size_overflow n :
  2 ^ 31 - 12 < n <= INT_MAX ->
  INT_MIN <= block_size n <= INT_MIN + 8.
Proof.
  unfold INT_MAX, INT_MIN. intros Hn. unfold block_size, sizeof_blockHeader.
  pose proof (Z.div_mod (n + 4 + 7) 8). pose proof (Z.mod_pos_bound (n + 4 + 7) 8).
  rewrite (to_size_t_id n) by lia. rewrite (to_size_t_id (n + 4 + 7)) by lia.
  rewrite to_size_t_id by lia.
  unfold wrap32.
  assert (Hq : (n + 4 + 7) / 8 * 8 = 2 ^ 31 ∨ (n + 4 + 7) / 8 * 8 = 2 ^ 31 + 8).
  { assert (2 ^ 28 <= (n + 4 + 7) / 8 <= 2 ^ 28 + 1); [|lia].
    split; [apply Z.div_le_lower_bound; lia|].
    apply Z.lt_succ_r. apply Z.div_lt_upper_bound; lia. }
  destruct Hq as [-> | ->]; vm_compute; split; congruence.
Qed.

End BlockSize.

(** ** Placement *)

Section Placement.

Implicit Types (m : gmap Z Z) (a b e x v need : Z) (l : list Z).

Lemma set_next_p_bit_chain m nb l e :
  chain m nb l e -> m !! e = Some 1 ->
  ∃ m', set_next_p_bit m nb = Ret m'
    ∧ chain m' nb (match l with [] => [] | w :: r => Z.lor w 2 :: r end) e
    ∧ m' !! e = Some 1 ∧ dom m' = dom m
    ∧ ∀ x, x <> nb -> m' !! x = m !! x.
Proof.
  intros Hc He. unfold set_next_p_bit. destruct l as [|w r]; simpl in Hc.
  - subst nb. rewrite (load_lookup _ _ _ He). cbn. exists m. simpl. auto.
  - destruct Hc as (Hw & Hs & Hm & Hc). rewrite (load_lookup _ _ _ Hw). cbn.
    destruct (Z.eqb_spec w 1) as [->|_]; [rewrite size_of_one in Hs; lia|].
    rewrite store_mapped by eauto. exists (<[nb := Z.lor w 2]> m).
    pose proof (chain_le _ _ _ _ Hc).
    split; [reflexivity|]. split; [|split; [|split]].
    + simpl. rewrite size_of_lor_2, lookup_insert_eq.
      repeat split; try assumption. apply chain_insert; [assumption|lia].
    + rewrite lookup_insert_ne by lia. assumption.
    + apply dom_insert_lookup_L. eauto.
    + intros x Hx. now apply lookup_insert_ne.
Qed.

(** Placement in a free block of a chain, for a block size that fits. *)
Lemma place_chain m hs e l1 v l2 b need :
  chain m hs l1 b -> m !! b = Some v ->
  chain m (b + size_of v) l2 e -> m !! e = Some 1 ->
  (∀ x, b <= x < e -> (x - b) mod 4 = 0 -> is_Some (m !! x)) ->
  8 <= need <= size_of v -> need mod 8 = 0 ->
  size_of v <= INT_MAX -> size_of v mod 8 = 0 ->
  ∃ m' hd, place m need b = Ret m'
    ∧ chain m' hs (l1 ++ hd ++ match l2 with [] => [] | w :: r => Z.lor w 2 :: r end) e
    ∧ m' !! e = Some 1 ∧ dom m' = dom m
    ∧ (hd = [Z.lor v 1] ∧ size_of v - need < 16
       ∨ hd = [Z.lor (Z.lor need (Z.land v 3)) 1; Z.lor (size_of v - need) 2]
         ∧ 16 <= size_of v - need).
Proof.
  intros H1 Hv H2 He Hmap Hneed Hn8 Hint Hv8. unfold INT_MAX in Hint.
  pose proof (chain_le _ _ _ _ H2) as Hle.
  unfold place. rewrite (load_lookup _ _ _ Hv). cbn.
  rewrite wrap32_id by (unfold is_int, INT_MIN, INT_MAX; lia).
  rewrite to_size_t_id by lia. change (to_size_t (sizeof_blockHeader * 2 + 8)) with 16.
  assert (Hmb : is_Some (m !! b)) by eauto.
  destruct (Z.geb_spec (size_of v - need) 16) as [Hsplit|Hwhole].
  - (* split *)
    set (h1 := Z.lor (Z.lor need (Z.land v 3)) 1).
    set (h2 := Z.lor (size_of v - need) 2).
    rewrite store_mapped by assumption. cbn.
    assert (Hn4 : need mod 4 = 0).
    { pose proof (Z.div_mod need 8). replace need with (2 * (need / 8) * 4) by lia.
      apply Z.mod_mul. lia. }
    assert (Hr8 : (size_of v - need) mod 8 = 0).
    { rewrite Zminus_mod, Hv8, Hn8. reflexivity. }
    assert (Hr4 : (size_of v - need) mod 4 = 0).
    { pose proof (Z.div_mod (size_of v - need) 8).
      replace (size_of v - need) with (2 * ((size_of v - need) / 8) * 4) by lia.
      apply Z.mod_mul. lia. }
    rewrite store_mapped; cycle 1.
    { apply insert_mapped; [assumption|]. apply Hmap; [lia|].
      now replace (b + need - b) with need by lia. }
    cbn. replace (b + need + (size_of v - need)) with (b + size_of v) by lia.
    set (m2 := <[b + need := h2]> (<[b := h1]> m)).
    assert (H2' : chain m2 (b + size_of v) l2 e).
    { unfold m2. apply chain_insert; [|lia]. apply chain_insert; [assumption|lia]. }
    assert (He' : m2 !! e = Some 1).
    { unfold m2. rewrite !lookup_insert_ne by lia. assumption. }
    destruct (set_next_p_bit_chain _ _ _ _ H2' He') as (m' & -> & Hc' & He'' & Hd & Hag).
    exists m', [h1; h2]. split; [reflexivity|]. split; [|split; [assumption|split]].
    + apply chain_app. exists b. split.
      * apply (chain_agree m); [assumption|]. intros x Hx.
        rewrite Hag by lia. unfold m2. rewrite !lookup_insert_ne by lia. reflexivity.
      * assert (Hh1 : size_of h1 = need) by now apply size_of_split_header.
        assert (Hh2 : size_of h2 = size_of v - need).
        { unfold h2. now rewrite size_of_lor_2, size_of_aligned. }
        simpl. rewrite Hh1, Hh2. rewrite !Hag by lia. unfold m2.
        rewrite lookup_insert_ne by lia. rewrite !lookup_insert_eq.
        replace (b + need + (size_of v - need)) with (b + size_of v) by lia.
        repeat split; try assumption; lia.
    + rewrite Hd. unfold m2.
      rewrite dom_insert_lookup_L; [now apply dom_insert_lookup_L|].
      apply insert_mapped; [assumption|]. apply Hmap; [lia|].
      now replace (b + need - b) with need by lia.
    + right. split; [reflexivity|lia].
  - (* the whole block *)
    rewrite store_mapped by assumption. cbn.
    rewrite (load_lookup _ _ (Z.lor v 1)) by apply lookup_insert_eq. cbn.
    rewrite size_of_lor_1.
    set (m1 := <[b := Z.lor v 1]> m).
    assert (H2' : chain m1 (b + size_of v) l2 e).
    { unfold m1. apply chain_insert; [assumption|lia]. }
    assert (He' : m1 !! e = Some 1).
    { unfold m1. rewrite lookup_insert_ne by lia. assumption. }
    destruct (set_next_p_bit_chain _ _ _ _ H2' He') as (m' & -> & Hc' & He'' & Hd & Hag).
    exists m', [Z.lor v 1]. split; [reflexivity|]. split; [|split; [assumption|split]].
    + apply chain_app. exists b. split.
      * apply (chain_agree m); [assumption|]. intros x Hx.
        rewrite Hag by lia. unfold m1. rewrite lookup_insert_ne by lia. reflexivity.
      * simpl. rewrite Hag by lia. unfold m1. rewrite lookup_insert_eq.
        rewrite size_of_lor_1. split; [reflexivity|]. split; [lia|]. now split.
    + rewrite Hd. unfold m1. now apply dom_insert_lookup_L.
    + left. split; [reflexivity|lia].
Qed.

(** Placement with a block size that overflowed to a negative [int]: the
    header of the remainder is written below the region. *)
Lemma place_overflow m b v need :
  m !! b = Some v -> 8 <= size_of v <= 2 ^ 31 - 16 ->
  INT_MIN <= need <= INT_MIN + 8 -> m !! (b + need) = None ->
  place m need b = Fault.
Proof.
  unfold INT_MIN. intros Hv Hs Hneed Hun.
  unfold place. rewrite (load_lookup _ _ _ Hv). cbn.
  assert (Hr : wrap32 (size_of v - need) = size_of v - need - 2 ^ 32).
  { unfold wrap32.
    replace (size_of v - need + 2 ^ 31)
      with (size_of v - need - 2 ^ 31 + 1 * 2 ^ 32) by lia.
    rewrite Z.mod_add by lia. rewrite Z.mod_small by lia. lia. }
  rewrite Hr. change (to_size_t (sizeof_blockHeader * 2 + 8)) with 16.
  assert (Ht : to_size_t (size_of v - need - 2 ^ 32) = size_of v - need - 2 ^ 32 + 2 ^ 64).
  { unfold to_size_t. symmetry. apply Z.mod_unique with (q := -1); lia. }
  rewrite Ht. destruct (Z.geb_spec (size_of v - need - 2 ^ 32 + 2 ^ 64) 16); [|lia].
  rewrite store_mapped by eauto. cbn.
  rewrite store_unmapped; [reflexivity|].
  rewrite lookup_insert_ne by lia. assumption.
Qed.

End Placement.

(** ** balloc on an initialised heap *)

Section Balloc.

Lemma mod4_of_mod8 b : b mod 8 = 0 -> b mod 4 = 0.
Proof.
  intros H. pose proof (Z.div_mod b 8).
  replace b with (2 * (b / 8) * 4) by lia. apply Z.mod_mul. lia.
Qed.

Lemma mod4_add a b : a mod 4 = 0 -> b mod 4 = 0 -> (a + b) mod 4 = 0.
Proof. intros Ha Hb. rewrite Z.add_mod, Ha, Hb by lia. reflexivity. Qed.

Lemma heap_fuel_enough s l :
  chain (heap s) (heap_start s) l (heap_start s + alloc_size s) ->
  (length l < heap_fuel s)%nat.
Proof. intros H. apply chain_bounds in H. unfold heap_fuel. lia. Qed.

Lemma heap_ok_set_heap s m' l' :
  heap_ok s -> dom m' = dom (heap s) ->
  m' !! (heap_start s + alloc_size s) = Some 1 ->
  chain m' (heap_start s) l' (heap_start s + alloc_size s) ->
  heap_ok (set_heap s m').
Proof.
  intros [Ho Hb Hs Ht Hm He Hc] Hd He' Hc'. split; simpl; try assumption.
  - intros x. rewrite <- Hm. rewrite <- !elem_of_dom, Hd. reflexivity.
  - eauto.
Qed.

(** On an initialised heap the bounds that [bfree] compares a pointer with
    are the first payload address and the address of the end mark. *)
Lemma heap_ok_bounds s :
  heap_ok s ->
  to_ptr (heap_start s + sizeof_blockHeader) = heap_start s + sizeof_blockHeader
  ∧ to_ptr (heap_start s + alloc_size s) = heap_start s + alloc_size s.
Proof.
  intros Hok. pose proof (ok_base _ Hok). pose proof (ok_size _ Hok).
  pose proof (ok_top _ Hok). unfold sizeof_blockHeader.
  split; apply to_ptr_id; lia.
Qed.

(** The words of the region from a block start onwards are mapped. *)
Lemma heap_ok_mapped_from s l1 b :
  heap_ok s -> chain (heap s) (heap_start s) l1 b ->
  ∀ x, b <= x < heap_start s + alloc_size s -> (x - b) mod 4 = 0 ->
       is_Some (heap s !! x).
Proof.
  intros Hok H1 x Hx Hx4. apply (ok_mapped _ Hok).
  pose proof (chain_le _ _ _ _ H1). split; [lia|].
  replace (x - heap_start s) with ((x - b) + (b - heap_start s)) by lia.
  apply mod4_add; [assumption|]. apply mod4_of_mod8. eapply chain_aligned; eauto.
Qed.

Lemma heap_ok_blocks s l :
  heap_ok s -> chain (heap s) (heap_start s) l (heap_start s + alloc_size s) ->
  blocks s = Ret (layout (heap_start s) l).
Proof.
  intros Hok Hc. unfold blocks.
  apply (walk_chain _ _ _ _ _ Hc (ok_end _ Hok)). now apply heap_fuel_enough.
Qed.

(** What [balloc] does on an initialised heap, in terms of the search on
    the block list. *)
Lemma balloc_pick s l n :
  heap_ok s -> chain (heap s) (heap_start s) l (heap_start s + alloc_size s) ->
  1 <= n ->
  balloc n s =
  match pick (block_size n) (layout (heap_start s) l) None with
  | None => Ret (NULL, s)
  | Some c =>
    m' ← place (heap s) (block_size n) c.1;
    Ret (c.1 + sizeof_blockHeader, set_heap s m')
  end.
Proof.
  intros Hok Hc Hn. unfold balloc, balloc_fuel.
  destruct (Z.ltb_spec n 1) as [?|_]; [lia|].
  pose proof (ok_base _ Hok) as Hb.
  rewrite (scan_pick _ (block_size n) _ _ _ _ None Hc (ok_end _ Hok));
    [|now apply heap_fuel_enough|lia|discriminate].
  cbn. pose proof (pick_spec (block_size n) (layout (heap_start s) l)) as Hp.
  destruct (pick (block_size n) (layout (heap_start s) l) None) as [c|];
    [|reflexivity].
  destruct Hp as (i & Hi & _).
  destruct (chain_lookup _ _ _ _ _ _ Hc Hi) as (l1 & l2 & _ & _ & H1 & _).
  apply chain_le in H1. simpl.
  destruct (Z.eqb_spec c.1 NULL) as [E|_]; [unfold NULL in E; lia|]. reflexivity.
Qed.

(** [balloc] keeps an initialised heap well formed: it returns the null
    pointer and leaves the state alone, or it places the request in a chain
    block, or (for a block size that overflowed) it faults. *)
Lemma balloc_preserves s n p s' :
  heap_ok s -> is_int n -> balloc n s = Ret (p, s') ->
  heap_ok s' ∧ heap_start s' = heap_start s ∧ alloc_size s' = alloc_size s.
Proof.
  intros Hok Hn Hb. destruct (Z.ltb_spec n 1) as [Hlt|Hge].
  { unfold balloc, balloc_fuel in Hb. destruct (Z.ltb_spec n 1); [|lia].
    inversion Hb; subst. auto. }
  destruct (ok_chain _ Hok) as [l Hc].
  rewrite (balloc_pick _ _ _ Hok Hc Hge) in Hb.
  pose proof (pick_spec (block_size n) (layout (heap_start s) l)) as Hp.
  destruct (pick (block_size n) (layout (heap_start s) l) None) as [c|];
    [|inversion Hb; subst; auto].
  destruct Hp as (i & Hi & [Hfree Hfit] & _).
  destruct (chain_lookup _ _ _ _ _ _ Hc Hi)
    as (l1 & l2 & -> & _ & H1 & Hv & Hs & Hm & H2).
  pose proof (chain_le _ _ _ _ H1). pose proof (chain_le _ _ _ _ H2).
  pose proof (ok_size _ Hok). pose proof (ok_base _ Hok).
  destruct (Z_le_gt_dec n (2 ^ 31 - 12)) as [Hsmall|Hbig].
  - destruct (block_size_in_range n) as (_ & Hbs & Hb8); [lia|].
    destruct (place_chain (heap s) (heap_start s) (heap_start s + alloc_size s)
                l1 c.2 l2 c.1 (block_size n))
      as (m' & hd & Hpl & Hc' & He' & Hd & _);
      try assumption; try (unfold INT_MAX; lia).
    + apply (ok_end _ Hok).
    + now apply heap_ok_mapped_from with (l1 := l1).
    + rewrite Hpl in Hb. cbn in Hb. inversion Hb; subst.
      split; [|auto]. eapply heap_ok_set_heap; eauto.
  - rewrite place_overflow with (v := c.2) in Hb; [discriminate|assumption|lia| |].
    + apply block_size_overflow. unfold is_int in Hn. lia.
    + pose proof (block_size_overflow n) as Ho. unfold is_int in Hn.
      unfold INT_MIN, INT_MAX in *.
      destruct (heap s !! (c.1 + block_size n)) eqn:E; [|reflexivity].
      assert (Hsome : is_Some (heap s !! (c.1 + block_size n))) by eauto.
      apply (ok_mapped _ Hok) in Hsome. lia.
Qed.

End Balloc.

(** ** bfree *)

Section Bfree.

Implicit Types (m : gmap Z Z) (a e x v : Z) (l : list Z).

Lemma bind_inv {A B : Type} (r : result A) (k : A -> result B) (y : B) :
  (r ≫= k) = Ret y -> ∃ u, r = Ret u ∧ k u = Ret y.
Proof. destruct r as [u| |]; cbn; intros H; try discriminate. eauto. Qed.

Lemma same_sizes_refl m : same_sizes m m.
Proof. intros x v H. eauto. Qed.

Lemma same_sizes_trans m1 m2 m3 :
  same_sizes m1 m2 -> same_sizes m2 m3 -> same_sizes m1 m3.
Proof.
  intros H12 H23 x v Hv. destruct (H12 _ _ Hv) as (v' & Hv' & E).
  destruct (H23 _ _ Hv') as (v'' & Hv'' & E'). exists v''. split; [assumption|congruence].
Qed.

Lemma same_sizes_insert m a v v' :
  m !! a = Some v -> size_of v' = size_of v -> same_sizes m (<[a := v']> m).
Proof.
  intros Ha E x w Hw. destruct (decide (a = x)) as [->|Hne].
  - rewrite lookup_insert_eq. exists v'. split; [reflexivity|congruence].
  - rewrite lookup_insert_ne by assumption. eauto.
Qed.

(** Changing status bits only keeps every chain a chain. *)
Lemma chain_same_sizes m m' a l e :
  chain m a l e -> same_sizes m m' ->
  ∃ l', chain m' a l' e ∧ length l' = length l.
Proof.
  intros Hc Hs. revert a Hc. induction l as [|v l IH]; intros a; simpl.
  - intros ->. now exists [].
  - intros (Hv & H8 & Hm & Hc). destruct (IH _ Hc) as (l' & Hc' & Hlen).
    destruct (Hs _ _ Hv) as (v' & Hv' & E). exists (v' :: l'). simpl.
    rewrite E. repeat split; try assumption. now rewrite Hlen.
Qed.

(** The two stores of a successful [bfree]. *)
Lemma bfree_success ptr s s' :
  bfree ptr s = Ret (0, s') ->
  ∃ bs ns m2,
    let block := ptr - sizeof_blockHeader in
    let m1 := <[block := Z.land bs (-2)]> (heap s) in
    let nextBlock := block + size_mask (Z.land bs (-2)) in
    to_ptr (heap_start s + sizeof_blockHeader) <= ptr
      < to_ptr (heap_start s + alloc_size s)
    ∧ ptr <> NULL ∧ ptr mod 8 = 0
    ∧ heap s !! block = Some bs ∧ a_bit bs = true
    ∧ m1 !! nextBlock = Some ns
    ∧ m2 = (if ns =? 1 then m1 else <[nextBlock := Z.land ns (-3)]> m1)
    ∧ s' = set_heap s m2.
Proof.
  unfold bfree. intros H.
  destruct (Z.eqb_spec ptr NULL) as [|Hnull]; [discriminate|].
  destruct (Z.eqb_spec (ptr mod 8) 0) as [Hal|]; [|discriminate].
  destruct (Z.ltb_spec ptr (to_ptr (heap_start s + sizeof_blockHeader)))
    as [|Hlo]; [discriminate|].
  destruct (Z.geb_spec ptr (to_ptr (heap_start s + alloc_size s)))
    as [|Hhi]; [discriminate|].
  cbn in H. apply bind_inv in H as (bs & Hbs & H). apply load_inv in Hbs.
  destruct (a_bit bs) eqn:Ha; cbn in H; [|discriminate].
  apply bind_inv in H as (m1 & Hm1 & H). apply store_inv in Hm1 as [_ ->].
  apply bind_inv in H as (bs' & Hbs' & H). apply load_inv in Hbs'.
  rewrite lookup_insert_eq in Hbs'. inversion Hbs'; subst bs'.
  apply bind_inv in H as (ns & Hns & H). apply load_inv in Hns.
  apply bind_inv in H as (m2 & Hm2 & H). inversion H; subst s'.
  exists bs, ns, m2. cbn. repeat split; try assumption; try lia.
  destruct (ns =? 1).
  - now inversion Hm2.
  - now apply store_inv in Hm2 as [_ ->].
Qed.

(** A failing [bfree] returns [-1] and the state it was given. *)
Lemma bfree_failure ptr s r s' :
  bfree ptr s = Ret (r, s') -> r <> 0 -> r = -1 ∧ s' = s.
Proof.
  unfold bfree. intros H Hr.
  destruct ((ptr =? NULL) || negb (ptr mod 8 =? 0)
            || (ptr <? to_ptr (heap_start s + sizeof_blockHeader))
            || (ptr >=? to_ptr (heap_start s + alloc_size s))).
  { inversion H. auto. }
  apply bind_inv in H as (bs & Hbs & H).
  destruct (a_bit bs); cbn in H; [|inversion H; auto].
  apply bind_inv in H as (m1 & _ & H). apply bind_inv in H as (bs' & _ & H).
  apply bind_inv in H as (ns & _ & H). apply bind_inv in H as (m2 & _ & H).
  inversion H. congruence.
Qed.

Lemma bfree_preserves s ptr r s' :
  heap_ok s -> bfree ptr s = Ret (r, s') ->
  heap_ok s' ∧ heap_start s' = heap_start s ∧ alloc_size s' = alloc_size s.
Proof.
  intros Hok H. destruct (decide (r = 0)) as [->|Hr].
  2: { destruct (bfree_failure _ _ _ _ H Hr) as [_ ->]. auto. }
  destruct (bfree_success _ _ _ H) as (bs & ns & m2 & Hrange & _ & _ & Hbs & _ & Hns & Hm2 & ->).
  cbn zeta in *. destruct (heap_ok_bounds _ Hok) as [Eb1 Eb2].
  rewrite Eb1, Eb2 in Hrange. clear Eb1 Eb2. unfold sizeof_blockHeader in *.
  set (block := ptr - 4) in *. set (m1 := <[block := Z.land bs (-2)]> (heap s)) in *.
  set (nb := block + size_mask (Z.land bs (-2))) in *.
  pose proof (ok_end _ Hok) as He.
  assert (He1 : m1 !! (heap_start s + alloc_size s) = Some 1).
  { unfold m1. rewrite lookup_insert_ne by (unfold block; lia). assumption. }
  assert (Hd1 : dom m1 = dom (heap s)).
  { unfold m1. apply dom_insert_lookup_L. eauto. }
  assert (Hs1 : same_sizes (heap s) m1).
  { unfold m1. eapply same_sizes_insert; [eassumption|]. apply size_of_land_m2. }
  assert (H2 : m2 !! (heap_start s + alloc_size s) = Some 1
               ∧ dom m2 = dom (heap s) ∧ same_sizes (heap s) m2).
  { subst m2. destruct (Z.eqb_spec ns 1) as [->|Hne]; [auto|].
    split; [|split].
    - rewrite lookup_insert_ne; [assumption|]. intros E. rewrite E in Hns. congruence.
    - rewrite dom_insert_lookup_L by eauto. assumption.
    - eapply same_sizes_trans; [exact Hs1|].
      eapply same_sizes_insert; [eassumption|]. apply size_of_land_m3. }
  destruct H2 as (He2 & Hd2 & Hs2). destruct (ok_chain _ Hok) as [l Hc].
  destruct (chain_same_sizes _ _ _ _ _ Hc Hs2) as (l' & Hc' & _).
  split; [|auto]. eapply heap_ok_set_heap; eauto.
Qed.

End Bfree.

(** ** coalesce *)

Section Coalesce.

Implicit Types (m : gmap Z Z) (a c e x v : Z) (l : list Z).

(** The inner loop merges into the free block at [c] the free blocks that
    follow it and stops in front of the end mark or an allocated block. *)
Lemma absorb_chain e l : ∀ fuel m c v,
  m !! c = Some v -> a_bit v = false -> 8 <= size_of v -> size_of v mod 8 = 0 ->
  chain m (c + size_of v) l e -> m !! e = Some 1 ->
  (length l < fuel)%nat -> e - c <= 2 ^ 31 - 4 ->
  ∃ m' v' l',
    absorb fuel m c (c + size_of v) = Ret (m', c + size_of v')
    ∧ m' !! c = Some v' ∧ a_bit v' = false
    ∧ 8 <= size_of v' ∧ size_of v' mod 8 = 0
    ∧ chain m' (c + size_of v') l' e
    ∧ match l' with [] => True | w :: _ => a_bit w = true end
    ∧ (length l' <= length l)%nat
    ∧ m' !! e = Some 1 ∧ dom m' = dom m
    ∧ ∀ x, x <> c -> m' !! x = m !! x.
Proof.
  induction l as [|w r IH]; intros fuel m c v Hv Ha H8 Hm Hc He Hf Hb;
    (destruct fuel as [|fuel]; [simpl in Hf; lia|]); simpl in Hc.
  - cbn [absorb]. rewrite Hc. rewrite (load_lookup _ _ _ He). cbn.
    exists m, v, []. rewrite Hc. simpl. repeat split; auto.
  - destruct Hc as (Hw & Hw8 & Hwm & Hc). cbn [absorb].
    rewrite (load_lookup _ _ _ Hw). cbn.
    destruct (Z.eqb_spec w 1) as [->|_]; [rewrite size_of_one in Hw8; lia|].
    destruct (a_bit w) eqn:Haw; cbn.
    + exists m, v, (w :: r). simpl. repeat split; auto.
    + pose proof (chain_le _ _ _ _ Hc) as Hle.
      pose proof (size_of_le v) as Hv3.
      rewrite (load_lookup _ _ _ Hv). cbn. rewrite size_mask_size_of.
      rewrite wrap32_id by (unfold is_int, INT_MIN, INT_MAX; lia).
      rewrite store_mapped by eauto. cbn.
      rewrite (load_lookup _ _ (v + size_of w)) by apply lookup_insert_eq. cbn.
      rewrite size_mask_size_of.
      assert (Hw4 : size_of w mod 4 = 0) by apply size_of_mod4.
      assert (Hsz : size_of (v + size_of w) = size_of v + size_of w)
        by now apply size_of_add.
      set (m1 := <[c := v + size_of w]> m).
      destruct (IH fuel m1 c (v + size_of w)) as
        (m' & v' & l' & Hab & Hv' & Ha' & H8' & Hm' & Hc' & Hhd & Hlen & He' & Hd & Hag).
      * apply lookup_insert_eq.
      * now rewrite a_bit_add.
      * lia.
      * rewrite Hsz, Z.add_mod, Hm, Hwm by lia. reflexivity.
      * rewrite Hsz, Z.add_assoc. apply chain_insert; [assumption|lia].
      * unfold m1. rewrite lookup_insert_ne by lia. assumption.
      * simpl in Hf. lia.
      * assumption.
      * exists m', v', l'. rewrite Hab. repeat split; try assumption.
        -- simpl. lia.
        -- rewrite Hd. unfold m1. apply dom_insert_lookup_L. eauto.
        -- intros x Hx. rewrite Hag by assumption. unfold m1.
           now rewrite lookup_insert_ne.
Qed.

Lemma settled_no_adjacent_free l : settled l -> no_adjacent_free l.
Proof.
  induction l as [|v l IH]; simpl; [auto|]. intros [Hv Hs]. split; [|auto].
  destruct l as [|w r]; [auto|]. intros [Hfv Hfw].
  destruct (Hv Hfv) as [Haw _]. unfold is_free in Hfw. rewrite Haw in Hfw. discriminate.
Qed.

(** One pass of [coalesce] over a chain: it returns, the result is a chain
    over the same range in which every free block is followed by the end
    mark or by an allocated block with its p-bit set, and an allocated
    block at the front keeps its header. *)
Lemma coalesce_loop_chain e n : ∀ l fuel m a,
  (length l <= n)%nat ->
  chain m a l e -> m !! e = Some 1 -> (length l < fuel)%nat ->
  e - a <= 2 ^ 31 - 4 ->
  ∃ m' l',
    coalesce_loop fuel m a = Ret m'
    ∧ chain m' a l' e ∧ settled l'
    ∧ m' !! e = Some 1 ∧ dom m' = dom m
    ∧ (∀ x, x < a -> m' !! x = m !! x)
    ∧ match l with
      | [] => l' = []
      | w :: _ => a_bit w = true -> ∃ r', l' = w :: r'
      end.
Proof.
  induction n as [|n IH]; intros l fuel m a Hn Hc He Hf Hb;
    (destruct fuel as [|fuel]; [lia|]).
  - destruct l; [|simpl in Hn; lia]. simpl in Hc. subst a.
    cbn [coalesce_loop]. rewrite (load_lookup _ _ _ He). cbn.
    exists m, []. simpl. auto 10.
  - destruct l as [|v t]; simpl in Hc.
    { subst a. cbn [coalesce_loop]. rewrite (load_lookup _ _ _ He). cbn.
      exists m, []. simpl. auto 10. }
    destruct Hc as (Hv & H8 & Hm & Hc). cbn [coalesce_loop].
    rewrite (load_lookup _ _ _ Hv). cbn.
    destruct (Z.eqb_spec v 1) as [->|_]; [rewrite size_of_one in H8; lia|].
    simpl in Hn, Hf. pose proof (chain_le _ _ _ _ Hc) as Hle.
    destruct (a_bit v) eqn:Hav; cbn.
    + (* allocated block: skipped *)
      rewrite (load_lookup _ _ _ Hv). cbn. rewrite size_mask_size_of.
      destruct (IH t fuel m (a + size_of v)) as (m' & t' & Hrun & Hc' & Hst & He' & Hd & Hag & _);
        try assumption; try lia.
      exists m', (v :: t'). rewrite Hrun. repeat split; try assumption.
      * rewrite Hag by lia. assumption.
      * simpl. unfold is_free. rewrite Hav. discriminate.
      * intros x Hx. apply Hag. lia.
      * eauto.
    + (* free block: absorb the free blocks behind it *)
      rewrite size_mask_size_of.
      destruct (absorb_chain e t fuel m a v) as
        (m1 & v' & l1 & Hab & Hv' & Ha' & H8' & Hm' & Hc1 & Hhd & Hlen & He1 & Hd1 & Hag1);
        try assumption; try lia.
      rewrite Hab. cbn.
      destruct (set_next_p_bit_chain _ _ _ _ Hc1 He1) as (m2 & Hsn & Hc2 & He2 & Hd2 & Hag2).
      rewrite Hsn. cbn. pose proof (chain_le _ _ _ _ Hc1) as Hle1.
      assert (Hv2 : m2 !! a = Some v') by (rewrite Hag2 by lia; assumption).
      rewrite (load_lookup _ _ _ Hv2). cbn. rewrite size_mask_size_of.
      set (l2 := match l1 with [] => [] | w :: r => Z.lor w 2 :: r end) in *.
      assert (Hlen2 : length l2 = length l1) by (unfold l2; now destruct l1).
      destruct (IH l2 fuel m2 (a + size_of v')) as (m' & t' & Hrun & Hc' & Hst & He' & Hd & Hag & Hhead);
        try assumption; try lia.
      exists m', (v' :: t'). rewrite Hrun. repeat split; try assumption.
      * rewrite Hag by lia. assumption.
      * simpl. intros _. unfold l2 in Hhead. destruct l1 as [|w r].
        -- now subst t'.
        -- destruct Hhead as [r' ->]; [now rewrite a_bit_lor_2|].
           split; [now rewrite a_bit_lor_2|apply lor_2_idem].
      * congruence.
      * intros x Hx. rewrite Hag by lia. rewrite Hag2 by lia. apply Hag1. lia.
      * congruence.
Qed.

(** On a settled chain a pass of [coalesce] writes nothing new. *)
Lemma coalesce_loop_settled e l : ∀ fuel m a,
  chain m a l e -> settled l -> m !! e = Some 1 -> (length l < fuel)%nat ->
  coalesce_loop fuel m a = Ret m.
Proof.
  induction l as [|v t IH]; intros fuel m a Hc Hst He Hf;
    (destruct fuel as [|fuel]; [simpl in Hf; lia|]); simpl in Hc.
  - subst a. cbn [coalesce_loop]. rewrite (load_lookup _ _ _ He). reflexivity.
  - destruct Hc as (Hv & H8 & Hm & Hc). destruct Hst as [Hnext Hst].
    cbn [coalesce_loop]. rewrite (load_lookup _ _ _ Hv). cbn.
    destruct (Z.eqb_spec v 1) as [->|_]; [rewrite size_of_one in H8; lia|].
    simpl in Hf.
    assert (Hgo : (cs' ← load m a; coalesce_loop fuel m (a + size_mask cs')) = Ret m).
    { rewrite (load_lookup _ _ _ Hv). cbn. rewrite size_mask_size_of.
      apply IH; try assumption. lia. }
    destruct (a_bit v) eqn:Hav; cbn; [exact Hgo|].
    rewrite size_mask_size_of.
    destruct fuel as [|fuel]; [lia|]. cbn [absorb].
    unfold is_free in Hnext. rewrite Hav in Hnext. specialize (Hnext eq_refl).
    destruct t as [|w r]; simpl in Hc.
    + rewrite Hc. rewrite (load_lookup _ _ _ He). cbn.
      unfold set_next_p_bit. rewrite (load_lookup _ _ _ He). cbn.
      exact Hgo.
    + destruct Hc as (Hw & Hw8 & _). destruct Hnext as [Haw Hpw].
      rewrite (load_lookup _ _ _ Hw). cbn. rewrite Haw.
      rewrite andb_false_r. cbn.
      unfold set_next_p_bit. rewrite (load_lookup _ _ _ Hw). cbn.
      destruct (Z.eqb_spec w 1) as [->|_]; [rewrite size_of_one in Hw8; lia|].
      rewrite store_mapped by eauto. rewrite Hpw.
      rewrite insert_id by assumption. cbn. exact Hgo.
Qed.

(** [coalesce] on an initialised heap: it returns [0], the heap stays well
    formed and its chain is settled. *)
Lemma coalesce_spec s :
  heap_ok s ->
  ∃ m' l',
    coalesce s = Ret (0, set_heap s m')
    ∧ heap_ok (set_heap s m')
    ∧ chain m' (heap_start s) l' (heap_start s + alloc_size s)
    ∧ settled l'.
Proof.
  intros Hok. destruct (ok_chain _ Hok) as [l Hc]. pose proof (ok_size _ Hok).
  destruct (coalesce_loop_chain (heap_start s + alloc_size s) (length l) l
              (heap_fuel s) (heap s) (heap_start s))
    as (m' & l' & Hrun & Hc' & Hst & He' & Hd & _ & _);
    try assumption; try lia.
  - apply (ok_end _ Hok).
  - now apply heap_fuel_enough.
  - exists m', l'. unfold coalesce, coalesce_fuel. rewrite Hrun. cbn.
    split; [reflexivity|]. split; [|split; assumption].
    eapply heap_ok_set_heap; eauto.
Qed.

Lemma coalesce_preserves s r s' :
  heap_ok s -> coalesce s = Ret (r, s') ->
  heap_ok s' ∧ heap_start s' = heap_start s ∧ alloc_size s' = alloc_size s.
Proof.
  intros Hok H. destruct (coalesce_spec s Hok) as (m' & l' & Hrun & Hok' & _).
  rewrite Hrun in H. inversion H; subst. auto.
Qed.

End Coalesce.

(** ** init_heap *)

Section Init.

(** The padded size is a multiple of the page size. *)
Lemma padded_size q n :
  16 <= q <= INT_MAX -> q mod 8 = 0 -> 0 < n ->
  let padsize := Z.rem (wrap32 (q - Z.rem n q)) q in
  0 <= padsize < q ∧ 16 <= n + padsize ∧ (n + padsize) mod 8 = 0.
Proof.
  unfold INT_MAX. intros Hq Hq8 Hn. cbn zeta.
  rewrite (Z.rem_mod_nonneg n q) by lia.
  pose proof (Z.mod_pos_bound n q ltac:(lia)) as Hr.
  pose proof (Z.div_mod n q ltac:(lia)) as Hdm.
  rewrite wrap32_id by (unfold is_int, INT_MIN, INT_MAX; lia).
  rewrite Z.rem_mod_nonneg by lia.
  pose proof (Z.mod_pos_bound (q - n mod q) q).
  assert (Hk : ∃ k, 1 <= k ∧ n + (q - n mod q) mod q = q * k).
  { destruct (Z.eq_dec (n mod q) 0) as [E|E].
    - rewrite E, Z.sub_0_r, Z_mod_same_full. exists (n / q). split; [|lia].
      rewrite E in Hdm. assert (0 < n / q) by nia. lia.
    - rewrite Z.mod_small by lia. exists (n / q + 1).
      assert (0 <= n / q) by (apply Z.div_pos; lia). split; [lia|]. lia. }
  destruct Hk as (k & Hk & ->). split; [lia|]. split; [nia|].
  pose proof (Z.div_mod q 8 ltac:(lia)). replace (q * k) with (k * (q / 8) * 8) by lia.
  apply Z.mod_mul. lia.
Qed.

Lemma store_dom (m m0 : gmap Z Z) a v :
  dom m = dom m0 -> is_Some (m0 !! a) ->
  store m a v = Ret (<[a := v]> m) ∧ dom (<[a := v]> m) = dom m0.
Proof.
  intros Hd Ha. assert (Hm : is_Some (m !! a)).
  { apply elem_of_dom. rewrite Hd. now apply elem_of_dom. }
  split; [now apply store_mapped|]. rewrite <- Hd. now apply dom_insert_lookup_L.
Qed.

Lemma zero_region_mapped p T x :
  0 <= T -> T mod 4 = 0 ->
  is_Some (zero_region p (Z.to_nat (T / 4)) !! x)
  ↔ p <= x < p + T ∧ (x - p) mod 4 = 0.
Proof.
  intros HT HT4. rewrite zero_region_lookup.
  pose proof (Z.div_mod T 4 ltac:(lia)). rewrite Z2Nat.id by lia.
  case_decide as Hd; split; intros Hx; eauto.
  - split; [lia|tauto].
  - destruct Hx as [? Hx]. discriminate.
  - exfalso. apply Hd. split; [lia|tauto].
Qed.

(** The stores of [init_heap] into the fresh pages, and the heap they leave. *)
Lemma fresh_heap p T :
  0 < p -> 16 <= T <= 2 ^ 31 - 8 -> T mod 8 = 0 -> p + T <= 2 ^ 64 ->
  let A := T - 8 in
  let hs := p + sizeof_blockHeader in
  let m0 := zero_region p (Z.to_nat (T / 4)) in
  ∃ m4,
    format_heap m0 hs A = Ret m4
    ∧ heap_ok {| heap_start := hs; alloc_size := A; allocated_once := true;
                 heap := m4 |}.
Proof.
  intros Hp HT HT8 Htop. cbn zeta. unfold format_heap, sizeof_blockHeader.
  assert (HT4 : T mod 4 = 0) by now apply mod4_of_mod8.
  set (m0 := zero_region p (Z.to_nat (T / 4))).
  assert (Hmap : ∀ k, 0 <= k < T -> k mod 4 = 0 -> is_Some (m0 !! (p + k))).
  { intros k Hk Hk4. apply zero_region_mapped; [lia|assumption|].
    split; [lia|]. now replace (p + k - p) with k by lia. }
  assert (He : is_Some (m0 !! (p + 4 + (T - 8)))).
  { replace (p + 4 + (T - 8)) with (p + (T - 4)) by lia. apply Hmap; [lia|].
    apply mod4_add; [assumption|reflexivity]. }
  assert (Hh : is_Some (m0 !! (p + 4))) by (apply Hmap; [lia|reflexivity]).
  assert (Hf : is_Some (m0 !! (p + 4 + (T - 8) - 4))).
  { replace (p + 4 + (T - 8) - 4) with (p + (T - 8)) by lia. apply Hmap; [lia|].
    apply mod4_add; [assumption|reflexivity]. }
  destruct (store_dom m0 m0 _ 1 eq_refl He) as [-> Hd1]. cbn.
  destruct (store_dom _ m0 _ (T - 8) Hd1 Hh) as [-> Hd2]. cbn.
  rewrite (load_lookup _ _ (T - 8)) by apply lookup_insert_eq. cbn.
  rewrite wrap32_id by (unfold is_int, INT_MIN, INT_MAX; lia).
  destruct (store_dom _ m0 _ (T - 8 + 2) Hd2 Hh) as [-> Hd3]. cbn.
  destruct (store_dom _ m0 _ (T - 8) Hd3 Hf) as [-> Hd4].
  eexists. split; [reflexivity|]. split; simpl.
  - reflexivity.
  - lia.
  - lia.
  - lia.
  - intros x. rewrite <- elem_of_dom, Hd4, elem_of_dom.
    unfold m0. rewrite zero_region_mapped by (lia || assumption).
    replace (x - (p + 4)) with ((x - p) + (-1) * 4) by lia.
    rewrite Z.mod_add by lia. split; intros [? ?]; split; (lia || assumption).
  - rewrite !lookup_insert_ne by lia. apply lookup_insert_eq.
  - exists [T - 8 + 2].
    assert (Hsz : size_of (T - 8 + 2) = T - 8).
    { rewrite (Z.add_comm (T - 8)).
      rewrite size_of_add by (apply mod4_add; [assumption|reflexivity]). reflexivity. }
    simpl. rewrite Hsz. rewrite lookup_insert_ne by lia. rewrite lookup_insert_eq.
    repeat split; try lia.
    rewrite Zminus_mod, HT8. reflexivity.
Qed.

Lemma init_heap_again env n s :
  allocated_once s = true -> init_heap env n s = Ret (-1, s).
Proof. unfold init_heap. now intros ->. Qed.

(** [init_heap] in a process that has no heap yet: it fails and the process
    still has no heap, or it returns [0] and the heap is well formed. *)
Lemma init_heap_spec env n s r s' :
  os_sane env -> is_int n -> uninitialised s ->
  init_heap env n s = Ret (r, s') ->
  (r = -1 ∧ uninitialised s')
  ∨ (r = 0 ∧ heap_ok s' ∧ alloc_size s' = padded_region_size env n - 8).
Proof.
  intros [Hq Hq8 Hmm] Hn (Honce & Hhs & Hh) H.
  unfold init_heap, padded_region_size in H.
  rewrite Honce in H. cbn in H.
  destruct (Z.leb_spec n 0) as [|Hpos].
  { inversion H; subst. left. split; [reflexivity|]. now split. }
  destruct (open_ok env).
  2: { cbn in H. inversion H; subst. left. split; [reflexivity|]. now split. }
  cbn in H.
  destruct (padded_size (getpagesize env) n Hq Hq8 Hpos) as (Hpad & HT16 & HT8).
  set (padsize := Z.rem (wrap32 (getpagesize env - Z.rem n (getpagesize env)))
                        (getpagesize env)) in *.
  destruct (mmap env (to_size_t (wrap32 (n + padsize)))) as [p|] eqn:Emm.
  2: { inversion H; subst. left. split; [reflexivity|]. now split. }
  apply Hmm in Emm as (Hlen & Hp & Htop). right.
  unfold is_int, INT_MIN, INT_MAX in *.
  assert (HT : n + padsize <= 2 ^ 31 - 8).
  { destruct (Z_lt_ge_dec (n + padsize) (2 ^ 31)) as [Hlt|Hge].
    - pose proof (Z.div_mod (n + padsize) 8 ltac:(lia)). lia.
    - exfalso.
      assert (Hw : wrap32 (n + padsize) = n + padsize - 2 ^ 32).
      { unfold wrap32. replace (n + padsize + 2 ^ 31)
          with (n + padsize - 2 ^ 31 + 1 * 2 ^ 32) by lia.
        rewrite Z.mod_add by lia. rewrite Z.mod_small by lia. lia. }
      rewrite Hw in Hlen.
      assert (Ht : to_size_t (n + padsize - 2 ^ 32) = n + padsize - 2 ^ 32 + 2 ^ 64).
      { unfold to_size_t. symmetry. apply Z.mod_unique with (q := -1); lia. }
      rewrite Ht in Hlen. lia. }
  assert (Hprs : padded_region_size env n = n + padsize).
  { unfold padded_region_size. cbn zeta. fold padsize.
    apply wrap32_id. unfold is_int, INT_MIN, INT_MAX. lia. }
  rewrite (wrap32_id (n + padsize)) in H, Htop
    by (unfold is_int, INT_MIN, INT_MAX; lia).
  rewrite (wrap32_id (n + padsize - 8)) in H by (unfold is_int, INT_MIN, INT_MAX; lia).
  rewrite to_size_t_id in Htop by lia.
  destruct (fresh_heap p (n + padsize) Hp (conj HT16 HT) HT8 Htop) as (m4 & Hst & Hok).
  cbn zeta in Hst. rewrite Hst in H. cbn in H.
  inversion H; subst. split; [reflexivity|]. split; [exact Hok|].
  simpl. now rewrite Hprs.
Qed.

End Init.

(** ** Sequences of calls *)

Section Runs.

Variable env : os.
Hypothesis env_sane : os_sane env.

Lemma heap_ok_not_uninitialised s : heap_ok s -> uninitialised s -> False.
Proof. intros Hok (Hu & _). rewrite (ok_once _ Hok) in Hu. discriminate. Qed.

(** Before a successful [init_heap] the scan of [balloc] reads through the
    null [heap_start]. *)
Lemma balloc_null_heap s n :
  heap_start s = NULL -> heap s !! NULL = None -> 1 <= n -> balloc n s = Fault.
Proof.
  intros Hs Hm Hn. unfold balloc, balloc_fuel, heap_fuel.
  destruct (Z.ltb_spec n 1); [lia|]. cbn [best_fit_scan]. rewrite Hs.
  now rewrite (load_unmapped _ _ Hm).
Qed.

Lemma coalesce_null_heap s :
  heap_start s = NULL -> heap s !! NULL = None -> coalesce s = Fault.
Proof.
  intros Hs Hm. unfold coalesce, coalesce_fuel, heap_fuel.
  cbn [coalesce_loop]. rewrite Hs. now rewrite (load_unmapped _ _ Hm).
Qed.


(** A call that returns on a well-formed heap leaves a well-formed heap of
    the same place and size. *)
Lemma step_heap_ok o s s' :
  wf_op o -> heap_ok s -> step env o s = Ret s' ->
  heap_ok s' ∧ heap_start s' = heap_start s ∧ alloc_size s' = alloc_size s.
Proof.
  intros Hwf Hok H. destruct o as [n|n|p|]; simpl in H, Hwf;
    apply bind_inv in H as ([r s1] & Hop & H); inversion H; subst s1.
  - rewrite init_heap_again in Hop by apply (ok_once _ Hok).
    inversion Hop; subst. auto.
  - eapply balloc_preserves; eauto.
  - eapply bfree_preserves; eauto.
  - eapply coalesce_preserves; eauto.
Qed.

Lemma run_heap_ok ops : ∀ s s',
  Forall wf_op ops -> heap_ok s -> run env ops s = Ret s' ->
  heap_ok s' ∧ heap_start s' = heap_start s ∧ alloc_size s' = alloc_size s.
Proof.
  induction ops as [|o ops IH]; intros s s' Hwf Hok H; simpl in H.
  - inversion H; subst. auto.
  - apply bind_inv in H as (s1 & Hstep & H). inversion Hwf as [|? ? Ho Hops]; subst.
    destruct (step_heap_ok _ _ _ Ho Hok Hstep) as (Hok1 & E1 & E2).
    destruct (IH _ _ Hops Hok1 H) as (Hok' & E1' & E2'). split; [assumption|].
    split; congruence.
Qed.


Lemma initial_state_uninitialised : uninitialised initial_state.
Proof. repeat split. Qed.


End Runs.

(** ** Block lists *)

Section BlockLists.

Implicit Types (m : gmap Z Z) (a e : Z) (l : list Z).

Lemma layout_snd a l : (layout a l).*2 = l.
Proof. revert a. induction l as [|v l IH]; intros a; simpl; [|rewrite IH]; reflexivity. Qed.

Lemma layout_lookup_ge m a l e (j : nat) b :
  chain m a l e -> layout a l !! j = Some b -> a <= b.1.
Proof.
  revert a j. induction l as [|v l IH]; intros a j Hc Hj; [discriminate|].
  destruct Hc as (_ & H8 & _ & Hc). destruct j as [|j]; simpl in Hj.
  - inversion Hj; subst. simpl. lia.
  - apply (IH _ _ Hc) in Hj. lia.
Qed.

(** Scan order is address order. *)
Lemma layout_ordered m a l e (i j : nat) b b' :
  chain m a l e -> layout a l !! i = Some b -> layout a l !! j = Some b' ->
  (i <= j)%nat -> b.1 <= b'.1.
Proof.
  revert a i j. induction l as [|v l IH]; intros a i j Hc Hi Hj Hij; [discriminate|].
  destruct Hc as (_ & H8 & _ & Hc). destruct i as [|i], j as [|j]; simpl in Hi, Hj.
  - inversion Hi; inversion Hj; subst. lia.
  - inversion Hi; subst. simpl. apply (layout_lookup_ge _ _ _ _ _ _ Hc) in Hj. lia.
  - lia.
  - apply (IH _ _ _ Hc Hi Hj). lia.
Qed.

End BlockLists.

(** ** Fuel *)

(** A loop that has come to a result with some fuel comes to the same result
    with any larger fuel: the results of the operations do not depend on the
    bound chosen in [heap_fuel]. *)

Section Fuel.

Implicit Types (m : gmap Z Z) (fuel : nat).

Lemma best_fit_scan_fuel fuel : ∀ fuel' m need current bestFit,
  best_fit_scan fuel m need current bestFit <> OutOfFuel -> (fuel <= fuel')%nat ->
  best_fit_scan fuel' m need current bestFit
  = best_fit_scan fuel m need current bestFit.
Proof.
  induction fuel as [|fuel IH]; intros fuel' m need current bestFit Hr Hle;
    [now contradiction Hr|].
  destruct fuel' as [|fuel']; [lia|]. cbn [best_fit_scan] in *.
  destruct (load m current) as [ss| |]; cbn in *; try reflexivity.
  destruct (ss =? 1); [reflexivity|].
  destruct (negb (a_bit ss) && (size_of ss >=? need)); [|apply IH; [assumption|lia]].
  destruct (if bestFit =? NULL then Ret true
            else load m bestFit ≫= λ bs, Ret (size_of ss <? size_of bs))
    as [[|]| |]; cbn in *; try reflexivity.
  - destruct (size_of ss =? need); [reflexivity|]. apply IH; [assumption|lia].
  - apply IH; [assumption|lia].
Qed.

Lemma absorb_fuel fuel : ∀ fuel' m current nextBlock,
  absorb fuel m current nextBlock <> OutOfFuel -> (fuel <= fuel')%nat ->
  absorb fuel' m current nextBlock = absorb fuel m current nextBlock.
Proof.
  induction fuel as [|fuel IH]; intros fuel' m current nextBlock Hr Hle;
    [now contradiction Hr|].
  destruct fuel' as [|fuel']; [lia|]. cbn [absorb] in *.
  destruct (load m nextBlock) as [ns| |]; cbn in *; try reflexivity.
  destruct (negb (ns =? 1) && negb (a_bit ns)); [|reflexivity].
  destruct (load m current) as [cs| |]; cbn in *; try reflexivity.
  destruct (store m current (wrap32 (cs + size_mask ns))) as [m1| |];
    cbn in *; try reflexivity.
  destruct (load m1 current) as [cs'| |]; cbn in *; try reflexivity.
  apply IH; [assumption|lia].
Qed.

Lemma coalesce_loop_fuel fuel : ∀ fuel' m current,
  coalesce_loop fuel m current <> OutOfFuel -> (fuel <= fuel')%nat ->
  coalesce_loop fuel' m current = coalesce_loop fuel m current.
Proof.
  induction fuel as [|fuel IH]; intros fuel' m current Hr Hle;
    [now contradiction Hr|].
  destruct fuel' as [|fuel']; [lia|]. cbn [coalesce_loop] in *.
  destruct (load m current) as [cs| |]; cbn in *; try reflexivity.
  destruct (cs =? 1); [reflexivity|].
  destruct (negb (a_bit cs)); cbn in *.
  - assert (Ha : absorb fuel m current (current + size_mask cs) <> OutOfFuel).
    { intros E. rewrite E in Hr. now apply Hr. }
    rewrite (absorb_fuel fuel fuel') by (assumption || lia).
    destruct (absorb fuel m current (current + size_mask cs)) as [[m1 nb]| |];
      cbn in *; try reflexivity.
    destruct (set_next_p_bit m1 nb) as [m2| |]; cbn in *; try reflexivity.
    destruct (load m2 current) as [cs'| |]; cbn in *; try reflexivity.
    apply IH; [assumption|lia].
  - destruct (load m current) as [cs'| |]; cbn in *; try reflexivity.
    apply IH; [assumption|lia].
Qed.

Lemma balloc_fuel_enough fuel size s :
  balloc size s <> OutOfFuel -> (heap_fuel s <= fuel)%nat ->
  balloc_fuel fuel size s = balloc size s.
Proof.
  unfold balloc, balloc_fuel. intros Hr Hle. destruct (size <? 1); [reflexivity|].
  rewrite (best_fit_scan_fuel (heap_fuel s) fuel); [reflexivity| |assumption].
  intros E. rewrite E in Hr. now apply Hr.
Qed.

Lemma coalesce_fuel_enough fuel s :
  coalesce s <> OutOfFuel -> (heap_fuel s <= fuel)%nat ->
  coalesce_fuel fuel s = coalesce s.
Proof.
  unfold coalesce, coalesce_fuel. intros Hr Hle.
  rewrite (coalesce_loop_fuel (heap_fuel s) fuel); [reflexivity| |assumption].
  intros E. rewrite E in Hr. now apply Hr.
Qed.

(** On a well-formed heap the fuel is not used up. *)
Lemma heap_ok_terminates s size :
  heap_ok s -> is_int size ->
  balloc size s <> OutOfFuel ∧ coalesce s <> OutOfFuel ∧ blocks s <> OutOfFuel.
Proof.
  intros Hok Hn. destruct (ok_chain _ Hok) as [l Hc]. split; [|split].
  - destruct (Z_lt_ge_dec size 1) as [Hlt|Hge].
    + unfold balloc, balloc_fuel. destruct (Z.ltb_spec size 1); [discriminate|lia].
    + rewrite (balloc_pick _ _ _ Hok Hc) by lia.
      destruct (pick (block_size size) (layout (heap_start s) l) None) as [c|];
        [|discriminate].
      unfold place, set_next_p_bit, load, store.
      repeat (cbn; match goal with
                   | |- Ret _ <> OutOfFuel => discriminate
                   | |- Fault <> OutOfFuel => discriminate
                   | |- context [match ?m !! ?a with _ => _ end] => destruct (m !! a)
                   | |- context [if ?b then _ else _] => destruct b
                   end).
  - destruct (coalesce_spec s Hok) as (m' & l' & -> & _). discriminate.
  - rewrite (heap_ok_blocks _ _ Hok Hc). discriminate.
Qed.

End Fuel.

(** ** Words marked free *)

Section FreeMarks.

Implicit Types (m : gmap Z Z).

Lemma a_bit_wrap32 z : a_bit (wrap32 z) = a_bit z.
Proof.
  rewrite !a_bit_odd. unfold wrap32.
  pose proof (Z.div_mod (z + 2 ^ 31) (2 ^ 32) ltac:(lia)) as H.
  replace ((z + 2 ^ 31) mod 2 ^ 32 - 2 ^ 31)
    with (z + 2 * (- 2 ^ 31 * ((z + 2 ^ 31) / 2 ^ 32))) by lia.
  apply Z.odd_add_mul_2.
Qed.

Lemma keeps_free_refl m : keeps_free m m.
Proof. intros x v H Ha. eauto. Qed.

Lemma keeps_free_trans m1 m2 m3 :
  keeps_free m1 m2 -> keeps_free m2 m3 -> keeps_free m1 m3.
Proof.
  intros H12 H23 x v Hv Ha. destruct (H12 _ _ Hv Ha) as (v' & Hv' & Ha').
  now apply (H23 _ _ Hv').
Qed.

Lemma keeps_free_insert m a v v' :
  m !! a = Some v -> (a_bit v = false -> a_bit v' = false) ->
  keeps_free m (<[a := v']> m).
Proof.
  intros Hv Himp x w Hw Ha. destruct (decide (a = x)) as [->|Hne].
  - rewrite lookup_insert_eq. exists v'. split; [reflexivity|].
    apply Himp. congruence.
  - rewrite lookup_insert_ne by assumption. eauto.
Qed.

Lemma keeps_free_store m a v v' m' :
  m !! a = Some v -> (a_bit v = false -> a_bit v' = false) ->
  store m a v' = Ret m' -> keeps_free m m'.
Proof.
  intros Hv Himp Hst. apply store_inv in Hst as [_ ->].
  now apply (keeps_free_insert m a v).
Qed.

Lemma set_next_p_bit_keeps_free m nb m' :
  set_next_p_bit m nb = Ret m' -> keeps_free m m'.
Proof.
  unfold set_next_p_bit. intros H. apply bind_inv in H as (ns & Hns & H).
  apply load_inv in Hns. destruct (ns =? 1).
  - inversion H. apply keeps_free_refl.
  - apply (keeps_free_store m nb ns (Z.lor ns 2) m' Hns); [|assumption].
    now rewrite a_bit_lor_2.
Qed.

Lemma absorb_keeps_free fuel : ∀ m c nb m' nb',
  absorb fuel m c nb = Ret (m', nb') -> keeps_free m m'.
Proof.
  induction fuel as [|fuel IH]; intros m c nb m' nb' H; [discriminate|].
  cbn [absorb] in H. apply bind_inv in H as (ns & Hns & H).
  destruct (negb (ns =? 1) && negb (a_bit ns)).
  2: { inversion H. apply keeps_free_refl. }
  apply bind_inv in H as (cs & Hcs & H). apply load_inv in Hcs.
  apply bind_inv in H as (m1 & Hm1 & H).
  apply bind_inv in H as (cs' & _ & H).
  apply (keeps_free_trans _ m1); [|now apply (IH _ _ _ _ _ H)].
  apply (keeps_free_store m c cs (wrap32 (cs + size_mask ns)) m1 Hcs); [|assumption].
  rewrite a_bit_wrap32, size_mask_size_of, a_bit_add by apply size_of_mod4. auto.
Qed.

Lemma coalesce_loop_keeps_free fuel : ∀ m c m',
  coalesce_loop fuel m c = Ret m' -> keeps_free m m'.
Proof.
  induction fuel as [|fuel IH]; intros m c m' H; [discriminate|].
  cbn [coalesce_loop] in H. apply bind_inv in H as (cs & Hcs & H).
  destruct (cs =? 1); [inversion H; apply keeps_free_refl|].
  apply bind_inv in H as (m2 & Hm2 & H).
  apply bind_inv in H as (cs' & _ & H).
  apply (keeps_free_trans _ m2); [|now apply (IH _ _ _ H)].
  destruct (negb (a_bit cs)).
  - apply bind_inv in Hm2 as ([m1 nb] & Hab & Hm2).
    apply (keeps_free_trans _ m1);
      [now apply (absorb_keeps_free _ _ _ _ _ _ Hab)
      |now apply (set_next_p_bit_keeps_free _ _ _ Hm2)].
  - inversion Hm2. apply keeps_free_refl.
Qed.

Lemma bfree_keeps_free q s r s' :
  bfree q s = Ret (r, s') ->
  heap_start s' = heap_start s ∧ alloc_size s' = alloc_size s
  ∧ keeps_free (heap s) (heap s').
Proof.
  intros H. destruct (decide (r = 0)) as [->|Hr].
  2: { destruct (bfree_failure _ _ _ _ H Hr) as [_ ->].
       split; [reflexivity|]. split; [reflexivity|apply keeps_free_refl]. }
  destruct (bfree_success _ _ _ H)
    as (bs & ns & m2 & _ & _ & _ & Hbs & _ & Hns & Hm2 & ->).
  cbn zeta in *. split; [reflexivity|]. split; [reflexivity|]. simpl.
  eapply keeps_free_trans.
  { apply (keeps_free_insert _ _ _ (Z.land bs (-2)) Hbs).
    intros _. apply a_bit_land_m2. }
  subst m2. destruct (ns =? 1); [apply keeps_free_refl|].
  apply (keeps_free_insert _ _ _ _ Hns). now rewrite a_bit_land_m3.
Qed.

Lemma free_marked_keeps ptr s s' :
  free_marked ptr s -> heap_start s' = heap_start s -> alloc_size s' = alloc_size s ->
  keeps_free (heap s) (heap s') -> free_marked ptr s'.
Proof.
  intros (Hn & Hal & Hr & bs & Hbs & Ha) E1 E2 Hk.
  unfold free_marked. rewrite E1, E2. repeat split; try assumption; try lia.
  destruct (Hk _ _ Hbs Ha) as (bs' & ? & ?). eauto.
Qed.

Lemma free_marked_step env ptr o s s' :
  releases_only o -> free_marked ptr s -> step env o s = Ret s' ->
  free_marked ptr s'.
Proof.
  intros Ho Hm H. destruct o as [n|n|q|]; simpl in Ho; try contradiction;
    simpl in H; apply bind_inv in H as ([r s1] & Hop & H); inversion H; subst s1.
  - destruct (bfree_keeps_free _ _ _ _ Hop) as (E1 & E2 & Hk).
    now apply (free_marked_keeps ptr s).
  - unfold coalesce, coalesce_fuel in Hop.
    apply bind_inv in Hop as (m' & Hloop & Hop). inversion Hop; subst.
    apply (free_marked_keeps ptr s); try reflexivity; [assumption|].
    now apply (coalesce_loop_keeps_free _ _ _ _ Hloop).
Qed.

Lemma free_marked_run env ptr ops : ∀ s s',
  Forall releases_only ops -> free_marked ptr s -> run env ops s = Ret s' ->
  free_marked ptr s'.
Proof.
  induction ops as [|o ops IH]; intros s s' Hops Hm H; simpl in H.
  - now inversion H; subst.
  - apply bind_inv in H as (s1 & Hstep & H). inversion Hops as [|? ? Ho Hops']; subst.
    apply (IH s1); [assumption| |assumption].
    now apply (free_marked_step env ptr o s).
Qed.

Lemma bfree_marks_free ptr s s' :
  bfree ptr s = Ret (0, s') -> free_marked ptr s'.
Proof.
  intros H. destruct (bfree_success _ _ _ H)
    as (bs & ns & m2 & Hrange & Hnull & Hal & Hbs & Ha & Hns & Hm2 & ->).
  cbn zeta in *. unfold free_marked. simpl. repeat split; try assumption; try lia.
  subst m2. destruct (ns =? 1).
  - rewrite lookup_insert_eq. eexists. split; [reflexivity|apply a_bit_land_m2].
  - destruct (decide (ptr - sizeof_blockHeader + size_mask (Z.land bs (-2))
                      = ptr - sizeof_blockHeader)) as [E|Hne].
    + rewrite E in *. rewrite lookup_insert_eq in Hns. inversion Hns; subst ns.
      rewrite lookup_insert_eq. eexists. split; [reflexivity|].
      rewrite a_bit_land_m3. apply a_bit_land_m2.
    + rewrite lookup_insert_ne by assumption. rewrite lookup_insert_eq.
      eexists. split; [reflexivity|apply a_bit_land_m2].
Qed.

Lemma bfree_free_marked ptr s : free_marked ptr s -> bfree ptr s = Ret (-1, s).
Proof.
  intros (Hn & Hal & Hr & bs & Hbs & Ha). unfold bfree.
  destruct ((ptr =? NULL) || negb (ptr mod 8 =? 0)
            || (ptr <? to_ptr (heap_start s + sizeof_blockHeader))
            || (ptr >=? to_ptr (heap_start s + alloc_size s))); [reflexivity|].
  rewrite (load_lookup _ _ _ Hbs). cbn. now rewrite Ha.
Qed.

End FreeMarks.

(** ** The concrete system *)

Section Concrete.

Lemma linux_sane : os_sane linux.
Proof.
  split; simpl.
  - unfold INT_MAX. lia.
  - reflexivity.
  - intros len p. destruct (Z.ltb_spec 0 len), (Z.ltb_spec len (2 ^ 40));
      simpl; intros Hm; inversion Hm. lia.
Qed.

Lemma returns_eq r v : returns v r = true -> r = Ret (v, state_of r).
Proof.
  destruct r as [[v' s]| |]; simpl; try discriminate.
  intros H. apply Z.eqb_eq in H. now subst.
Qed.

Lemma is_ret_eq (r : result state) : is_ret r = true -> r = Ret (result_state r).
Proof. destruct r; simpl; (reflexivity || discriminate). Qed.


Lemma heap4096_init : init_heap linux 4096 initial_state = Ret (0, heap4096).
Proof. apply returns_eq. vm_compute. reflexivity. Qed.

Lemma heap4096_ok : heap_ok heap4096.
Proof.
  destruct (init_heap_spec linux 4096 initial_state 0 heap4096 linux_sane)
    as [[H _]|(_ & H & _)].
  - unfold is_int, INT_MIN, INT_MAX. lia.
  - apply initial_state_uninitialised.
  - apply heap4096_init.
  - discriminate.
  - exact H.
Qed.

Lemma gaps_ops_wf : Forall wf_op gaps_ops.
Proof.
  unfold gaps_ops.
  repeat (constructor;
    [simpl; first [unfold is_int, INT_MIN, INT_MAX; lia
                  |vm_compute; split; congruence]|]).
  constructor.
Qed.

Lemma gaps_heap_run : run linux gaps_ops heap4096 = Ret gaps_heap.
Proof. apply is_ret_eq. vm_compute. reflexivity. Qed.

Lemma gaps_heap_ok : heap_ok gaps_heap.
Proof.
  apply (run_heap_ok linux gaps_ops heap4096 gaps_heap
           gaps_ops_wf heap4096_ok gaps_heap_run).
Qed.

End Concrete.

(** * The specified behaviour *)

Section Specification.

Lemma fresh_run_ok ops s :
  Forall wf_op ops -> run linux ops heap4096 = Ret s -> heap_ok s.
Proof.
  intros Hwf Hrun.
  apply (run_heap_ok linux ops heap4096 s Hwf heap4096_ok Hrun).
Qed.

(** C1: on an initialised heap, when some free block is at least as large
    as the required block size (the request plus the header, rounded up to
    a multiple of 8), [balloc] returns the payload address of the free
    block that is smallest among those large enough; among several of that
    smallest size it is the first in scan order, which is the one at the
    lowest address. *)
Theorem balloc_selects_best_fit s n bl :
  heap_ok s -> 1 <= n <= INT_MAX -> blocks s = Ret bl ->
  (∃ (j : nat) b, bl !! j = Some b
                  ∧ eligible (round_up8 (n + sizeof_blockHeader)) b) ->
  ∃ b s',
    best_fit (round_up8 (n + sizeof_blockHeader)) bl (Some b)
    ∧ (∀ b', b' ∈ bl -> eligible (round_up8 (n + sizeof_blockHeader)) b' ->
             size_of b'.2 = size_of b.2 -> b.1 <= b'.1)
    ∧ balloc n s = Ret (b.1 + sizeof_blockHeader, s').
Proof.
  intros Hok Hn Hbl (j & b0 & Hj & Hel0). unfold INT_MAX in Hn.
  destruct (ok_chain _ Hok) as [l Hc].
  rewrite (heap_ok_blocks _ _ Hok Hc) in Hbl. inversion Hbl; subst bl.
  pose proof (ok_size _ Hok) as Hsz. pose proof (ok_base _ Hok) as Hbase.
  assert (Hfits : ∀ (i : nat) b, layout (heap_start s) l !! i = Some b ->
                                 size_of b.2 <= 2 ^ 31 - 16).
  { intros i b Hi.
    destruct (chain_lookup _ _ _ _ _ _ Hc Hi) as (l1 & l2 & _ & _ & H1 & _ & _ & _ & H2).
    apply chain_le in H1. apply chain_le in H2. lia. }
  destruct (round_up8_least (n + sizeof_blockHeader)) as (_ & Hup & _).
  unfold sizeof_blockHeader in *.
  assert (Hsmall : n <= 2 ^ 31 - 12).
  { destruct Hel0 as [_ Hle0]. pose proof (Hfits _ _ Hj).
    unfold round_up8 in *. pose proof (Z.div_mod (n + 4 + 7) 8 ltac:(lia)).
    pose proof (Z.mod_pos_bound (n + 4 + 7) 8 ltac:(lia)). lia. }
  destruct (block_size_in_range n) as (Hbs & Hbnd & Hb8); [lia|].
  unfold sizeof_blockHeader in Hbs.
  pose proof (pick_spec (block_size n) (layout (heap_start s) l)) as Hp.
  rewrite (balloc_pick _ _ _ Hok Hc) by lia.
  destruct (pick (block_size n) (layout (heap_start s) l) None) as [c|].
  2: { exfalso. apply (Hp _ _ Hj). now rewrite Hbs. }
  assert (Hbest := Hp). destruct Hp as (i & Hi & [Hfree Hfit] & Hmin).
  destruct (chain_lookup _ _ _ _ _ _ Hc Hi)
    as (l1 & l2 & -> & _ & H1 & Hv & Hs8 & Hm8 & H2).
  destruct (place_chain (heap s) (heap_start s) (heap_start s + alloc_size s)
              l1 c.2 l2 c.1 (block_size n))
    as (m' & hd & Hpl & _); try assumption; try lia.
  { apply (ok_end _ Hok). }
  { now apply heap_ok_mapped_from with (l1 := l1). }
  { pose proof (Hfits _ _ Hi). unfold INT_MAX. lia. }
  exists c, (set_heap s m'). rewrite Hpl. cbn. rewrite <- Hbs.
  split; [assumption|]. split; [|reflexivity].
  intros b' Hin Hel' Heq. apply list_elem_of_lookup in Hin as [k Hk].
  destruct (Hmin _ _ Hk Hel') as [_ Hik].
  apply (layout_ordered _ _ _ _ _ _ _ _ Hc Hi Hk). now apply Hik.
Qed.

Lemma balloc_selects_best_fit_witness :
  ∃ b s',
    best_fit (round_up8 (20 + sizeof_blockHeader))
      [(payload_at 0 - 4, 50); (payload_at 48 - 4, 17); (payload_at 64 - 4, 34);
       (payload_at 96 - 4, 17); (payload_at 112 - 4, 34); (payload_at 144 - 4, 17);
       (payload_at 160 - 4, 3930)] (Some b)
    ∧ (∀ b', b' ∈ [(payload_at 0 - 4, 50); (payload_at 48 - 4, 17);
                   (payload_at 64 - 4, 34); (payload_at 96 - 4, 17);
                   (payload_at 112 - 4, 34); (payload_at 144 - 4, 17);
                   (payload_at 160 - 4, 3930)] ->
             eligible (round_up8 (20 + sizeof_blockHeader)) b' ->
             size_of b'.2 = size_of b.2 -> b.1 <= b'.1)
    ∧ balloc 20 gaps_heap = Ret (b.1 + sizeof_blockHeader, s').
Proof.
  apply (balloc_selects_best_fit gaps_heap 20 _ gaps_heap_ok).
  - unfold INT_MAX. lia.
  - vm_compute. reflexivity.
  - exists 0%nat, (payload_at 0 - 4, 50). split; [reflexivity|].
    split; [reflexivity|]. vm_compute. discriminate.
Defined.

(** C2 (defect of the code): the footer of a free block is written by
    [init_heap] only.  After [balloc(1)] splits the initial block, the free
    remainder has size 4080 and its footer still holds 4088; after
    [bfree] of a 16-byte block its footer word holds 0; after [coalesce]
    merges two 16-byte blocks the footer word of the 32-byte block holds
    0. *)
Theorem footers_not_written :
  (balloc 1 heap4096 = Ret (payload_at 0, one_alloc)
   ∧ blocks one_alloc
     = Ret [(heap_start heap4096, 11); (heap_start heap4096 + 8, 4082)]
   ∧ is_free 4082 = true ∧ size_of 4082 = 4080
   ∧ heap one_alloc !! footer_addr (heap_start heap4096 + 8) 4082 = Some 4088)
  ∧ (bfree (payload_at 0) (state_of (balloc 8 heap4096)) = Ret (0, alloc_free)
     ∧ blocks alloc_free
       = Ret [(heap_start heap4096, 18); (heap_start heap4096 + 16, 4072)]
     ∧ is_free 18 = true ∧ size_of 18 = 16
     ∧ heap alloc_free !! footer_addr (heap_start heap4096) 18 = Some 0)
  ∧ (coalesce two_freed = Ret (0, state_of (coalesce two_freed))
     ∧ blocks (state_of (coalesce two_freed))
       = Ret [(heap_start heap4096, 34); (heap_start heap4096 + 32, 19);
              (heap_start heap4096 + 48, 4042)]
     ∧ is_free 34 = true ∧ size_of 34 = 32
     ∧ heap (state_of (coalesce two_freed)) !! footer_addr (heap_start heap4096) 34
       = Some 0).
Proof.
  repeat match goal with |- _ ∧ _ => split end;
    try (apply returns_eq); vm_compute; reflexivity.
Qed.

(** C3 (defect of the code): in the split path of [balloc] the header of
    the block behind the new free block gets its p-bit set, not cleared.
    With a free 104-byte block in front of an allocated block whose header
    is 17, [balloc(8)] splits off 16 bytes, leaves a free block of 88 bytes
    (header 90), and turns the header 17 behind it into 19. *)
Theorem split_sets_p_bit_of_next :
  blocks hole_heap
  = Ret [(heap_start heap4096, 106); (heap_start heap4096 + 104, 17);
         (heap_start heap4096 + 120, 3970)]
  ∧ balloc 8 hole_heap = Ret (payload_at 0, state_of (balloc 8 hole_heap))
  ∧ blocks (state_of (balloc 8 hole_heap))
    = Ret [(heap_start heap4096, 19); (heap_start heap4096 + 16, 90);
           (heap_start heap4096 + 104, 19); (heap_start heap4096 + 120, 3970)]
  ∧ is_free 90 = true ∧ p_bit 17 = false ∧ p_bit 19 = true.
Proof.
  repeat match goal with |- _ ∧ _ => split end;
    try (apply returns_eq); vm_compute; reflexivity.
Qed.

(** C4 (defect of the code): after merging a run of free blocks
    [coalesce] sets the p-bit of the block behind the run, it does not clear
    it.  With two free 16-byte blocks in front of an allocated block whose
    header is 17, [coalesce] leaves a free block of 32 bytes (header 34)
    and turns the header 17 behind it into 19. *)
Theorem coalesce_sets_p_bit_of_next :
  blocks two_freed
  = Ret [(heap_start heap4096, 18); (heap_start heap4096 + 16, 16);
         (heap_start heap4096 + 32, 17); (heap_start heap4096 + 48, 4042)]
  ∧ coalesce two_freed = Ret (0, state_of (coalesce two_freed))
  ∧ blocks (state_of (coalesce two_freed))
    = Ret [(heap_start heap4096, 34); (heap_start heap4096 + 32, 19);
           (heap_start heap4096 + 48, 4042)]
  ∧ is_free 34 = true ∧ p_bit 17 = false ∧ p_bit 19 = true.
Proof.
  repeat match goal with |- _ ∧ _ => split end;
    try (apply returns_eq); vm_compute; reflexivity.
Qed.

Lemma two_freed_ok : heap_ok two_freed.
Proof.
  apply (fresh_run_ok [Alloc 8; Alloc 8; Alloc 8;
                       Free (payload_at 0); Free (payload_at 16)]).
  - repeat (constructor;
      [simpl; first [unfold is_int, INT_MIN, INT_MAX; lia
                    |vm_compute; split; congruence]|]).
    constructor.
  - apply is_ret_eq. vm_compute. reflexivity.
Qed.

(** C6: once a [bfree] of a pointer has succeeded, and whatever calls of
    [bfree] and [coalesce] follow it, a further [bfree] of that pointer
    returns -1 and leaves the state as it is; every [bfree] that does not
    return 0 returns -1 with the state it was given; a null or misaligned
    pointer, a pointer below the first payload address or not below the end
    of the region, these two bounds taken as the 64-bit addresses the code
    computes, and a pointer whose header is marked free are refused in that
    way; on an initialised heap the two bounds are [heap_start + 4] and
    [heap_start + alloc_size]. *)
Theorem bfree_failure_leaves_state env ptr s :
  (∀ s1 ops s2,
     bfree ptr s = Ret (0, s1) -> Forall releases_only ops ->
     run env ops s1 = Ret s2 -> bfree ptr s2 = Ret (-1, s2))
  ∧ (∀ r s', bfree ptr s = Ret (r, s') -> r <> 0 -> r = -1 ∧ s' = s)
  ∧ (ptr = NULL ∨ ptr mod 8 <> 0
     ∨ ptr < to_ptr (heap_start s + sizeof_blockHeader)
     ∨ to_ptr (heap_start s + alloc_size s) <= ptr -> bfree ptr s = Ret (-1, s))
  ∧ (heap_ok s ->
     ptr < heap_start s + sizeof_blockHeader ∨ heap_start s + alloc_size s <= ptr ->
     bfree ptr s = Ret (-1, s))
  ∧ (∀ bs, heap s !! (ptr - sizeof_blockHeader) = Some bs -> a_bit bs = false ->
           bfree ptr s = Ret (-1, s)).
Proof.
  assert (Hout : ptr = NULL ∨ ptr mod 8 <> 0
                 ∨ ptr < to_ptr (heap_start s + sizeof_blockHeader)
                 ∨ to_ptr (heap_start s + alloc_size s) <= ptr ->
                 bfree ptr s = Ret (-1, s)).
  { intros Hbad. unfold bfree.
    destruct (Z.eqb_spec ptr NULL) as [|Hnull]; [reflexivity|].
    destruct (Z.eqb_spec (ptr mod 8) 0) as [Hal|]; [|reflexivity].
    destruct (Z.ltb_spec ptr (to_ptr (heap_start s + sizeof_blockHeader)))
      as [|Hlo]; [reflexivity|].
    destruct (Z.geb_spec ptr (to_ptr (heap_start s + alloc_size s)))
      as [|Hhi]; [reflexivity|].
    exfalso. destruct Hbad as [?|[?|[?|?]]]; (contradiction || lia). }
  split; [|split; [|split; [|split]]].
  - intros s1 ops s2 H Hops Hrun. apply bfree_free_marked.
    apply (free_marked_run env ptr ops s1 s2 Hops); [|assumption].
    now apply (bfree_marks_free ptr s).
  - intros r s' H Hr. now apply (bfree_failure ptr s).
  - exact Hout.
  - intros Hok Hbad. apply Hout. destruct (heap_ok_bounds _ Hok) as [-> ->]. tauto.
  - intros bs Hbs Ha. unfold bfree.
    destruct ((ptr =? NULL) || negb (ptr mod 8 =? 0)
              || (ptr <? to_ptr (heap_start s + sizeof_blockHeader))
              || (ptr >=? to_ptr (heap_start s + alloc_size s))); [reflexivity|].
    rewrite (load_lookup _ _ _ Hbs). cbn. now rewrite Ha.
Qed.

Lemma bfree_failure_leaves_state_witness :
  bfree (payload_at 0) (state_of (balloc 8 heap4096)) = Ret (0, alloc_free)
  ∧ bfree (payload_at 0) alloc_free = Ret (-1, alloc_free)
  ∧ bfree (payload_at 0) alloc_free_coalesced = Ret (-1, alloc_free_coalesced).
Proof.
  assert (H : bfree (payload_at 0) (state_of (balloc 8 heap4096)) = Ret (0, alloc_free)).
  { apply returns_eq. vm_compute. reflexivity. }
  split; [exact H|]. split.
  - apply (proj1 (bfree_failure_leaves_state linux (payload_at 0)
                    (state_of (balloc 8 heap4096))) alloc_free [] alloc_free H).
    + constructor.
    + reflexivity.
  - apply (proj1 (bfree_failure_leaves_state linux (payload_at 0)
                    (state_of (balloc 8 heap4096)))
             alloc_free [Coalesce] alloc_free_coalesced H).
    + repeat constructor.
    + apply is_ret_eq. vm_compute. reflexivity.
Defined.

(** C7 (defect of the code): for the request [INT_MAX] the rounded size
    2147483656 does not fit an [int]; the block size [balloc] computes is
    -2147483640, below the request, every free block passes the size test,
    and the split writes to an address below the region. *)
Theorem block_size_overflows_at_int_max :
  round_up8 (INT_MAX + sizeof_blockHeader) = 2147483656
  ∧ block_size INT_MAX = -2147483640
  ∧ block_size INT_MAX < INT_MAX + sizeof_blockHeader
  ∧ balloc INT_MAX heap4096 = Fault.
Proof.
  repeat match goal with |- _ ∧ _ => split end; vm_compute; reflexivity.
Qed.




(** C9 (as amended): [bfree] checks the pointer for null, alignment and
    range and the word in front of it for the allocated bit, nothing else.
    When that word has its low bit set and the address it decodes for the
    next header is mapped, [bfree] returns 0 and changes the heap: the word
    in front of the pointer loses its low bit.  When that address is not
    mapped, [bfree] reads it all the same and does not return. *)
Theorem bfree_accepts_marked_word s ptr bs :
  ptr <> NULL -> ptr mod 8 = 0 ->
  to_ptr (heap_start s + sizeof_blockHeader) <= ptr
    < to_ptr (heap_start s + alloc_size s) ->
  heap s !! (ptr - sizeof_blockHeader) = Some bs -> a_bit bs = true ->
  (is_Some (heap s !! (ptr - sizeof_blockHeader + size_mask (Z.land bs (-2)))) ->
   ∃ s', bfree ptr s = Ret (0, s') ∧ heap s' <> heap s
         ∧ ∃ bs', heap s' !! (ptr - sizeof_blockHeader) = Some bs'
                  ∧ a_bit bs' = false)
  ∧ (heap s !! (ptr - sizeof_blockHeader + size_mask (Z.land bs (-2))) = None ->
     bfree ptr s = Fault).
Proof.
  intros Hnull Hal Hrange Hbs Ha. unfold bfree.
  destruct (Z.eqb_spec ptr NULL) as [|_]; [contradiction|].
  destruct (Z.eqb_spec (ptr mod 8) 0) as [_|]; [|contradiction].
  destruct (Z.ltb_spec ptr (to_ptr (heap_start s + sizeof_blockHeader)))
    as [|_]; [lia|].
  destruct (Z.geb_spec ptr (to_ptr (heap_start s + alloc_size s)))
    as [|_]; [lia|].
  cbn. rewrite (load_lookup _ _ _ Hbs). cbn. rewrite Ha. cbn.
  rewrite store_mapped by eauto. cbn.
  rewrite (load_lookup _ _ (Z.land bs (-2))) by apply lookup_insert_eq. cbn.
  set (block := ptr - sizeof_blockHeader) in *.
  set (m1 := <[block := Z.land bs (-2)]> (heap s)).
  set (nb := block + size_mask (Z.land bs (-2))) in *.
  split.
  - intros Hnext.
    assert (Hnb : is_Some (m1 !! nb)) by (apply insert_mapped; eauto).
    destruct Hnb as [ns Hns]. rewrite (load_lookup _ _ _ Hns). cbn.
    assert (Hres : ∃ m2, (if ns =? 1 then Ret m1 else store m1 nb (Z.land ns (-3))) = Ret m2
                         ∧ ∃ bs', m2 !! block = Some bs' ∧ a_bit bs' = false).
    { destruct (ns =? 1).
      - exists m1. split; [reflexivity|]. unfold m1. rewrite lookup_insert_eq.
        eexists. split; [reflexivity|apply a_bit_land_m2].
      - rewrite store_mapped by eauto. eexists. split; [reflexivity|].
        destruct (decide (nb = block)) as [E|Hne].
        + rewrite E in *. unfold m1 in Hns. rewrite lookup_insert_eq in Hns.
          inversion Hns; subst ns. rewrite lookup_insert_eq. eexists.
          split; [reflexivity|]. rewrite a_bit_land_m3. apply a_bit_land_m2.
        + rewrite lookup_insert_ne by assumption. unfold m1. rewrite lookup_insert_eq.
          eexists. split; [reflexivity|apply a_bit_land_m2]. }
    destruct Hres as (m2 & -> & bs' & Hbs' & Ha'). cbn.
    exists (set_heap s m2). split; [reflexivity|]. simpl. split; [|eauto].
    intros E. rewrite E in Hbs'. congruence.
  - intros Hnone.
    assert (Hne : block <> nb) by (intros E; rewrite <- E in Hnone; congruence).
    assert (Hnb : m1 !! nb = None)
      by (unfold m1; rewrite lookup_insert_ne by assumption; assumption).
    now rewrite (load_unmapped _ _ Hnb).
Qed.

Lemma bfree_accepts_marked_word_witness :
  (∃ s', bfree (payload_at 0 + 8) (scribbled 17) = Ret (0, s')
         ∧ heap s' <> heap (scribbled 17)
         ∧ ∃ bs', heap s' !! (payload_at 0 + 8 - sizeof_blockHeader) = Some bs'
                  ∧ a_bit bs' = false)
  ∧ bfree (payload_at 0 + 8) (scribbled 2147483641) = Fault.
Proof.
  split.
  - apply (proj1 (bfree_accepts_marked_word (scribbled 17) (payload_at 0 + 8) 17
                    ltac:(vm_compute; discriminate) ltac:(vm_compute; reflexivity)
                    ltac:(vm_compute; split; congruence)
                    ltac:(vm_compute; reflexivity) eq_refl)).
    vm_compute. eauto.
  - apply (proj2 (bfree_accepts_marked_word (scribbled 2147483641) (payload_at 0 + 8)
                    2147483641
                    ltac:(vm_compute; discriminate) ltac:(vm_compute; reflexivity)
                    ltac:(vm_compute; split; congruence)
                    ltac:(vm_compute; reflexivity) eq_refl)).
    vm_compute. reflexivity.
Defined.

(** C9, as stated, fails when the word in front of the pointer decodes a
    size that leads out of the region: the client has stored 2147483641 in
    its payload, the pointer behind that word passes every check, and
    [bfree] reads the next header at an unmapped address. *)
Lemma bfree_wild_size_faults :
  payload_at 0 + 8 <> NULL ∧ (payload_at 0 + 8) mod 8 = 0
  ∧ to_ptr (heap_start (scribbled 2147483641) + sizeof_blockHeader)
    <= payload_at 0 + 8
  ∧ payload_at 0 + 8
    < to_ptr (heap_start (scribbled 2147483641) + alloc_size (scribbled 2147483641))
  ∧ heap (scribbled 2147483641) !! (payload_at 0 + 8 - sizeof_blockHeader)
    = Some 2147483641
  ∧ a_bit 2147483641 = true
  ∧ balloc 100 heap4096 = Ret (payload_at 0, state_of (balloc 100 heap4096))
  ∧ bfree (payload_at 0 + 8) (scribbled 2147483641) = Fault.
Proof.
  repeat match goal with |- _ ∧ _ => split end;
    try (apply returns_eq); vm_compute; congruence.
Qed.

(** C10 (as amended): in a process in which no [init_heap] has succeeded,
    [heap_start] is null and nothing is mapped there; [coalesce], and
    [balloc] with a size of at least 1, start their scan with a load through
    [heap_start] and fault, they do not return an error value; [balloc]
    with a size below 1 returns the null pointer before the scan. *)
Theorem scans_read_null_before_init s :
  uninitialised s ->
  heap_start s = NULL
  ∧ (∀ n, 1 <= n -> balloc n s = Fault)
  ∧ (∀ n, n < 1 -> balloc n s = Ret (NULL, s))
  ∧ coalesce s = Fault.
Proof.
  intros (_ & Hs & Hm). split; [assumption|].
  assert (Hnull : heap s !! NULL = None) by (rewrite Hm; apply lookup_empty).
  split; [|split].
  - intros n Hn. now apply balloc_null_heap.
  - intros n Hn. unfold balloc, balloc_fuel.
    destruct (Z.ltb_spec n 1); [reflexivity|lia].
  - now apply coalesce_null_heap.
Qed.

Lemma scans_read_null_before_init_witness :
  heap_start initial_state = NULL
  ∧ (∀ n, 1 <= n -> balloc n initial_state = Fault)
  ∧ (∀ n, n < 1 -> balloc n initial_state = Ret (NULL, initial_state))
  ∧ coalesce initial_state = Fault.
Proof.
  apply (scans_read_null_before_init initial_state).
  apply initial_state_uninitialised.
Defined.

(** C10, as stated, fails for [balloc] with a size below 1: before any
    [init_heap], [balloc(0)] returns the null pointer, which is its error
    value, and reads nothing. *)
Lemma balloc_zero_before_init :
  heap_start initial_state = NULL
  ∧ balloc 0 initial_state = Ret (NULL, initial_state).
Proof. split; reflexivity. Qed.

End Specification.

(** * Further properties of the operations *)

(** ** Block lists of a well-formed heap *)

Section BlockViews.

Implicit Types (m : gmap Z Z) (a e : Z) (l : list Z) (bl : list (Z * Z)).

Lemma chain_unique m a e l : ∀ l', chain m a l e -> chain m a l' e -> l = l'.
Proof.
  revert a. induction l as [|v l IH]; intros a l' H H'.
  - simpl in H. subst a. destruct l' as [|v' l']; [reflexivity|].
    destruct H' as (_ & H8 & _ & Hc). apply chain_le in Hc. lia.
  - destruct H as (Hv & H8 & Hm & Hc). destruct l' as [|v' l'].
    + simpl in H'. subst a. apply chain_le in Hc. lia.
    + destruct H' as (Hv' & _ & _ & Hc'). rewrite Hv in Hv'. inversion Hv'; subst v'.
      f_equal. now apply (IH (a + size_of v)).
Qed.

Lemma heap_ok_blocks_chain s bl :
  heap_ok s -> blocks s = Ret bl ->
  ∃ l, chain (heap s) (heap_start s) l (heap_start s + alloc_size s)
       ∧ bl = layout (heap_start s) l.
Proof.
  intros Hok Hbl. destruct (ok_chain _ Hok) as [l Hc]. exists l. split; [assumption|].
  rewrite (heap_ok_blocks _ _ Hok Hc) in Hbl. now inversion Hbl.
Qed.

Lemma layout_cons_app a l1 v l2 :
  layout a (l1 ++ v :: l2)
  = layout a l1 ++ (a + total_size (layout a l1), v)
      :: layout (a + total_size (layout a l1) + size_of v) l2.
Proof. now rewrite layout_app. Qed.

Lemma chain_prefix_end m a l1 b : chain m a l1 b -> a + total_size (layout a l1) = b.
Proof. intros H. rewrite (chain_total _ _ _ _ H). lia. Qed.

Lemma total_size_app bl1 bl2 : total_size (bl1 ++ bl2) = total_size bl1 + total_size bl2.
Proof.
  unfold total_size. induction bl1 as [|b bl1 IH]; simpl; [reflexivity|].
  rewrite IH. lia.
Qed.

Lemma shape_app bl1 bl2 : shape (bl1 ++ bl2) = shape bl1 ++ shape bl2.
Proof. unfold shape. apply map_app. Qed.

Lemma extents_app bl1 bl2 : extents (bl1 ++ bl2) = extents bl1 ++ extents bl2.
Proof. unfold extents. apply map_app. Qed.

Lemma shape_length bl : length (shape bl) = length bl.
Proof. unfold shape. apply length_map. Qed.

(** The layout of a list of headers depends on their sizes only. *)
Lemma extents_layout a l : ∀ l',
  size_of <$> l' = size_of <$> l -> extents (layout a l') = extents (layout a l).
Proof.
  revert a. induction l as [|v l IH]; intros a l' H; destruct l' as [|v' l'];
    try discriminate; [reflexivity|].
  simpl in H. inversion H as [[Hv Hl]]. simpl. rewrite Hv. f_equal.
  now apply IH.
Qed.

Lemma shape_layout a l : ∀ l',
  size_of <$> l' = size_of <$> l -> a_bit <$> l' = a_bit <$> l ->
  shape (layout a l') = shape (layout a l).
Proof.
  revert a. induction l as [|v l IH]; intros a l' H Hb; destruct l' as [|v' l'];
    try discriminate; [reflexivity|].
  simpl in H, Hb. inversion H as [[Hv Hl]]. inversion Hb as [[Hbv Hbl]].
  simpl. rewrite Hv, Hbv. f_equal. now apply IH.
Qed.

Lemma mark_next_sizes l : size_of <$> mark_next l = size_of <$> l.
Proof. destruct l as [|w r]; [reflexivity|]. simpl. now rewrite size_of_lor_2. Qed.

Lemma mark_next_a_bits l : a_bit <$> mark_next l = a_bit <$> l.
Proof. destruct l as [|w r]; [reflexivity|]. simpl. now rewrite a_bit_lor_2. Qed.

Lemma unmark_next_sizes l : size_of <$> unmark_next l = size_of <$> l.
Proof. destruct l as [|w r]; [reflexivity|]. simpl. now rewrite size_of_land_m3. Qed.

Lemma unmark_next_a_bits l : a_bit <$> unmark_next l = a_bit <$> l.
Proof. destruct l as [|w r]; [reflexivity|]. simpl. now rewrite a_bit_land_m3. Qed.

Lemma layout_total_sizes a l : ∀ l',
  size_of <$> l' = size_of <$> l -> total_size (layout a l') = total_size (layout a l).
Proof.
  revert a. induction l as [|v l IH]; intros a l' H; destruct l' as [|v' l'];
    try discriminate; [reflexivity|].
  simpl in H. inversion H as [[Hv Hl]]. unfold total_size in *. simpl.
  rewrite Hv. f_equal. now apply IH.
Qed.

(** Blocks of a chain lie one behind the other. *)
Lemma layout_disjoint m a l e (i j : nat) b b' :
  chain m a l e -> layout a l !! i = Some b -> layout a l !! j = Some b' ->
  (i < j)%nat -> b.1 + size_of b.2 <= b'.1.
Proof.
  revert a i j. induction l as [|v l IH]; intros a i j Hc Hi Hj Hij; [discriminate|].
  destruct Hc as (_ & H8 & _ & Hc). destruct j as [|j]; [lia|].
  simpl in Hj. destruct i as [|i]; simpl in Hi.
  - inversion Hi; subst. simpl. now apply (layout_lookup_ge _ _ _ _ _ _ Hc Hj).
  - apply (IH _ _ _ Hc Hi Hj). lia.
Qed.

Lemma layout_lookup_bounds m a l e (i : nat) b :
  chain m a l e -> layout a l !! i = Some b ->
  a <= b.1 ∧ 8 <= size_of b.2 ∧ size_of b.2 mod 8 = 0 ∧ b.1 + size_of b.2 <= e
  ∧ (b.1 - a) mod 8 = 0 ∧ m !! b.1 = Some b.2.
Proof.
  intros Hc Hi.
  destruct (chain_lookup _ _ _ _ _ _ Hc Hi) as (l1 & l2 & _ & _ & H1 & Hv & H8 & Hm & H2).
  pose proof (chain_le _ _ _ _ H1). pose proof (chain_le _ _ _ _ H2).
  pose proof (chain_aligned _ _ _ _ H1). repeat split; (assumption || lia).
Qed.

End BlockViews.

(** ** balloc: what a call changes *)

Section BallocEffect.

Implicit Types (l : list Z) (bl : list (Z * Z)).

(** A successful [balloc] in terms of the chain: the block chosen, and the
    headers that replace it. *)
Lemma balloc_detail s l n p s' :
  heap_ok s ->
  chain (heap s) (heap_start s) l (heap_start s + alloc_size s) ->
  1 <= n <= 2 ^ 31 - 12 -> balloc n s = Ret (p, s') -> p <> NULL ->
  ∃ l1 v l2 hd,
    l = l1 ++ v :: l2
    ∧ chain (heap s) (heap_start s) l1 (p - 4)
    ∧ a_bit v = false ∧ block_size n <= size_of v
    ∧ 8 <= size_of v ∧ size_of v mod 8 = 0
    ∧ p - 4 + size_of v <= heap_start s + alloc_size s
    ∧ heap_start s' = heap_start s ∧ alloc_size s' = alloc_size s ∧ heap_ok s'
    ∧ chain (heap s') (heap_start s) (l1 ++ hd ++ mark_next l2)
        (heap_start s + alloc_size s)
    ∧ (hd = [Z.lor v 1] ∧ size_of v - block_size n < 16
       ∨ hd = [Z.lor (Z.lor (block_size n) (Z.land v 3)) 1;
               Z.lor (size_of v - block_size n) 2]
         ∧ 16 <= size_of v - block_size n).
Proof.
  intros Hok Hc Hn Hb Hp.
  rewrite (balloc_pick _ _ _ Hok Hc) in Hb by lia.
  pose proof (pick_spec (block_size n) (layout (heap_start s) l)) as Hpk.
  destruct (pick (block_size n) (layout (heap_start s) l) None) as [c|].
  2: { inversion Hb; subst. contradiction. }
  destruct Hpk as (i & Hi & [Hfree Hfit] & _).
  destruct (chain_lookup _ _ _ _ _ _ Hc Hi)
    as (l1 & l2 & -> & _ & H1 & Hv & Hs & Hm & H2).
  pose proof (chain_le _ _ _ _ H1). pose proof (chain_le _ _ _ _ H2).
  pose proof (ok_size _ Hok). pose proof (ok_base _ Hok).
  destruct (block_size_in_range n) as (_ & Hbs & Hb8); [lia|].
  destruct (place_chain (heap s) (heap_start s) (heap_start s + alloc_size s)
              l1 c.2 l2 c.1 (block_size n))
    as (m' & hd & Hpl & Hc' & He' & Hd & Hhd);
    try assumption; try (unfold INT_MAX; lia).
  { apply (ok_end _ Hok). }
  { now apply heap_ok_mapped_from with (l1 := l1). }
  rewrite Hpl in Hb. cbn in Hb. inversion Hb; subst p s'.
  unfold sizeof_blockHeader. replace (c.1 + 4 - 4) with c.1 by lia.
  exists l1, c.2, l2, hd. simpl.
  unfold is_free in Hfree. apply negb_true_iff in Hfree.
  split_and!; try assumption; try lia; try reflexivity.
  eapply heap_ok_set_heap; eauto.
Qed.

Lemma in_shape_inv bl (x : Z * Z * bool) :
  x ∈ shape bl -> ∃ b, b ∈ bl ∧ x = (b.1, size_of b.2, a_bit b.2).
Proof.
  unfold shape. intros H. apply list_elem_of_fmap in H as (b & -> & Hb). eauto.
Qed.

End BallocEffect.

Section BallocProperties.

Implicit Types (l : list Z) (bl : list (Z * Z)).

Lemma mult8_gap x y : x mod 8 = 0 -> y mod 8 = 0 -> 0 <= x - y < 16 -> x = y ∨ x = y + 8.
Proof.
  intros Hx Hy H. pose proof (Z.div_mod x 8 ltac:(lia)).
  pose proof (Z.div_mod y 8 ltac:(lia)). lia.
Qed.

Lemma round_up8_request n : n + sizeof_blockHeader <= round_up8 (n + sizeof_blockHeader).
Proof. now destruct (round_up8_least (n + sizeof_blockHeader)) as (_ & H & _). Qed.

(** X1: a successful [balloc] returns the payload address of a block of the
    new heap that is marked allocated, whose size is the request plus the
    header rounded up to a multiple of 8, or 8 bytes more, and whose payload
    of [n] bytes lies inside the block and inside the region. *)
Theorem balloc_block_holds_request s n p s' :
  heap_ok s -> 1 <= n <= 2 ^ 31 - 12 -> balloc n s = Ret (p, s') -> p <> NULL ->
  ∃ bl' v,
    blocks s' = Ret bl' ∧ (p - sizeof_blockHeader, v) ∈ bl' ∧ a_bit v = true
    ∧ (size_of v = round_up8 (n + sizeof_blockHeader)
       ∨ size_of v = round_up8 (n + sizeof_blockHeader) + 8)
    ∧ heap_start s + sizeof_blockHeader <= p
    ∧ p + n <= p - sizeof_blockHeader + size_of v <= heap_start s + alloc_size s.
Proof.
  intros Hok Hn Hb Hp. destruct (ok_chain _ Hok) as [l Hc].
  destruct (balloc_detail _ _ _ _ _ Hok Hc Hn Hb Hp)
    as (l1 & v & l2 & hd & -> & H1 & Ha & Hfit & H8 & Hm8 & Hend & E1 & E2 & Hok' & Hc' & Hhd).
  destruct (block_size_in_range n) as (Hbs & Hbnd & Hb8); [lia|].
  pose proof (round_up8_request n) as Hreq. rewrite <- Hbs in *.
  unfold sizeof_blockHeader in *.
  pose proof (chain_le _ _ _ _ H1) as Hle.
  pose proof (chain_prefix_end _ _ _ _ H1) as Hpre.
  assert (Hbl : blocks s' = Ret (layout (heap_start s) (l1 ++ hd ++ mark_next l2))).
  { rewrite <- E1. apply heap_ok_blocks; [assumption|]. now rewrite E1, E2. }
  rewrite layout_app, Hpre in Hbl.
  destruct Hhd as [[-> Hsmall]|[-> Hsplit]]; simpl in Hbl.
  - eexists _, (Z.lor v 1). split; [exact Hbl|].
    split; [apply elem_of_app; right; left|].
    rewrite a_bit_lor_1, size_of_lor_1. split; [reflexivity|].
    split; [|lia]. apply mult8_gap; (assumption || lia).
  - eexists _, (Z.lor (Z.lor (block_size n) (Z.land v 3)) 1).
    split; [exact Hbl|]. split; [apply elem_of_app; right; left|].
    rewrite a_bit_lor_1, size_of_split_header by now apply mod4_of_mod8.
    split; [reflexivity|]. split; [now left|]. lia.
Qed.


(** X3: [balloc] returns the null pointer exactly when no free block is as
    large as the rounded request, and then the state is the one it was
    given. *)
Theorem balloc_null_iff_no_fit s n bl :
  heap_ok s -> 1 <= n <= 2 ^ 31 - 12 -> blocks s = Ret bl ->
  ((∀ b, b ∈ bl -> ¬ eligible (round_up8 (n + sizeof_blockHeader)) b)
   ↔ balloc n s = Ret (NULL, s))
  ∧ (∀ s', balloc n s = Ret (NULL, s') -> s' = s).
Proof.
  intros Hok Hn Hbl. destruct (heap_ok_blocks_chain _ _ Hok Hbl) as (l & Hc & ->).
  destruct (block_size_in_range n) as (Hbs & _); [lia|]. rewrite <- Hbs.
  rewrite (balloc_pick _ _ _ Hok Hc) by lia.
  pose proof (pick_spec (block_size n) (layout (heap_start s) l)) as Hpk.
  pose proof (ok_base _ Hok) as Hbase.
  destruct (pick (block_size n) (layout (heap_start s) l) None) as [c|].
  - destruct Hpk as (i & Hi & Hel & _).
    assert (Hc1 : heap_start s <= c.1).
    { now apply (layout_lookup_ge _ _ _ _ _ _ Hc Hi). }
    assert (Hne : ∀ s', (place (heap s) (block_size n) c.1
                          ≫= λ m', Ret (c.1 + sizeof_blockHeader, set_heap s m'))
                        = Ret (NULL, s') -> False).
    { intros s' H. apply bind_inv in H as (m' & _ & H). inversion H.
      unfold NULL, sizeof_blockHeader in *. lia. }
    split; [split|].
    + intros Hno. exfalso. apply (Hno c); [|assumption].
      apply list_elem_of_lookup. eauto.
    + intros H. exfalso. now apply (Hne s).
    + intros s' H. exfalso. now apply (Hne s').
  - split; [split; [reflexivity|]|].
    + intros _ b Hb. apply list_elem_of_lookup in Hb as [j Hj]. now apply (Hpk j).
    + intros s' H. now inversion H.
Qed.

End BallocProperties.

(** ** bfree: what a call changes *)

Section BfreeProperties.

Implicit Types (l : list Z) (bl : list (Z * Z)).

(** [bfree] of the payload of an allocated chain block. *)
Lemma bfree_detail s l1 v l2 b :
  heap_ok s ->
  chain (heap s) (heap_start s) (l1 ++ v :: l2) (heap_start s + alloc_size s) ->
  chain (heap s) (heap_start s) l1 b ->
  a_bit v = true -> (b + sizeof_blockHeader) mod 8 = 0 ->
  ∃ m', bfree (b + sizeof_blockHeader) s = Ret (0, set_heap s m')
        ∧ heap_ok (set_heap s m')
        ∧ chain m' (heap_start s) (l1 ++ Z.land v (-2) :: unmark_next l2)
            (heap_start s + alloc_size s).
Proof.
  intros Hok Hc H1 Ha Hal. apply chain_app in Hc as (b' & H1' & Hc).
  assert (b' = b) as ->.
  { rewrite <- (chain_prefix_end _ _ _ _ H1'). apply (chain_prefix_end _ _ _ _ H1). }
  destruct Hc as (Hv & H8 & Hm8 & H2).
  pose proof (chain_le _ _ _ _ H1). pose proof (chain_le _ _ _ _ H2).
  pose proof (ok_base _ Hok). pose proof (ok_end _ Hok) as He.
  destruct (heap_ok_bounds _ Hok) as [Eb1 Eb2].
  unfold bfree. rewrite Eb1, Eb2. clear Eb1 Eb2. unfold sizeof_blockHeader in *.
  destruct (Z.eqb_spec (b + 4) NULL) as [E|_]; [unfold NULL in E; lia|].
  destruct (Z.eqb_spec ((b + 4) mod 8) 0) as [_|]; [|contradiction].
  destruct (Z.ltb_spec (b + 4) (heap_start s + 4)) as [|_]; [lia|].
  destruct (Z.geb_spec (b + 4) (heap_start s + alloc_size s)) as [|_]; [lia|].
  cbn. replace (b + 4 - 4) with b by lia.
  rewrite (load_lookup _ _ _ Hv). cbn. rewrite Ha. cbn.
  rewrite store_mapped by eauto. cbn.
  rewrite (load_lookup _ _ (Z.land v (-2))) by apply lookup_insert_eq. cbn.
  rewrite size_mask_size_of, size_of_land_m2.
  set (m1 := <[b := Z.land v (-2)]> (heap s)).
  assert (Hd1 : dom m1 = dom (heap s)) by (apply dom_insert_lookup_L; eauto).
  assert (H1m : chain m1 (heap_start s) l1 b) by (apply chain_insert; [assumption|lia]).
  assert (H2m : chain m1 (b + size_of v) l2 (heap_start s + alloc_size s))
    by (apply chain_insert; [assumption|lia]).
  assert (Hem : m1 !! (heap_start s + alloc_size s) = Some 1)
    by (unfold m1; rewrite lookup_insert_ne by lia; assumption).
  destruct l2 as [|w r]; simpl in H2m.
  - rewrite H2m. rewrite (load_lookup _ _ _ Hem). cbn.
    exists m1. split; [reflexivity|].
    assert (Hch : chain m1 (heap_start s) (l1 ++ [Z.land v (-2)]) (heap_start s + alloc_size s)).
    { apply chain_app. exists b. split; [assumption|]. simpl.
      unfold m1. rewrite lookup_insert_eq, size_of_land_m2. auto. }
    split; [|exact Hch]. eapply heap_ok_set_heap; eauto.
  - destruct H2m as (Hw & Hw8 & Hwm & Hr).
    pose proof (chain_le _ _ _ _ Hr).
    rewrite (load_lookup _ _ _ Hw). cbn.
    destruct (Z.eqb_spec w 1) as [->|_]; [rewrite size_of_one in Hw8; lia|].
    rewrite store_mapped by eauto. cbn.
    set (m2 := <[b + size_of v := Z.land w (-3)]> m1).
    exists m2. split; [reflexivity|].
    assert (Hch : chain m2 (heap_start s) (l1 ++ Z.land v (-2) :: Z.land w (-3) :: r)
                    (heap_start s + alloc_size s)).
    { apply chain_app. exists b. split.
      - apply chain_insert; [assumption|lia].
      - simpl. unfold m2. rewrite lookup_insert_ne by lia.
        unfold m1 at 1. rewrite lookup_insert_eq, !size_of_land_m2.
        rewrite lookup_insert_eq, size_of_land_m3.
        repeat split; try assumption. apply chain_insert; [assumption|lia]. }
    split; [|exact Hch]. eapply heap_ok_set_heap; eauto.
    + unfold m2. rewrite dom_insert_lookup_L by eauto. assumption.
    + unfold m2. rewrite lookup_insert_ne by lia. assumption.
Qed.

Lemma shape_freed a l1 v l2 :
  shape (layout a (l1 ++ Z.land v (-2) :: unmark_next l2))
  = <[length l1 := (a + total_size (layout a l1), size_of v, false)]>
      (shape (layout a (l1 ++ v :: l2))).
Proof.
  rewrite !layout_app, !shape_app.
  rewrite insert_app_r_alt by (rewrite shape_length, layout_length; lia).
  rewrite shape_length, layout_length, Nat.sub_diag. simpl.
  rewrite size_of_land_m2, a_bit_land_m2. do 2 f_equal.
  apply shape_layout; [apply unmark_next_sizes|apply unmark_next_a_bits].
Qed.

(** X4: [bfree] of the payload address of an allocated block returns 0; in
    the block list that block is now free, at the same address and with the
    same size, every other block keeps its address, size and status, and
    the header of the block behind it has bit 1 cleared. *)
Theorem bfree_frees_the_block s bl (i : nat) b v :
  heap_ok s -> blocks s = Ret bl -> bl !! i = Some (b, v) -> a_bit v = true ->
  (b + sizeof_blockHeader) mod 8 = 0 ->
  ∃ s' bl',
    bfree (b + sizeof_blockHeader) s = Ret (0, s')
    ∧ blocks s' = Ret bl'
    ∧ shape bl' = <[i := (b, size_of v, false)]> (shape bl)
    ∧ ∀ w, bl' !! S i = Some w -> p_bit w.2 = false.
Proof.
  intros Hok Hbl Hi Ha Hal.
  destruct (heap_ok_blocks_chain _ _ Hok Hbl) as (l & Hc & ->).
  destruct (chain_lookup _ _ _ _ _ _ Hc Hi)
    as (l1 & l2 & -> & Hlen & H1 & _). simpl in *.
  destruct (bfree_detail s l1 v l2 b Hok Hc H1 Ha Hal) as (m' & Hfree & Hok' & Hc').
  exists (set_heap s m'), (layout (heap_start s) (l1 ++ Z.land v (-2) :: unmark_next l2)).
  split; [assumption|]. split; [now apply (heap_ok_blocks (set_heap s m'))|].
  split.
  - rewrite shape_freed, (chain_prefix_end _ _ _ _ H1). now rewrite Hlen.
  - intros w Hw. rewrite layout_app in Hw.
    rewrite lookup_app_r in Hw by (rewrite layout_length; lia).
    rewrite layout_length, <- Hlen in Hw.
    replace (S (length l1) - length l1)%nat with 1%nat in Hw by lia.
    destruct l2 as [|w2 r]; simpl in Hw; [discriminate|]. inversion Hw; subst w. simpl.
    unfold p_bit. rewrite <- Z.land_assoc. change (Z.land (-3) 2) with 0.
    now rewrite Z.land_0_r.
Qed.

Lemma chain_same_sizes_list m m' a l e :
  chain m a l e -> same_sizes m m' ->
  ∃ l', chain m' a l' e ∧ size_of <$> l' = size_of <$> l.
Proof.
  intros Hc Hs. revert a Hc. induction l as [|v l IH]; intros a; simpl.
  - intros ->. now exists [].
  - intros (Hv & H8 & Hm & Hc). destruct (IH _ Hc) as (l' & Hc' & Hsz).
    destruct (Hs _ _ Hv) as (v' & Hv' & E). exists (v' :: l'). split.
    + simpl. rewrite E. repeat split; assumption.
    + rewrite !fmap_cons, E, Hsz. reflexivity.
Qed.

(** X5: whatever pointer [bfree] is given, a call that returns leaves every
    block at its address with its size: [bfree] merges nothing and resizes
    nothing. *)
Theorem bfree_keeps_extents s ptr r s' bl :
  heap_ok s -> blocks s = Ret bl -> bfree ptr s = Ret (r, s') ->
  ∃ bl', blocks s' = Ret bl' ∧ extents bl' = extents bl.
Proof.
  intros Hok Hbl H. destruct (decide (r = 0)) as [->|Hr].
  2: { destruct (bfree_failure _ _ _ _ H Hr) as [_ ->]. eauto. }
  destruct (heap_ok_blocks_chain _ _ Hok Hbl) as (l & Hc & ->).
  destruct (bfree_preserves _ _ _ _ Hok H) as (Hok' & E1 & E2).
  destruct (bfree_success _ _ _ H) as (bs & ns & m2 & _ & _ & _ & Hbs & _ & Hns & Hm2 & ->).
  cbn zeta in *.
  assert (Hs : same_sizes (heap s) m2).
  { eapply same_sizes_trans.
    - eapply same_sizes_insert; [exact Hbs|]. apply size_of_land_m2.
    - subst m2. destruct (ns =? 1); [apply same_sizes_refl|].
      eapply same_sizes_insert; [exact Hns|]. apply size_of_land_m3. }
  destruct (chain_same_sizes_list _ _ _ _ _ Hc Hs) as (l' & Hc' & Hsz).
  exists (layout (heap_start s) l'). split.
  - now apply (heap_ok_blocks (set_heap s m2)).
  - now apply extents_layout.
Qed.


End BfreeProperties.

(** ** coalesce: what a call changes *)

Section CoalesceProperties.

Implicit Types (m : gmap Z Z) (a c e x v : Z) (l : list Z) (bl : list (Z * Z)).

Lemma allocated_blocks_cons b bl :
  allocated_blocks (b :: bl)
  = if a_bit b.2 then (b.1, size_of b.2) :: allocated_blocks bl else allocated_blocks bl.
Proof.
  unfold allocated_blocks, extents. destruct (a_bit b.2) eqn:E.
  - rewrite filter_cons_True by assumption. reflexivity.
  - rewrite filter_cons_False by (rewrite E; discriminate). reflexivity.
Qed.

Lemma views_cons a v l :
  allocated_blocks (layout a (v :: l))
  = (if a_bit v then [(a, size_of v)] else []) ++ allocated_blocks (layout (a + size_of v) l)
  ∧ free_bytes (layout a (v :: l))
    = (if a_bit v then 0 else size_of v) + free_bytes (layout (a + size_of v) l)
  ∧ used_bytes (layout a (v :: l))
    = (if a_bit v then size_of v else 0) + used_bytes (layout (a + size_of v) l).
Proof.
  cbn [layout]. rewrite allocated_blocks_cons. cbn [fst snd].
  split; [now destruct (a_bit v)|]. split; reflexivity.
Qed.

Lemma views_layout a l : ∀ l',
  size_of <$> l' = size_of <$> l -> a_bit <$> l' = a_bit <$> l ->
  allocated_blocks (layout a l') = allocated_blocks (layout a l)
  ∧ free_bytes (layout a l') = free_bytes (layout a l)
  ∧ used_bytes (layout a l') = used_bytes (layout a l).
Proof.
  revert a. induction l as [|v l IH]; intros a l' H Hb; destruct l' as [|v' l'];
    try discriminate; [auto|].
  simpl in H, Hb. inversion H as [[Hv Hl]]. inversion Hb as [[Hbv Hbl]].
  destruct (IH (a + size_of v) l' Hl Hbl) as (IH1 & IH2 & IH3).
  simpl layout. rewrite !allocated_blocks_cons. simpl. rewrite Hv, Hbv, IH1, IH2, IH3.
  auto.
Qed.

(** A run of free blocks in front of a list. *)
Lemma views_free_run a fr : ∀ l,
  Forall (fun w => a_bit w = false) fr ->
  allocated_blocks (layout a (fr ++ l))
  = allocated_blocks (layout (a + total_size (layout a fr)) l)
  ∧ free_bytes (layout a (fr ++ l))
    = total_size (layout a fr) + free_bytes (layout (a + total_size (layout a fr)) l)
  ∧ used_bytes (layout a (fr ++ l))
    = used_bytes (layout (a + total_size (layout a fr)) l).
Proof.
  revert a. induction fr as [|w fr IH]; intros a l Hfr.
  - unfold total_size. simpl. rewrite Z.add_0_r. auto with zarith.
  - inversion Hfr as [|? ? Hw Hfr']; subst.
    destruct (IH (a + size_of w) l Hfr') as (IH1 & IH2 & IH3).
    simpl. rewrite allocated_blocks_cons. simpl. rewrite Hw, IH1, IH2, IH3.
    unfold total_size. simpl. fold (total_size (layout (a + size_of w) fr)).
    rewrite !Z.add_assoc. split; [reflexivity|]. split; [lia|reflexivity].
Qed.

(** The inner loop of [coalesce] in terms of the chain: the free blocks it
    merges are a prefix of the blocks behind [c], and the header at [c]
    grows by their sizes. *)
Lemma absorb_split e l : ∀ fuel m c v,
  m !! c = Some v -> a_bit v = false -> 8 <= size_of v -> size_of v mod 8 = 0 ->
  chain m (c + size_of v) l e -> m !! e = Some 1 ->
  (length l < fuel)%nat -> e - c <= 2 ^ 31 - 4 ->
  ∃ m' v' fr l',
    absorb fuel m c (c + size_of v) = Ret (m', c + size_of v')
    ∧ l = fr ++ l' ∧ Forall (fun w => a_bit w = false) fr
    ∧ size_of v' = size_of v + total_size (layout (c + size_of v) fr)
    ∧ m' !! c = Some v' ∧ a_bit v' = false
    ∧ 8 <= size_of v' ∧ size_of v' mod 8 = 0
    ∧ chain m' (c + size_of v') l' e
    ∧ m' !! e = Some 1
    ∧ ∀ x, x <> c -> m' !! x = m !! x.
Proof.
  induction l as [|w r IH]; intros fuel m c v Hv Ha H8 Hm Hc He Hf Hb;
    (destruct fuel as [|fuel]; [simpl in Hf; lia|]); simpl in Hc.
  - cbn [absorb]. rewrite Hc. rewrite (load_lookup _ _ _ He). cbn.
    exists m, v, [], []. rewrite Hc. unfold total_size. simpl.
    split_and!; auto with zarith.
  - destruct Hc as (Hw & Hw8 & Hwm & Hc). cbn [absorb].
    rewrite (load_lookup _ _ _ Hw). cbn.
    destruct (Z.eqb_spec w 1) as [->|_]; [rewrite size_of_one in Hw8; lia|].
    destruct (a_bit w) eqn:Haw; cbn.
    + exists m, v, [], (w :: r). unfold total_size. simpl.
      split_and!; auto with zarith.
    + pose proof (chain_le _ _ _ _ Hc) as Hle.
      pose proof (size_of_le v) as Hv3.
      rewrite (load_lookup _ _ _ Hv). cbn. rewrite size_mask_size_of.
      rewrite wrap32_id by (unfold is_int, INT_MIN, INT_MAX; lia).
      rewrite store_mapped by eauto. cbn.
      rewrite (load_lookup _ _ (v + size_of w)) by apply lookup_insert_eq. cbn.
      rewrite size_mask_size_of.
      assert (Hw4 : size_of w mod 4 = 0) by apply size_of_mod4.
      assert (Hsz : size_of (v + size_of w) = size_of v + size_of w)
        by now apply size_of_add.
      set (m1 := <[c := v + size_of w]> m).
      destruct (IH fuel m1 c (v + size_of w)) as
        (m' & v' & fr & l' & Hab & Hl & Hfr & Hsum & Hv' & Ha' & H8' & Hm' & Hc' & He' & Hag).
      * apply lookup_insert_eq.
      * now rewrite a_bit_add.
      * lia.
      * rewrite Hsz, Z.add_mod, Hm, Hwm by lia. reflexivity.
      * rewrite Hsz, Z.add_assoc. apply chain_insert; [assumption|lia].
      * unfold m1. rewrite lookup_insert_ne by lia. assumption.
      * simpl in Hf. lia.
      * assumption.
      * exists m', v', (w :: fr), l'. rewrite Hab.
        split; [reflexivity|]. split; [now rewrite Hl|].
        split; [now constructor|]. split.
        { rewrite Hsum, Hsz. unfold total_size. simpl.
          rewrite Z.add_assoc. fold (total_size (layout (c + size_of v + size_of w) fr)).
          lia. }
        split_and!; try assumption.
        intros x Hx. rewrite Hag by assumption. unfold m1. now rewrite lookup_insert_ne.
Qed.

(** One pass of [coalesce] over a chain keeps the allocated blocks, the bytes
    in free blocks and the bytes in allocated blocks. *)
Lemma coalesce_loop_views e n : ∀ l fuel m a,
  (length l <= n)%nat ->
  chain m a l e -> m !! e = Some 1 -> (length l < fuel)%nat ->
  e - a <= 2 ^ 31 - 4 ->
  ∃ m' l',
    coalesce_loop fuel m a = Ret m'
    ∧ chain m' a l' e
    ∧ allocated_blocks (layout a l') = allocated_blocks (layout a l)
    ∧ free_bytes (layout a l') = free_bytes (layout a l)
    ∧ used_bytes (layout a l') = used_bytes (layout a l)
    ∧ (length l' <= length l)%nat
    ∧ m' !! e = Some 1
    ∧ (∀ x, x < a -> m' !! x = m !! x).
Proof.
  induction n as [|n IH]; intros l fuel m a Hn Hc He Hf Hb;
    (destruct fuel as [|fuel]; [lia|]).
  - destruct l; [|simpl in Hn; lia]. simpl in Hc. subst a.
    cbn [coalesce_loop]. rewrite (load_lookup _ _ _ He). cbn.
    exists m, []. simpl. auto 10.
  - destruct l as [|v t]; simpl in Hc.
    { subst a. cbn [coalesce_loop]. rewrite (load_lookup _ _ _ He). cbn.
      exists m, []. simpl. auto 10. }
    destruct Hc as (Hv & H8 & Hm & Hc).
    destruct (views_cons a v t) as (EA & EF & EU).
    remember (allocated_blocks (layout a (v :: t))) as A eqn:HA.
    remember (free_bytes (layout a (v :: t))) as F eqn:HF.
    remember (used_bytes (layout a (v :: t))) as U eqn:HU.
    clear HA HF HU. cbn [coalesce_loop].
    rewrite (load_lookup _ _ _ Hv). cbn.
    destruct (Z.eqb_spec v 1) as [->|_]; [rewrite size_of_one in H8; lia|].
    simpl in Hn, Hf. pose proof (chain_le _ _ _ _ Hc) as Hle.
    destruct (a_bit v) eqn:Hav; cbn.
    + rewrite (load_lookup _ _ _ Hv). cbn. rewrite size_mask_size_of.
      destruct (IH t fuel m (a + size_of v))
        as (m' & t' & Hrun & Hc' & Hal & Hfb & Hub & Hlen & He' & Hag);
        try assumption; try lia.
      exists m', (v :: t'). rewrite Hrun. split; [reflexivity|].
      split; [simpl; rewrite Hag by lia; auto|].
      destruct (views_cons a v t') as (-> & -> & ->).
      rewrite EA, EF, EU, Hav.
      rewrite Hal, Hfb, Hub.
      split_and!; try reflexivity; try assumption; try (simpl; lia).
      intros x Hx. apply Hag. lia.
    + rewrite size_mask_size_of.
      destruct (absorb_split e t fuel m a v) as
        (m1 & v' & fr & l1 & Hab & Ht & Hfr & Hsum & Hv' & Ha' & H8' & Hm' & Hc1 & He1 & Hag1);
        try assumption; try lia.
      rewrite Hab. cbn.
      destruct (set_next_p_bit_chain _ _ _ _ Hc1 He1) as (m2 & Hsn & Hc2 & He2 & Hd2 & Hag2).
      rewrite Hsn. cbn. pose proof (chain_le _ _ _ _ Hc1) as Hle1.
      assert (Hv2 : m2 !! a = Some v') by (rewrite Hag2 by lia; assumption).
      rewrite (load_lookup _ _ _ Hv2). cbn. rewrite size_mask_size_of.
      fold (mark_next l1) in Hc2.
      assert (Hlen1 : length t = (length fr + length l1)%nat)
        by (rewrite Ht; apply length_app).
      assert (Hlen2 : length (mark_next l1) = length l1) by now destruct l1.
      destruct (IH (mark_next l1) fuel m2 (a + size_of v'))
        as (m' & t' & Hrun & Hc' & Hal & Hfb & Hub & Hlen & He' & Hag);
        try assumption; try lia.
      destruct (views_layout (a + size_of v') l1 (mark_next l1)
                  (mark_next_sizes l1) (mark_next_a_bits l1)) as (Hm1 & Hm2 & Hm3).
      destruct (views_free_run (a + size_of v) fr l1 Hfr) as (Hr1 & Hr2 & Hr3).
      exists m', (v' :: t'). rewrite Hrun. split; [reflexivity|].
      split; [simpl; rewrite Hag by lia; auto|].
      destruct (views_cons a v' t') as (-> & -> & ->).
      rewrite EA, EF, EU, ?Hav.
      rewrite Ha', Hal, Hfb, Hub, Hm1, Hm2, Hm3, Ht, Hr1, Hr2, Hr3.
      rewrite Hsum, !Z.add_assoc.
      split_and!; try reflexivity; try assumption;
        try (simpl; rewrite ?length_app; lia).
      intros x Hx. rewrite Hag by lia. rewrite Hag2 by lia. apply Hag1. lia.
Qed.

Lemma coalesce_views s l :
  heap_ok s -> chain (heap s) (heap_start s) l (heap_start s + alloc_size s) ->
  ∃ m' l',
    coalesce s = Ret (0, set_heap s m')
    ∧ heap_ok (set_heap s m')
    ∧ chain m' (heap_start s) l' (heap_start s + alloc_size s)
    ∧ settled l'
    ∧ allocated_blocks (layout (heap_start s) l') = allocated_blocks (layout (heap_start s) l)
    ∧ free_bytes (layout (heap_start s) l') = free_bytes (layout (heap_start s) l)
    ∧ used_bytes (layout (heap_start s) l') = used_bytes (layout (heap_start s) l)
    ∧ (length l' <= length l)%nat.
Proof.
  intros Hok Hc. destruct (coalesce_spec s Hok) as (m' & l' & Hrun & Hok' & Hc' & Hst).
  pose proof (ok_size _ Hok).
  destruct (coalesce_loop_views (heap_start s + alloc_size s) (length l) l
              (heap_fuel s) (heap s) (heap_start s))
    as (m'' & l'' & Hrun' & Hc'' & Hal & Hfb & Hub & Hlen & _);
    try assumption; try lia.
  { apply (ok_end _ Hok). }
  { now apply heap_fuel_enough. }
  unfold coalesce, coalesce_fuel in Hrun. rewrite Hrun' in Hrun. cbn in Hrun.
  inversion Hrun as [Hm]. assert (m'' = m') as -> by now inversion Hm.
  assert (l'' = l') as -> by now apply (chain_unique _ _ _ _ _ Hc'' Hc').
  exists m', l'. unfold coalesce, coalesce_fuel. rewrite Hrun'. cbn.
  split_and!; (reflexivity || assumption).
Qed.

(** C5: on an initialised heap [coalesce] returns 0 and leaves an
    initialised heap of the same place and size.  The blocks of the new
    heap tile the region from [heap_start] up to the end mark; the
    allocated blocks are those of before, at their addresses and with their
    sizes, and the bytes in free blocks are as many as before; no two
    neighbouring blocks are both free; and a second [coalesce] returns 0
    and leaves the whole state as it is. *)
Theorem coalesce_maximal_and_idempotent s :
  heap_ok s ->
  ∃ s1 bl0 bl,
    blocks s = Ret bl0
    ∧ coalesce s = Ret (0, s1)
    ∧ heap_ok s1 ∧ heap_start s1 = heap_start s ∧ alloc_size s1 = alloc_size s
    ∧ blocks s1 = Ret bl
    ∧ tiles (heap_start s) bl (heap_start s + alloc_size s)
    ∧ total_size bl = alloc_size s
    ∧ allocated_blocks bl = allocated_blocks bl0
    ∧ free_bytes bl = free_bytes bl0
    ∧ no_adjacent_free bl.*2
    ∧ coalesce s1 = Ret (0, s1).
Proof.
  intros Hok. destruct (ok_chain _ Hok) as [l Hc].
  destruct (coalesce_views s l Hok Hc)
    as (m' & l' & Hrun & Hok' & Hc' & Hst & Hal & Hfb & _ & _).
  exists (set_heap s m'), (layout (heap_start s) l), (layout (heap_start s) l').
  split; [now apply heap_ok_blocks|]. split; [assumption|]. split; [assumption|].
  split; [reflexivity|]. split; [reflexivity|].
  split; [now apply (heap_ok_blocks (set_heap s m'))|].
  split; [now apply (chain_tiles m')|].
  split; [rewrite (chain_total _ _ _ _ Hc'); lia|].
  split; [assumption|]. split; [assumption|].
  split; [rewrite layout_snd; now apply settled_no_adjacent_free|].
  unfold coalesce, coalesce_fuel.
  change (heap (set_heap s m')) with m'.
  change (heap_start (set_heap s m')) with (heap_start s).
  rewrite (coalesce_loop_settled (heap_start s + alloc_size s) l'); try assumption.
  - reflexivity.
  - apply (ok_end _ Hok').
  - now apply (heap_fuel_enough (set_heap s m')).
Qed.

Lemma coalesce_maximal_and_idempotent_witness :
  ∃ s1 bl0 bl,
    blocks two_freed = Ret bl0
    ∧ coalesce two_freed = Ret (0, s1)
    ∧ heap_ok s1 ∧ heap_start s1 = heap_start two_freed
    ∧ alloc_size s1 = alloc_size two_freed
    ∧ blocks s1 = Ret bl
    ∧ tiles (heap_start two_freed) bl (heap_start two_freed + alloc_size two_freed)
    ∧ total_size bl = alloc_size two_freed
    ∧ allocated_blocks bl = allocated_blocks bl0
    ∧ free_bytes bl = free_bytes bl0
    ∧ no_adjacent_free bl.*2
    ∧ coalesce s1 = Ret (0, s1).
Proof. apply (coalesce_maximal_and_idempotent two_freed two_freed_ok). Defined.

(** X7: [coalesce] returns 0 and leaves every allocated block at its
    address with its size, in the same order; the bytes in free blocks and
    the bytes in allocated blocks are what they were, and the number of
    blocks does not grow. *)
Theorem coalesce_keeps_allocated_blocks s bl :
  heap_ok s -> blocks s = Ret bl ->
  ∃ s' bl',
    coalesce s = Ret (0, s') ∧ blocks s' = Ret bl'
    ∧ allocated_blocks bl' = allocated_blocks bl
    ∧ free_bytes bl' = free_bytes bl ∧ used_bytes bl' = used_bytes bl
    ∧ (length bl' <= length bl)%nat.
Proof.
  intros Hok Hbl. destruct (heap_ok_blocks_chain _ _ Hok Hbl) as (l & Hc & ->).
  destruct (coalesce_views s l Hok Hc)
    as (m' & l' & Hrun & Hok' & Hc' & _ & Hal & Hfb & Hub & Hlen).
  exists (set_heap s m'), (layout (heap_start s) l').
  split; [assumption|]. split; [now apply (heap_ok_blocks (set_heap s m'))|].
  rewrite !layout_length. auto.
Qed.

Lemma allocated_blocks_nil_inv l : ∀ a,
  allocated_blocks (layout a l) = [] -> Forall (fun w => a_bit w = false) l.
Proof.
  induction l as [|v l IH]; intros a H; [constructor|].
  simpl in H. rewrite allocated_blocks_cons in H. simpl in H.
  destruct (a_bit v) eqn:E; [discriminate|]. constructor; [assumption|].
  now apply (IH (a + size_of v)).
Qed.

Lemma allocated_blocks_all_free l : ∀ a,
  Forall (fun b => a_bit b.2 = false) (layout a l) -> allocated_blocks (layout a l) = [].
Proof.
  induction l as [|v l IH]; intros a H; [reflexivity|].
  simpl in H. inversion H as [|? ? Hv Hl]; subst. simpl in Hv.
  simpl. rewrite allocated_blocks_cons. simpl. rewrite Hv. now apply IH.
Qed.

(** X8: when every block of the heap is free, [coalesce] leaves a single
    free block that spans the region: its size is [alloc_size]. *)
Theorem coalesce_restores_single_block s bl :
  heap_ok s -> blocks s = Ret bl -> Forall (fun b => a_bit b.2 = false) bl ->
  ∃ s' v,
    coalesce s = Ret (0, s') ∧ blocks s' = Ret [(heap_start s, v)]
    ∧ a_bit v = false ∧ size_of v = alloc_size s.
Proof.
  intros Hok Hbl Hfree. destruct (heap_ok_blocks_chain _ _ Hok Hbl) as (l & Hc & ->).
  destruct (coalesce_views s l Hok Hc)
    as (m' & l' & Hrun & Hok' & Hc' & Hst & Hal & _).
  rewrite (allocated_blocks_all_free _ _ Hfree) in Hal.
  apply allocated_blocks_nil_inv in Hal. pose proof (ok_size _ Hok).
  destruct l' as [|v [|w r]].
  - simpl in Hc'. lia.
  - exists (set_heap s m'), v. split; [assumption|].
    split; [now apply (heap_ok_blocks (set_heap s m') [v])|].
    inversion Hal; subst. split; [assumption|].
    destruct Hc' as (_ & _ & _ & Hend). simpl in Hend. lia.
  - exfalso. inversion Hal as [|? ? Hv Hr]; subst. inversion Hr as [|? ? Hw _]; subst.
    destruct Hst as [Hnext _]. unfold is_free in Hnext. rewrite Hv in Hnext.
    destruct (Hnext eq_refl) as [Haw _]. congruence.
Qed.

End CoalesceProperties.

(** ** init_heap *)

Section InitProperties.

Implicit Types (m : gmap Z Z).

Lemma format_heap_words m0 hs A m4 :
  format_heap m0 hs A = Ret m4 -> 8 <= A -> is_int (A + 2) ->
  m4 !! hs = Some (A + 2) ∧ m4 !! (hs + A - 4) = Some A ∧ m4 !! (hs + A) = Some 1.
Proof.
  unfold format_heap. intros H HA Hint.
  apply bind_inv in H as (m1 & H1 & H). apply store_inv in H1 as [_ ->].
  apply bind_inv in H as (m2 & H2 & H). apply store_inv in H2 as [_ ->].
  apply bind_inv in H as (h & Hh & H). apply load_inv in Hh.
  rewrite lookup_insert_eq in Hh. inversion Hh; subst h.
  apply bind_inv in H as (m3 & H3 & H). apply store_inv in H3 as [_ ->].
  apply store_inv in H as [_ ->]. rewrite (wrap32_id _ Hint).
  split; [|split].
  - rewrite lookup_insert_ne by lia. apply lookup_insert_eq.
  - apply lookup_insert_eq.
  - rewrite !lookup_insert_ne by lia. apply lookup_insert_eq.
Qed.

Lemma land_2_aligned A : A mod 4 = 0 -> Z.land A 2 = 0.
Proof.
  intros H. replace 2 with (Z.land 3 2) by reflexivity.
  rewrite Z.land_assoc. change 3 with (Z.ones 2). rewrite Z.land_ones by lia.
  change (2 ^ 2) with 4. rewrite H. reflexivity.
Qed.

Lemma add_2_aligned A : A mod 4 = 0 -> A + 2 = Z.lor A 2.
Proof.
  intros H. pose proof (land_2_aligned A H) as Hl.
  rewrite <- Z.lxor_lor by assumption. now apply Z.add_nocarry_lxor.
Qed.

(** What [mmap] has accepted is a padded size that fits the layout. *)
Lemma mapped_padded_size env n p :
  os_sane env -> is_int n -> 0 < n ->
  mmap env (to_size_t (padded_region_size env n)) = Some p ->
  0 < p ∧ 16 <= padded_region_size env n <= 2 ^ 31 - 8
  ∧ padded_region_size env n mod 8 = 0
  ∧ p + padded_region_size env n <= 2 ^ 64.
Proof.
  intros [Hq Hq8 Hmm] Hn Hpos Emm. unfold padded_region_size in *. cbn zeta in *.
  destruct (padded_size (getpagesize env) n Hq Hq8 Hpos) as (Hpad & HT16 & HT8).
  set (padsize := Z.rem (wrap32 (getpagesize env - Z.rem n (getpagesize env)))
                        (getpagesize env)) in *.
  apply Hmm in Emm as (Hlen & Hp & Htop). unfold is_int, INT_MIN, INT_MAX in *.
  assert (HT : n + padsize <= 2 ^ 31 - 8).
  { destruct (Z_lt_ge_dec (n + padsize) (2 ^ 31)) as [Hlt|Hge].
    - pose proof (Z.div_mod (n + padsize) 8 ltac:(lia)). lia.
    - exfalso.
      assert (Hw : wrap32 (n + padsize) = n + padsize - 2 ^ 32).
      { unfold wrap32. replace (n + padsize + 2 ^ 31)
          with (n + padsize - 2 ^ 31 + 1 * 2 ^ 32) by lia.
        rewrite Z.mod_add by lia. rewrite Z.mod_small by lia. lia. }
      rewrite Hw in Hlen.
      assert (Ht : to_size_t (n + padsize - 2 ^ 32) = n + padsize - 2 ^ 32 + 2 ^ 64).
      { unfold to_size_t. symmetry. apply Z.mod_unique with (q := -1); lia. }
      rewrite Ht in Hlen. lia. }
  rewrite (wrap32_id (n + padsize)) in Htop |- *
    by (unfold is_int, INT_MIN, INT_MAX; lia).
  rewrite to_size_t_id in Htop by lia. auto.
Qed.

(** X9: a successful [init_heap] leaves one free block: [heap_start] is 4
    bytes behind the address [mmap] returned, [alloc_size] is the padded size
    less 8, the only block has size [alloc_size] with bit 0 clear and bit 1
    set, its footer holds [alloc_size], and the end mark behind it is 1. *)
Theorem init_heap_layout env n s s' :
  os_sane env -> is_int n -> uninitialised s ->
  init_heap env n s = Ret (0, s') ->
  ∃ mmap_ptr,
    mmap env (to_size_t (padded_region_size env n)) = Some mmap_ptr
    ∧ heap_start s' = mmap_ptr + sizeof_blockHeader
    ∧ alloc_size s' = padded_region_size env n - 8
    ∧ blocks s' = Ret [(heap_start s', alloc_size s' + 2)]
    ∧ size_of (alloc_size s' + 2) = alloc_size s'
    ∧ a_bit (alloc_size s' + 2) = false ∧ p_bit (alloc_size s' + 2) = true
    ∧ heap s' !! footer_addr (heap_start s') (alloc_size s' + 2) = Some (alloc_size s')
    ∧ heap s' !! (heap_start s' + alloc_size s') = Some 1.
Proof.
  intros Hsane Hn Hu H.
  destruct (init_heap_spec _ _ _ _ _ Hsane Hn Hu H) as [[E _]|(_ & Hok & Hsz)];
    [discriminate|].
  destruct Hu as (Honce & _ & _). unfold init_heap in H. rewrite Honce in H. cbn in H.
  destruct (Z.leb_spec n 0) as [|Hpos]; [discriminate|].
  destruct (open_ok env); [|discriminate]. cbn in H.
  destruct (mmap env (to_size_t (padded_region_size env n))) as [p|] eqn:Emm;
    [|discriminate].
  destruct (mapped_padded_size _ _ _ Hsane Hn Hpos Emm) as (Hp & HT & HT8 & _).
  apply bind_inv in H as (m4 & Hfmt & H). inversion H; subst s'. simpl in *.
  rewrite wrap32_id in * by (unfold is_int, INT_MIN, INT_MAX; lia).
  set (A := padded_region_size env n - 8) in *.
  assert (HA4 : A mod 4 = 0).
  { apply mod4_of_mod8. unfold A. rewrite Zminus_mod, HT8. reflexivity. }
  assert (HA8 : A mod 8 = 0) by (unfold A; rewrite Zminus_mod, HT8; reflexivity).
  destruct (format_heap_words _ _ _ _ Hfmt) as (Hhd & Hft & Hend);
    [unfold A; lia|unfold is_int, INT_MIN, INT_MAX, A; lia|].
  assert (Hsize : size_of (A + 2) = A).
  { rewrite (Z.add_comm A), size_of_add by assumption. reflexivity. }
  exists p. split; [reflexivity|]. split; [reflexivity|]. split; [reflexivity|].
  split.
  { apply (heap_ok_blocks _ [A + 2] Hok). simpl. rewrite Hsize.
    split; [assumption|]. split; [unfold A; lia|]. auto. }
  split; [assumption|]. split.
  { rewrite (Z.add_comm A), a_bit_add by assumption. reflexivity. }
  split; [rewrite add_2_aligned by assumption; apply p_bit_lor_2|].
  unfold footer_addr. rewrite Hsize. auto.
Qed.

(** X10: as long as the sum fits an [int], the padded size is
    [sizeOfRegion] rounded up to the next multiple of the page size. *)
Theorem padded_region_size_rounds_up env n :
  0 < n -> 0 < getpagesize env -> n + getpagesize env <= INT_MAX + 1 ->
  padded_region_size env n mod getpagesize env = 0
  ∧ n <= padded_region_size env n < n + getpagesize env.
Proof.
  unfold INT_MAX, padded_region_size. cbn zeta. set (q := getpagesize env).
  intros Hn Hq Hfit.
  rewrite (Z.rem_mod_nonneg n q) by lia.
  pose proof (Z.mod_pos_bound n q ltac:(lia)) as Hr.
  pose proof (Z.div_mod n q ltac:(lia)) as Hdm.
  rewrite (wrap32_id (q - n mod q)) by (unfold is_int, INT_MIN, INT_MAX; lia).
  rewrite Z.rem_mod_nonneg by lia.
  pose proof (Z.mod_pos_bound (q - n mod q) q ltac:(lia)).
  assert (Hk : ∃ k, n + (q - n mod q) mod q = q * k
                    ∧ (q - n mod q) mod q < q).
  { destruct (Z.eq_dec (n mod q) 0) as [E|E].
    - rewrite E, Z.sub_0_r, Z_mod_same_full. exists (n / q). lia.
    - rewrite Z.mod_small by lia. exists (n / q + 1). lia. }
  destruct Hk as (k & Hk & Hlt).
  rewrite wrap32_id by (unfold is_int, INT_MIN, INT_MAX; lia).
  split; [|lia]. rewrite Hk, Z.mul_comm. apply Z.mod_mul. lia.
Qed.

Lemma init_heap_sets_once env n s s1 :
  init_heap env n s = Ret (0, s1) -> allocated_once s1 = true.
Proof.
  unfold init_heap. intros H.
  destruct (negb (eqb (allocated_once s) false)); [discriminate|].
  destruct (n <=? 0); [discriminate|].
  destruct (negb (open_ok env)); [discriminate|].
  destruct (mmap env _); [|discriminate].
  apply bind_inv in H as (m4 & _ & H). now inversion H.
Qed.

Lemma step_keeps_once env o s s' :
  allocated_once s = true -> step env o s = Ret s' -> allocated_once s' = true.
Proof.
  intros Ho H. destruct o as [n|n|p|]; simpl in H;
    apply bind_inv in H as ([r s1] & Hop & H); inversion H; subst s1.
  - rewrite init_heap_again in Hop by assumption. now inversion Hop; subst.
  - unfold balloc, balloc_fuel in Hop. destruct (n <? 1); [now inversion Hop; subst|].
    apply bind_inv in Hop as (b & _ & Hop).
    destruct (b =? NULL); [now inversion Hop; subst|].
    apply bind_inv in Hop as (m' & _ & Hop). now inversion Hop; subst.
  - destruct (decide (r = 0)) as [->|Hr].
    + destruct (bfree_success _ _ _ Hop) as (? & ? & ? & _ & _ & _ & _ & _ & _ & _ & ->).
      assumption.
    + now destruct (bfree_failure _ _ _ _ Hop Hr) as [_ ->].
  - unfold coalesce, coalesce_fuel in Hop.
    apply bind_inv in Hop as (m' & _ & Hop). now inversion Hop; subst.
Qed.

(** X11: once an [init_heap] has returned 0, every later [init_heap],
    whatever calls came in between, returns -1 and leaves the state as it
    is. *)
Theorem init_heap_only_once env n s s1 ops s2 n' :
  init_heap env n s = Ret (0, s1) -> run env ops s1 = Ret s2 ->
  init_heap env n' s2 = Ret (-1, s2).
Proof.
  intros Hinit Hrun. apply init_heap_again.
  apply init_heap_sets_once in Hinit. revert s1 Hinit Hrun.
  induction ops as [|o ops IH]; intros s1 Ho Hrun; simpl in Hrun.
  - now inversion Hrun; subst.
  - apply bind_inv in Hrun as (s' & Hstep & Hrun).
    apply (IH s'); [|assumption]. now apply (step_keeps_once env o s1).
Qed.

(** X12: in a process without a heap [init_heap] returns, with 0 or with
    -1; it returns 0 exactly when the size is positive, [/dev/zero] opens
    and [mmap] succeeds; a failure leaves the process without a heap; a
    non-positive size leaves the whole state alone, while a failure of
    [open] or [mmap] has already overwritten [alloc_size] with the padded
    size. *)
Theorem init_heap_outcomes env n s :
  os_sane env -> is_int n -> uninitialised s ->
  ∃ r s',
    init_heap env n s = Ret (r, s')
    ∧ (r = 0 ∨ r = -1)
    ∧ (r = 0 ↔ 0 < n ∧ open_ok env = true
               ∧ is_Some (mmap env (to_size_t (padded_region_size env n))))
    ∧ (r = -1 -> uninitialised s')
    ∧ (n <= 0 -> s' = s)
    ∧ (0 < n -> r = -1 -> alloc_size s' = padded_region_size env n).
Proof.
  intros Hsane Hn Hu. pose proof Hu as (Honce & Hhs & Hh).
  unfold init_heap. rewrite Honce. cbn.
  destruct (Z.leb_spec n 0) as [Hle|Hpos].
  { exists (-1), s. split; [reflexivity|]. split; [now right|].
    split; [split; [discriminate|lia]|]. split; [now intros _|].
    split; [reflexivity|lia]. }
  destruct (open_ok env) eqn:Eopen; cbn.
  2: { eexists (-1), _. split; [reflexivity|]. split; [now right|].
       split; [split; [discriminate|intros (_ & ? & _); discriminate]|].
       split; [intros _; now split|]. split; [lia|reflexivity]. }
  destruct (mmap env (to_size_t (padded_region_size env n))) as [p|] eqn:Emm.
  - destruct (mapped_padded_size _ _ _ Hsane Hn Hpos Emm) as (Hp & HT & HT8 & Htop).
    destruct (fresh_heap p (padded_region_size env n) Hp HT HT8 Htop)
      as (m4 & Hfmt & _).
    cbn zeta in Hfmt.
    rewrite wrap32_id by (unfold is_int, INT_MIN, INT_MAX; lia).
    rewrite Hfmt. cbn. eexists 0, _. split; [reflexivity|]. split; [now left|].
    split; [split; [intros _; eauto|reflexivity]|].
    split; [discriminate|]. split; [lia|discriminate].
  - eexists (-1), _. split; [reflexivity|]. split; [now right|].
    split; [split; [discriminate|intros (_ & _ & [? ?]); discriminate]|].
    split; [intros _; now split|]. split; [lia|reflexivity].
Qed.

End InitProperties.

(** ** disp_heap *)

Section DispHeap.

Implicit Types (m : gmap Z Z) (a e v : Z) (l : list Z) (bl : list (Z * Z)).

Lemma p_bit_odd_half x : p_bit x = Z.odd (x / 2).
Proof.
  unfold p_bit.
  assert (H : Z.land x 2 = 2 * ((x / 2) mod 2)).
  { replace (Z.land x 2) with (Z.land (Z.land x (-2)) 2)
      by (rewrite <- Z.land_assoc; reflexivity).
    change (-2) with (Z.lnot (Z.ones 1)). rewrite <- Z.ldiff_land, Z.ldiff_ones_r by lia.
    change 2 with (Z.shiftl 1 1) at 1. rewrite <- Z.shiftl_land.
    change 1 with (Z.ones 1) at 2. rewrite Z.land_ones by lia.
    rewrite Z.shiftl_mul_pow2, Z.shiftr_div_pow2 by lia.
    change (2 ^ 1) with 2. lia. }
  rewrite H, Zmod_odd. destruct (Z.odd (x / 2)); reflexivity.
Qed.

(** The size [disp_heap] computes by subtracting the status bits is the
    masked size, and the bit it tests for the predecessor is bit 1 of the
    header. *)
Lemma disp_size v :
  is_int v -> 8 <= v ->
  let t1 := if a_bit v then wrap32 (v - 1) else v in
  let t2 := if p_bit t1 then wrap32 (t1 - 2) else t1 in
  p_bit t1 = p_bit v ∧ t2 = size_of v.
Proof.
  intros Hint H8. cbn zeta. unfold is_int, INT_MIN, INT_MAX in Hint.
  rewrite (wrap32_id (v - 1)) by (unfold is_int, INT_MIN, INT_MAX; lia).
  pose proof (Z.div_mod v 4 ltac:(lia)) as Hdm.
  pose proof (Z.mod_pos_bound v 4 ltac:(lia)) as Hr.
  rewrite size_of_div. rewrite !p_bit_odd_half, !a_bit_odd.
  set (q := v / 4) in *.
  assert (Hcase : v = 4 * q ∨ v = 4 * q + 1 ∨ v = 4 * q + 2 ∨ v = 4 * q + 3) by lia.
  assert (Hodd : ∀ c, Z.odd (c + 2 * q) = Z.odd c) by (intros; apply Z.odd_add_mul_2).
  assert (Hhalf : ∀ c, (c + 4 * q) / 2 = c / 2 + 2 * q).
  { intros c. replace (c + 4 * q) with (c + (2 * q) * 2) by lia.
    now rewrite Z.div_add by lia. }
  assert (Hodd4 : ∀ c, Z.odd (c + 4 * q) = Z.odd c).
  { intros c. replace (c + 4 * q) with (c + 2 * (2 * q)) by lia. apply Z.odd_add_mul_2. }
  assert (Hw : ∀ c, 0 <= c < 4 -> wrap32 (c + 4 * q - c) = 4 * q).
  { intros c Hc. replace (c + 4 * q - c) with (4 * q) by lia.
    apply wrap32_id. unfold is_int, INT_MIN, INT_MAX. lia. }
  destruct Hcase as [E|[E|[E|E]]]; rewrite E.
  - replace (4 * q) with (0 + 4 * q) by lia.
    repeat (rewrite Hodd4 || rewrite Hhalf || rewrite Hodd).
    change (Z.odd 0) with false. change (Z.odd (0 / 2)) with false. cbv iota.
    repeat (rewrite Hodd4 || rewrite Hhalf || rewrite Hodd).
    change (Z.odd (0 / 2)) with false. cbv iota. split; [reflexivity|lia].
  - replace (4 * q + 1) with (1 + 4 * q) by lia. rewrite Hodd4.
    change (Z.odd 1) with true. cbv iota.
    replace (1 + 4 * q - 1) with (0 + 4 * q) by lia.
    repeat (rewrite Hodd4 || rewrite Hhalf || rewrite Hodd).
    change (Z.odd (0 / 2)) with false. change (Z.odd (1 / 2)) with false. cbv iota.
    split; [reflexivity|lia].
  - replace (4 * q + 2) with (2 + 4 * q) by lia.
    repeat (rewrite Hodd4 || rewrite Hhalf || rewrite Hodd).
    change (Z.odd 2) with false. cbv iota.
    repeat (rewrite Hodd4 || rewrite Hhalf || rewrite Hodd).
    change (Z.odd (2 / 2)) with true. cbv iota.
    split; [reflexivity|]. rewrite Hw by lia. lia.
  - replace (4 * q + 3) with (3 + 4 * q) by lia. rewrite Hodd4.
    change (Z.odd 3) with true. cbv iota.
    replace (3 + 4 * q - 1) with (2 + 4 * q) by lia.
    repeat (rewrite Hodd4 || rewrite Hhalf || rewrite Hodd).
    change (Z.odd (2 / 2)) with true. change (Z.odd (3 / 2)) with true. cbv iota.
    split; [reflexivity|]. rewrite Hw by lia. lia.
Qed.

Lemma used_free_total bl : used_bytes bl + free_bytes bl = total_size bl.
Proof.
  unfold used_bytes, free_bytes, total_size.
  induction bl as [|b bl IH]; simpl; [reflexivity|]. destruct (a_bit b.2); lia.
Qed.

Lemma used_bytes_nonneg m a l e : chain m a l e -> 0 <= used_bytes (layout a l).
Proof.
  revert a. induction l as [|v l IH]; intros a; simpl; [unfold used_bytes; simpl; lia|].
  intros (_ & H8 & _ & Hc). apply IH in Hc. unfold used_bytes in *. simpl.
  destruct (a_bit v); lia.
Qed.

Lemma free_bytes_nonneg m a l e : chain m a l e -> 0 <= free_bytes (layout a l).
Proof.
  revert a. induction l as [|v l IH]; intros a; simpl; [unfold free_bytes; simpl; lia|].
  intros (_ & H8 & _ & Hc). apply IH in Hc. unfold free_bytes in *. simpl.
  destruct (a_bit v); lia.
Qed.

(** The loop of [disp_heap] on a chain: one line per block, and the two
    running totals grow by the allocated and by the free bytes. *)
Lemma disp_loop_chain e l : ∀ fuel m a no u f,
  chain m a l e -> m !! e = Some 1 -> (length l < fuel)%nat ->
  0 <= u -> 0 <= f -> u + f + (e - a) <= 2 ^ 31 - 4 ->
  0 <= no -> no + Z.of_nat (length l) <= INT_MAX ->
  disp_loop fuel m a no u f
  = Ret (rows_from no (layout a l),
         u + used_bytes (layout a l), f + free_bytes (layout a l)).
Proof.
  induction l as [|v l IH]; intros fuel m a no u f Hc He Hf Hu Hfr Hb Hno Hcnt;
    (destruct fuel as [|fuel]; [simpl in Hf; lia|]); simpl in Hc.
  - subst a. cbn [disp_loop]. rewrite (load_lookup _ _ _ He). cbn.
    unfold used_bytes, free_bytes. simpl. now rewrite !Z.add_0_r.
  - destruct Hc as (Hv & H8 & Hm & Hc). cbn [disp_loop].
    rewrite (load_lookup _ _ _ Hv). cbn.
    destruct (Z.eqb_spec v 1) as [->|_]; [rewrite size_of_one in H8; lia|].
    pose proof (chain_le _ _ _ _ Hc) as Hle. pose proof (size_of_le v) as Hv3.
    pose proof (used_bytes_nonneg _ _ _ _ Hc) as Hun.
    pose proof (free_bytes_nonneg _ _ _ _ Hc) as Hfn.
    assert (Hint : is_int v) by (unfold is_int, INT_MIN, INT_MAX; lia).
    destruct (disp_size v Hint ltac:(lia)) as [Hp Hsz]. cbn zeta in Hp, Hsz.
    rewrite Hsz, Hp. simpl in Hcnt, Hf. unfold INT_MAX in Hcnt.
    rewrite (wrap32_id (no + 1)) by (unfold is_int, INT_MIN, INT_MAX; lia).
    unfold used_bytes, free_bytes in *. cbn [layout foldr rows_from fst snd].
    destruct (a_bit v) eqn:Ha.
    + rewrite wrap32_id by (unfold is_int, INT_MIN, INT_MAX; lia).
      rewrite (IH fuel m (a + size_of v) (no + 1) (u + size_of v) f);
        try assumption; try (unfold INT_MAX; lia).
      cbn. unfold row_of. simpl. rewrite Ha. f_equal.
      apply pair_equal_spec; split; [apply pair_equal_spec; split; [reflexivity|lia]|lia].
    + rewrite wrap32_id by (unfold is_int, INT_MIN, INT_MAX; lia).
      rewrite (IH fuel m (a + size_of v) (no + 1) u (f + size_of v));
        try assumption; try (unfold INT_MAX; lia).
      cbn. unfold row_of. simpl. rewrite Ha. f_equal.
      apply pair_equal_spec; split; [apply pair_equal_spec; split; [reflexivity|lia]|lia].
Qed.

(** X13: on an initialised heap [disp_heap] prints one line per block, in
    address order and numbered from 1, with the status bits of the header,
    the masked size, and the first and last byte of the block; the used and
    free totals are the bytes in allocated and in free blocks, and the total
    size it prints is [alloc_size]. *)
Theorem disp_heap_report s bl :
  heap_ok s -> blocks s = Ret bl ->
  disp_heap s
  = Ret {| rows := rows_from 1 bl; used_total := used_bytes bl;
           free_total := free_bytes bl; size_total := alloc_size s |}
  ∧ used_bytes bl + free_bytes bl = alloc_size s.
Proof.
  intros Hok Hbl. destruct (heap_ok_blocks_chain _ _ Hok Hbl) as (l & Hc & ->).
  pose proof (ok_size _ Hok) as Hsz. pose proof (chain_bounds _ _ _ _ Hc) as Hlen.
  assert (Htot : used_bytes (layout (heap_start s) l) + free_bytes (layout (heap_start s) l)
                 = alloc_size s).
  { rewrite used_free_total, (chain_total _ _ _ _ Hc). lia. }
  split; [|assumption]. unfold disp_heap.
  rewrite (disp_loop_chain (heap_start s + alloc_size s) l); try assumption; try lia.
  - cbn. rewrite !Z.add_0_l, Htot.
    rewrite wrap32_id by (unfold is_int, INT_MIN, INT_MAX; lia). reflexivity.
  - apply (ok_end _ Hok).
  - now apply heap_fuel_enough.
  - unfold INT_MAX. lia.
Qed.

End DispHeap.

(** ** Calls that return *)

Section Returns.

(** X14: on an initialised heap [balloc] returns for every request up to
    2147483636: it neither faults nor scans without end, and what it leaves
    is again a well-formed heap of the same place and size. *)
Theorem balloc_returns s n :
  heap_ok s -> n <= 2 ^ 31 - 12 ->
  ∃ p s', balloc n s = Ret (p, s') ∧ heap_ok s'
          ∧ heap_start s' = heap_start s ∧ alloc_size s' = alloc_size s.
Proof.
  intros Hok Hn. destruct (Z_lt_ge_dec n 1) as [Hlt|Hge].
  { exists NULL, s. unfold balloc, balloc_fuel.
    destruct (Z.ltb_spec n 1); [auto|lia]. }
  destruct (ok_chain _ Hok) as [l Hc].
  assert (Hn1 : 1 <= n) by lia.
  pose proof (balloc_pick _ _ _ Hok Hc Hn1) as Hb.
  pose proof (pick_spec (block_size n) (layout (heap_start s) l)) as Hp.
  destruct (pick (block_size n) (layout (heap_start s) l) None) as [c|];
    [|exists NULL, s; auto].
  destruct Hp as (i & Hi & [Hfree Hfit] & _).
  destruct (chain_lookup _ _ _ _ _ _ Hc Hi)
    as (l1 & l2 & -> & _ & H1 & Hv & Hs & Hm & H2).
  pose proof (chain_le _ _ _ _ H1). pose proof (chain_le _ _ _ _ H2).
  pose proof (ok_size _ Hok). pose proof (ok_base _ Hok).
  destruct (block_size_in_range n) as (_ & Hbs & Hb8); [lia|].
  destruct (place_chain (heap s) (heap_start s) (heap_start s + alloc_size s)
              l1 c.2 l2 c.1 (block_size n))
    as (m' & hd & Hpl & Hc' & He' & Hd & _);
    try assumption; try (unfold INT_MAX; lia).
  { apply (ok_end _ Hok). }
  { now apply heap_ok_mapped_from with (l1 := l1). }
  rewrite Hpl in Hb. cbn in Hb.
  exists (c.1 + sizeof_blockHeader), (set_heap s m').
  split; [assumption|]. split; [|auto]. eapply heap_ok_set_heap; eauto.
Qed.

Lemma balloc_globals n s p s' :
  balloc n s = Ret (p, s') ->
  heap_start s' = heap_start s ∧ alloc_size s' = alloc_size s.
Proof.
  unfold balloc, balloc_fuel. intros H.
  destruct (n <? 1); [now inversion H|].
  apply bind_inv in H as (bf & _ & H).
  destruct (bf =? NULL); [now inversion H|].
  apply bind_inv in H as (m' & _ & H). now inversion H.
Qed.

Lemma coalesce_globals s r s' :
  coalesce s = Ret (r, s') ->
  heap_start s' = heap_start s ∧ alloc_size s' = alloc_size s.
Proof.
  unfold coalesce, coalesce_fuel. intros H.
  apply bind_inv in H as (m' & _ & H). now inversion H.
Qed.

Lemma run_no_init_globals env ops : ∀ s s',
  Forall no_init ops -> run env ops s = Ret s' ->
  heap_start s' = heap_start s ∧ alloc_size s' = alloc_size s.
Proof.
  induction ops as [|o ops IH]; intros s s' Hops H; simpl in H.
  - now inversion H.
  - apply bind_inv in H as (s1 & Hstep & H). inversion Hops as [|? ? Ho Hops']; subst.
    destruct (IH _ _ Hops' H) as [E1 E2]. rewrite E1, E2. clear IH H E1 E2.
    destruct o as [n|n|q|]; simpl in Ho; try contradiction; simpl in Hstep;
      apply bind_inv in Hstep as ([r s2] & Hop & Hstep); inversion Hstep; subst s2.
    + now apply (balloc_globals n s r).
    + destruct (bfree_keeps_free _ _ _ _ Hop) as (? & ? & _). auto.
    + now apply (coalesce_globals s r).
Qed.

(** X15: as long as [init_heap] has not been called, [bfree] returns -1
    for every pointer and leaves the state as it is, whatever memory the
    process has mapped and whatever calls of [balloc], [bfree] and
    [coalesce] have returned before: [heap_start] is null and [alloc_size]
    is 0, so no pointer lies below the end of the region.  A failed
    [init_heap] ends that: [init_heap(2147483647)] fails in [mmap] and
    leaves [alloc_size] at [INT_MIN]; then the pointer 8 passes the range
    test and [bfree] reads the unmapped address 4, and [bfree] of an
    aligned pointer behind an odd word in memory of the caller returns 0
    and has cleared the low bit of that word. *)
Theorem bfree_before_init env ops s s' :
  heap_start s = NULL -> alloc_size s = 0 -> Forall no_init ops ->
  run env ops s = Ret s' ->
  (∀ ptr, 0 <= ptr -> bfree ptr s' = Ret (-1, s'))
  ∧ (init_heap linux 2147483647 initial_state = Ret (-1, failed_init)
     ∧ heap_start failed_init = NULL ∧ alloc_size failed_init = INT_MIN
     ∧ bfree 8 failed_init = Fault
     ∧ heap (caller_memory failed_init) !! (caller_addr + 4) = Some 17
     ∧ bfree (caller_addr + 8) (caller_memory failed_init)
       = Ret (0, state_of (bfree (caller_addr + 8) (caller_memory failed_init)))
     ∧ heap (state_of (bfree (caller_addr + 8) (caller_memory failed_init)))
         !! (caller_addr + 4) = Some 16).
Proof.
  intros Hs Ha Hops Hrun. split.
  - intros ptr Hptr. destruct (run_no_init_globals _ _ _ _ Hops Hrun) as [E1 E2].
    unfold bfree. rewrite E1, E2, Hs, Ha.
    destruct (Z.geb_spec ptr (to_ptr (NULL + 0))) as [_|Hlt];
      [|change (to_ptr (NULL + 0)) with 0 in Hlt; lia].
    now rewrite !orb_true_r.
  - repeat match goal with |- _ ∧ _ => split end;
      try (apply returns_eq); vm_compute; reflexivity.
Qed.

End Returns.

(** ** The payloads of allocated blocks *)

Section Payloads.

Implicit Types (m : gmap Z Z) (a e x v : Z) (l : list Z) (bl : list (Z * Z)).

Lemma in_payload_cons b bl x :
  in_payload (b :: bl) x ↔
  (a_bit b.2 = true ∧ b.1 + sizeof_blockHeader <= x < b.1 + size_of b.2)
  ∨ in_payload bl x.
Proof.
  unfold in_payload. split.
  - intros (b' & Hin & Ha & Hx).
    apply elem_of_cons in Hin as [->|Hin]; [left; auto|right; eauto].
  - intros [[Ha Hx]|(b' & Hin & Ha & Hx)].
    + exists b. split; [left|auto].
    + exists b'. split; [now right|auto].
Qed.

Lemma in_payload_shape bl bl' x :
  shape bl = shape bl' -> in_payload bl x -> in_payload bl' x.
Proof.
  intros E (b & Hin & Ha & Hx).
  assert (H : (b.1, size_of b.2, a_bit b.2) ∈ shape bl).
  { unfold shape. apply list_elem_of_fmap. exists b. auto. }
  rewrite E in H. apply in_shape_inv in H as (b' & Hin' & Heq).
  inversion Heq as [[H1 H2 H3]]. exists b'. rewrite <- H1, <- H2, <- H3. auto.
Qed.

Lemma in_payload_layout a l l' x :
  size_of <$> l' = size_of <$> l -> a_bit <$> l' = a_bit <$> l ->
  in_payload (layout a l') x -> in_payload (layout a l) x.
Proof. intros H1 H2. apply in_payload_shape. now apply shape_layout. Qed.

Lemma in_payload_free_run fr : ∀ a l x,
  Forall (fun w => a_bit w = false) fr ->
  in_payload (layout a (fr ++ l)) x ->
  in_payload (layout (a + total_size (layout a fr)) l) x.
Proof.
  induction fr as [|w fr IH]; intros a l x Hfr H.
  - simpl in *. unfold total_size; simpl. now rewrite Z.add_0_r.
  - inversion Hfr as [|? ? Hw Hfr']; subst. simpl in H.
    apply in_payload_cons in H as [[Ha _]|H]; [simpl in Ha; congruence|].
    apply IH in H; [|assumption]. unfold total_size in *. simpl.
    now rewrite Z.add_assoc.
Qed.

Lemma in_payload_bounds m a l e x :
  chain m a l e -> in_payload (layout a l) x -> a + sizeof_blockHeader <= x < e.
Proof.
  intros Hc (b & Hin & _ & Hx). apply list_elem_of_lookup in Hin as [j Hj].
  destruct (layout_lookup_bounds _ _ _ _ _ _ Hc Hj) as (? & _ & _ & ? & _). lia.
Qed.

(** A payload word is no block boundary and lies in no free block. *)
Lemma payload_off_block m a l e (i : nat) b x :
  chain m a l e -> layout a l !! i = Some b -> in_payload (layout a l) x ->
  x <> b.1 ∧ x <> b.1 + size_of b.2
  ∧ (a_bit b.2 = false -> x < b.1 ∨ b.1 + size_of b.2 < x).
Proof.
  intros Hc Hi (b' & Hin & Ha & Hx). apply list_elem_of_lookup in Hin as [j Hj].
  unfold sizeof_blockHeader in Hx.
  destruct (layout_lookup_bounds _ _ _ _ _ _ Hc Hi) as (_ & H8 & _).
  destruct (layout_lookup_bounds _ _ _ _ _ _ Hc Hj) as (_ & H8' & _).
  destruct (lt_eq_lt_dec i j) as [[Hlt| ->]|Hgt].
  - pose proof (layout_disjoint _ _ _ _ _ _ _ _ Hc Hi Hj Hlt). lia.
  - rewrite Hi in Hj. inversion Hj; subst b'.
    split; [lia|]. split; [lia|]. congruence.
  - pose proof (layout_disjoint _ _ _ _ _ _ _ _ Hc Hj Hi Hgt). lia.
Qed.

Lemma store_frame m a v m' x : store m a v = Ret m' -> x <> a -> m' !! x = m !! x.
Proof.
  intros H Hx. apply store_inv in H as [_ ->]. now rewrite lookup_insert_ne.
Qed.

Lemma set_next_p_bit_frame m nb m' x :
  set_next_p_bit m nb = Ret m' -> x <> nb -> m' !! x = m !! x.
Proof.
  unfold set_next_p_bit. intros H Hx. apply bind_inv in H as (ns & _ & H).
  destruct (ns =? 1); [now inversion H|]. now apply (store_frame _ _ _ _ _ H).
Qed.

(** The words [balloc] writes when it places a request: all of them lie in
    the chosen block or are the header of the block behind it. *)
Lemma place_frame m need b v m' :
  m !! b = Some v -> 8 <= need <= size_of v -> size_of v <= INT_MAX ->
  place m need b = Ret m' ->
  ∀ x, x < b ∨ b + size_of v < x -> m' !! x = m !! x.
Proof.
  intros Hv Hn Hmax H x Hx. unfold place in H. unfold INT_MAX in Hmax.
  rewrite (load_lookup _ _ _ Hv) in H. cbn in H.
  rewrite wrap32_id in H by (unfold is_int, INT_MIN, INT_MAX; lia).
  destruct (to_size_t (size_of v - need) >=? to_size_t (sizeof_blockHeader * 2 + 8)).
  - apply bind_inv in H as (m1 & H1 & H). apply bind_inv in H as (m2 & H2 & H).
    rewrite (set_next_p_bit_frame _ _ _ _ H) by lia.
    rewrite (store_frame _ _ _ _ _ H2) by lia.
    apply (store_frame _ _ _ _ _ H1). lia.
  - apply bind_inv in H as (m1 & H1 & H). apply bind_inv in H as (bs' & Hl & H).
    apply store_inv in H1 as [_ ->]. apply load_inv in Hl.
    rewrite lookup_insert_eq in Hl. inversion Hl; subst bs'.
    rewrite size_of_lor_1 in H.
    rewrite (set_next_p_bit_frame _ _ _ _ H) by lia.
    apply lookup_insert_ne. lia.
Qed.

(** X16: [balloc] leaves the payload of every allocated block as it is:
    the words it writes are headers, all in the block it chose or at the
    start of the block behind it. *)
Theorem balloc_keeps_payloads s n p s' bl :
  heap_ok s -> 1 <= n <= 2 ^ 31 - 12 -> blocks s = Ret bl ->
  balloc n s = Ret (p, s') ->
  ∀ x, in_payload bl x -> heap s' !! x = heap s !! x.
Proof.
  intros Hok Hn Hbl Hb x Hx.
  destruct (heap_ok_blocks_chain _ _ Hok Hbl) as (l & Hc & ->).
  rewrite (balloc_pick _ _ _ Hok Hc) in Hb by lia.
  pose proof (pick_spec (block_size n) (layout (heap_start s) l)) as Hpk.
  destruct (pick (block_size n) (layout (heap_start s) l) None) as [c|];
    [|now inversion Hb].
  destruct Hpk as (i & Hi & [Hfree Hfit] & _).
  apply bind_inv in Hb as (m' & Hpl & Hb). inversion Hb; subst. simpl.
  destruct (layout_lookup_bounds _ _ _ _ _ _ Hc Hi) as (? & ? & _ & ? & _ & Hv).
  destruct (payload_off_block _ _ _ _ _ _ _ Hc Hi Hx) as (_ & _ & Hoff).
  destruct (block_size_in_range n) as (_ & Hbs & _); [lia|].
  pose proof (ok_size _ Hok). unfold is_free in Hfree.
  apply (place_frame _ _ _ _ _ Hv) with (x := x) in Hpl;
    [assumption|lia|unfold INT_MAX; lia|].
  apply Hoff. now destruct (a_bit c.2).
Qed.

(** X17: [bfree] of the payload address of a block, allocated or free,
    leaves the payload of every allocated block as it is, the payload of
    the block it frees included: it writes no footer. *)
Theorem bfree_keeps_payloads s ptr r s' bl v :
  heap_ok s -> blocks s = Ret bl -> (ptr - sizeof_blockHeader, v) ∈ bl ->
  bfree ptr s = Ret (r, s') ->
  ∀ x, in_payload bl x -> heap s' !! x = heap s !! x.
Proof.
  intros Hok Hbl Hin Hb x Hx.
  destruct (decide (r = 0)) as [->|Hr].
  2: { destruct (bfree_failure _ _ _ _ Hb Hr) as [_ ->]. reflexivity. }
  destruct (heap_ok_blocks_chain _ _ Hok Hbl) as (l & Hc & ->).
  apply list_elem_of_lookup in Hin as [i Hi].
  destruct (payload_off_block _ _ _ _ _ _ _ Hc Hi Hx) as (Hx1 & Hx2 & _).
  destruct (layout_lookup_bounds _ _ _ _ _ _ Hc Hi) as (_ & _ & _ & _ & _ & Hv).
  simpl in Hx1, Hx2, Hv.
  destruct (bfree_success _ _ _ Hb) as (bs & ns & m2 & _ & _ & _ & Hbs & _ & _ & -> & ->).
  rewrite Hv in Hbs. inversion Hbs; subst bs. simpl.
  rewrite size_mask_size_of, size_of_land_m2.
  destruct (ns =? 1); rewrite ?lookup_insert_ne by congruence; reflexivity.
Qed.

(** One pass of [coalesce] over a chain writes to no payload of an
    allocated block. *)
Lemma coalesce_loop_frame e n : ∀ l fuel m a,
  (length l <= n)%nat ->
  chain m a l e -> m !! e = Some 1 -> (length l < fuel)%nat ->
  e - a <= 2 ^ 31 - 4 ->
  ∃ m',
    coalesce_loop fuel m a = Ret m'
    ∧ (∀ x, x < a -> m' !! x = m !! x)
    ∧ (∀ x, in_payload (layout a l) x -> m' !! x = m !! x).
Proof.
  induction n as [|n IH]; intros l fuel m a Hn Hc He Hf Hb;
    (destruct fuel as [|fuel]; [lia|]).
  - destruct l; [|simpl in Hn; lia]. simpl in Hc. subst a.
    cbn [coalesce_loop]. rewrite (load_lookup _ _ _ He). cbn. eauto.
  - destruct l as [|v t]; simpl in Hc.
    { subst a. cbn [coalesce_loop]. rewrite (load_lookup _ _ _ He). cbn. eauto. }
    destruct Hc as (Hv & H8 & Hm & Hc). cbn [coalesce_loop].
    rewrite (load_lookup _ _ _ Hv). cbn.
    destruct (Z.eqb_spec v 1) as [->|_]; [rewrite size_of_one in H8; lia|].
    simpl in Hn, Hf. pose proof (chain_le _ _ _ _ Hc) as Hle.
    destruct (a_bit v) eqn:Hav; cbn.
    + rewrite (load_lookup _ _ _ Hv). cbn. rewrite size_mask_size_of.
      destruct (IH t fuel m (a + size_of v)) as (m' & Hrun & Hag & Hfr);
        try assumption; try lia.
      exists m'. split; [assumption|]. split.
      * intros x Hx. apply Hag. lia.
      * intros x Hx. simpl in Hx. apply in_payload_cons in Hx as [[_ Hx]|Hx].
        -- apply Hag. simpl in Hx. lia.
        -- now apply Hfr.
    + rewrite size_mask_size_of.
      destruct (absorb_split e t fuel m a v) as
        (m1 & v' & fr & l1 & Hab & Ht & Hfr & Hsum & Hv' & Ha' & H8' & Hm' & Hc1 & He1 & Hag1);
        try assumption; try lia.
      rewrite Hab. cbn.
      destruct (set_next_p_bit_chain _ _ _ _ Hc1 He1) as (m2 & Hsn & Hc2 & He2 & Hd2 & Hag2).
      rewrite Hsn. cbn. pose proof (chain_le _ _ _ _ Hc1) as Hle1.
      assert (Hv2 : m2 !! a = Some v') by (rewrite Hag2 by lia; assumption).
      rewrite (load_lookup _ _ _ Hv2). cbn. rewrite size_mask_size_of.
      fold (mark_next l1) in Hc2.
      assert (Hlen1 : length t = (length fr + length l1)%nat)
        by (rewrite Ht; apply length_app).
      assert (Hlen2 : length (mark_next l1) = length l1) by now destruct l1.
      destruct (IH (mark_next l1) fuel m2 (a + size_of v')) as (m' & Hrun & Hag & Hfr');
        try assumption; try lia.
      exists m'. split; [assumption|]. split.
      * intros x Hx. rewrite Hag by lia. rewrite Hag2 by lia. apply Hag1. lia.
      * intros x Hx. simpl in Hx. apply in_payload_cons in Hx as [[Ha _]|Hx];
          [simpl in Ha; congruence|].
        rewrite Ht in Hx. apply in_payload_free_run in Hx; [|assumption].
        replace (a + size_of v + total_size (layout (a + size_of v) fr))
          with (a + size_of v') in Hx by lia.
        pose proof (in_payload_bounds _ _ _ _ _ Hc1 Hx) as Hxb.
        unfold sizeof_blockHeader in Hxb.
        rewrite Hfr'.
        -- rewrite Hag2 by lia. apply Hag1. lia.
        -- revert Hx. apply in_payload_layout.
           ++ symmetry. apply mark_next_sizes.
           ++ symmetry. apply mark_next_a_bits.
Qed.

(** X18: [coalesce] leaves the payload of every allocated block as it
    is. *)
Theorem coalesce_keeps_payloads s r s' bl :
  heap_ok s -> blocks s = Ret bl -> coalesce s = Ret (r, s') ->
  ∀ x, in_payload bl x -> heap s' !! x = heap s !! x.
Proof.
  intros Hok Hbl Hco x Hx.
  destruct (heap_ok_blocks_chain _ _ Hok Hbl) as (l & Hc & ->).
  pose proof (ok_size _ Hok).
  destruct (coalesce_loop_frame (heap_start s + alloc_size s) (length l) l
              (heap_fuel s) (heap s) (heap_start s))
    as (m' & Hrun & _ & Hfr); try assumption; try lia.
  { apply (ok_end _ Hok). }
  { now apply heap_fuel_enough. }
  unfold coalesce, coalesce_fuel in Hco. rewrite Hrun in Hco. cbn in Hco.
  inversion Hco; subst. simpl. now apply Hfr.
Qed.

End Payloads.

(** ** The further properties on concrete heaps *)

Section FurtherConcrete.

Lemma all_freed_ops_wf : Forall wf_op all_freed_ops.
Proof.
  repeat (constructor;
    [simpl; first [unfold is_int, INT_MIN, INT_MAX; lia
                  |vm_compute; split; congruence]|]).
  constructor.
Qed.

Lemma all_freed_ok : heap_ok all_freed.
Proof.
  apply (fresh_run_ok all_freed_ops); [apply all_freed_ops_wf|].
  apply is_ret_eq. vm_compute. reflexivity.
Qed.

Lemma hole_heap_ok : heap_ok hole_heap.
Proof.
  apply (fresh_run_ok [Alloc 100; Alloc 8; Free (payload_at 0)]).
  - repeat (constructor;
      [simpl; first [unfold is_int, INT_MIN, INT_MAX; lia
                    |vm_compute; split; congruence]|]).
    constructor.
  - apply is_ret_eq. vm_compute. reflexivity.
Qed.

Lemma gaps_blocks_eq : blocks gaps_heap = Ret gaps_blocks.
Proof. vm_compute. reflexivity. Qed.

Lemma hole_blocks_eq : blocks hole_heap = Ret hole_blocks.
Proof. vm_compute. reflexivity. Qed.

Lemma two_freed_blocks_eq : blocks two_freed = Ret two_freed_blocks.
Proof. vm_compute. reflexivity. Qed.

Lemma all_freed_blocks_eq : blocks all_freed = Ret all_freed_blocks.
Proof. vm_compute. reflexivity. Qed.

Lemma balloc_20_gaps :
  balloc 20 gaps_heap = Ret (payload_at 64, state_of (balloc 20 gaps_heap)).
Proof. apply returns_eq. vm_compute. reflexivity. Qed.

Lemma balloc_40_hole :
  balloc 40 hole_heap = Ret (payload_at 0, state_of (balloc 40 hole_heap)).
Proof. apply returns_eq. vm_compute. reflexivity. Qed.

Lemma bfree_48_gaps :
  bfree (payload_at 48) gaps_heap = Ret (0, state_of (bfree (payload_at 48) gaps_heap)).
Proof. apply returns_eq. vm_compute. reflexivity. Qed.

Lemma heap5000_init : init_heap linux 5000 initial_state = Ret (0, heap5000).
Proof. apply returns_eq. vm_compute. reflexivity. Qed.

End FurtherConcrete.

Lemma balloc_block_holds_request_witness :
  ∃ bl' v,
    blocks (state_of (balloc 20 gaps_heap)) = Ret bl'
    ∧ (payload_at 64 - sizeof_blockHeader, v) ∈ bl' ∧ a_bit v = true
    ∧ (size_of v = round_up8 (20 + sizeof_blockHeader)
       ∨ size_of v = round_up8 (20 + sizeof_blockHeader) + 8)
    ∧ heap_start gaps_heap + sizeof_blockHeader <= payload_at 64
    ∧ payload_at 64 + 20 <= payload_at 64 - sizeof_blockHeader + size_of v
      <= heap_start gaps_heap + alloc_size gaps_heap.
Proof.
  apply (balloc_block_holds_request gaps_heap 20 (payload_at 64)
           (state_of (balloc 20 gaps_heap)) gaps_heap_ok).
  - lia.
  - apply balloc_20_gaps.
  - vm_compute. discriminate.
Defined.


Lemma balloc_null_iff_no_fit_witness :
  ((∀ b, b ∈ gaps_blocks -> ¬ eligible (round_up8 (4000 + sizeof_blockHeader)) b)
   ↔ balloc 4000 gaps_heap = Ret (NULL, gaps_heap))
  ∧ (∀ s', balloc 4000 gaps_heap = Ret (NULL, s') -> s' = gaps_heap).
Proof.
  apply (balloc_null_iff_no_fit gaps_heap 4000 gaps_blocks gaps_heap_ok).
  - lia.
  - apply gaps_blocks_eq.
Defined.

Lemma bfree_frees_the_block_witness :
  ∃ s' bl',
    bfree (payload_at 48 - 4 + sizeof_blockHeader) gaps_heap = Ret (0, s')
    ∧ blocks s' = Ret bl'
    ∧ shape bl' = <[1%nat := (payload_at 48 - 4, size_of 17, false)]> (shape gaps_blocks)
    ∧ ∀ w, bl' !! 2%nat = Some w -> p_bit w.2 = false.
Proof.
  apply (bfree_frees_the_block gaps_heap gaps_blocks 1 (payload_at 48 - 4) 17
           gaps_heap_ok gaps_blocks_eq).
  - reflexivity.
  - reflexivity.
  - vm_compute. reflexivity.
Defined.

Lemma bfree_keeps_extents_witness :
  ∃ bl', blocks (state_of (bfree (payload_at 48) gaps_heap)) = Ret bl'
         ∧ extents bl' = extents gaps_blocks.
Proof.
  apply (bfree_keeps_extents gaps_heap (payload_at 48) 0
           (state_of (bfree (payload_at 48) gaps_heap)) gaps_blocks
           gaps_heap_ok gaps_blocks_eq bfree_48_gaps).
Defined.


Lemma coalesce_keeps_allocated_blocks_witness :
  ∃ s' bl',
    coalesce two_freed = Ret (0, s') ∧ blocks s' = Ret bl'
    ∧ allocated_blocks bl' = allocated_blocks two_freed_blocks
    ∧ free_bytes bl' = free_bytes two_freed_blocks
    ∧ used_bytes bl' = used_bytes two_freed_blocks
    ∧ (length bl' <= length two_freed_blocks)%nat.
Proof.
  apply (coalesce_keeps_allocated_blocks two_freed two_freed_blocks
           two_freed_ok two_freed_blocks_eq).
Defined.

Lemma coalesce_restores_single_block_witness :
  ∃ s' v,
    coalesce all_freed = Ret (0, s') ∧ blocks s' = Ret [(heap_start all_freed, v)]
    ∧ a_bit v = false ∧ size_of v = alloc_size all_freed.
Proof.
  apply (coalesce_restores_single_block all_freed all_freed_blocks
           all_freed_ok all_freed_blocks_eq).
  repeat constructor.
Defined.

Lemma init_heap_layout_witness :
  ∃ mmap_ptr,
    mmap linux (to_size_t (padded_region_size linux 5000)) = Some mmap_ptr
    ∧ heap_start heap5000 = mmap_ptr + sizeof_blockHeader
    ∧ alloc_size heap5000 = padded_region_size linux 5000 - 8
    ∧ blocks heap5000 = Ret [(heap_start heap5000, alloc_size heap5000 + 2)]
    ∧ size_of (alloc_size heap5000 + 2) = alloc_size heap5000
    ∧ a_bit (alloc_size heap5000 + 2) = false ∧ p_bit (alloc_size heap5000 + 2) = true
    ∧ heap heap5000 !! footer_addr (heap_start heap5000) (alloc_size heap5000 + 2)
      = Some (alloc_size heap5000)
    ∧ heap heap5000 !! (heap_start heap5000 + alloc_size heap5000) = Some 1.
Proof.
  apply (init_heap_layout linux 5000 initial_state heap5000 linux_sane).
  - unfold is_int, INT_MIN, INT_MAX. lia.
  - apply initial_state_uninitialised.
  - apply heap5000_init.
Defined.

Lemma padded_region_size_rounds_up_witness :
  padded_region_size linux 5000 mod getpagesize linux = 0
  ∧ 5000 <= padded_region_size linux 5000 < 5000 + getpagesize linux.
Proof.
  apply (padded_region_size_rounds_up linux 5000).
  - lia.
  - simpl. lia.
  - simpl. unfold INT_MAX. lia.
Defined.

Lemma init_heap_only_once_witness :
  init_heap linux 100 gaps_heap = Ret (-1, gaps_heap).
Proof.
  apply (init_heap_only_once linux 4096 initial_state heap4096 gaps_ops gaps_heap 100
           heap4096_init gaps_heap_run).
Defined.

Lemma init_heap_outcomes_witness :
  ∃ r s',
    init_heap linux 5000 initial_state = Ret (r, s')
    ∧ (r = 0 ∨ r = -1)
    ∧ (r = 0 ↔ 0 < 5000 ∧ open_ok linux = true
               ∧ is_Some (mmap linux (to_size_t (padded_region_size linux 5000))))
    ∧ (r = -1 -> uninitialised s')
    ∧ (5000 <= 0 -> s' = initial_state)
    ∧ (0 < 5000 -> r = -1 -> alloc_size s' = padded_region_size linux 5000).
Proof.
  apply (init_heap_outcomes linux 5000 initial_state linux_sane).
  - unfold is_int, INT_MIN, INT_MAX. lia.
  - apply initial_state_uninitialised.
Defined.

Lemma disp_heap_report_witness :
  disp_heap gaps_heap
  = Ret {| rows := rows_from 1 gaps_blocks; used_total := used_bytes gaps_blocks;
           free_total := free_bytes gaps_blocks; size_total := alloc_size gaps_heap |}
  ∧ used_bytes gaps_blocks + free_bytes gaps_blocks = alloc_size gaps_heap.
Proof.
  apply (disp_heap_report gaps_heap gaps_blocks gaps_heap_ok gaps_blocks_eq).
Defined.

Lemma balloc_returns_witness :
  ∃ p s', balloc 20 gaps_heap = Ret (p, s') ∧ heap_ok s'
          ∧ heap_start s' = heap_start gaps_heap ∧ alloc_size s' = alloc_size gaps_heap.
Proof.
  apply (balloc_returns gaps_heap 20 gaps_heap_ok). lia.
Defined.

Lemma bfree_before_init_witness :
  (∀ ptr, 0 <= ptr ->
     bfree ptr (caller_memory initial_state) = Ret (-1, caller_memory initial_state))
  ∧ (init_heap linux 2147483647 initial_state = Ret (-1, failed_init)
     ∧ heap_start failed_init = NULL ∧ alloc_size failed_init = INT_MIN
     ∧ bfree 8 failed_init = Fault
     ∧ heap (caller_memory failed_init) !! (caller_addr + 4) = Some 17
     ∧ bfree (caller_addr + 8) (caller_memory failed_init)
       = Ret (0, state_of (bfree (caller_addr + 8) (caller_memory failed_init)))
     ∧ heap (state_of (bfree (caller_addr + 8) (caller_memory failed_init)))
         !! (caller_addr + 4) = Some 16).
Proof.
  apply (bfree_before_init linux [Alloc 0; Free (caller_addr + 8)]
           (caller_memory initial_state) (caller_memory initial_state)).
  - reflexivity.
  - reflexivity.
  - repeat constructor.
  - vm_compute. reflexivity.
Defined.

Lemma balloc_keeps_payloads_witness :
  heap (state_of (balloc 40 hole_heap)) !! payload_at 104
  = heap hole_heap !! payload_at 104.
Proof.
  apply (balloc_keeps_payloads hole_heap 40 (payload_at 0)
           (state_of (balloc 40 hole_heap)) hole_blocks hole_heap_ok).
  - lia.
  - apply hole_blocks_eq.
  - apply balloc_40_hole.
  - exists (payload_at 104 - 4, 17). split.
    + apply list_elem_of_lookup. exists 1%nat. reflexivity.
    + split; [reflexivity|]. vm_compute. split; congruence.
Defined.

Lemma bfree_keeps_payloads_witness :
  heap (state_of (bfree (payload_at 48) gaps_heap)) !! (payload_at 48 + 4)
  = heap gaps_heap !! (payload_at 48 + 4).
Proof.
  apply (bfree_keeps_payloads gaps_heap (payload_at 48) 0
           (state_of (bfree (payload_at 48) gaps_heap)) gaps_blocks 17
           gaps_heap_ok gaps_blocks_eq).
  - apply list_elem_of_lookup. exists 1%nat. reflexivity.
  - apply bfree_48_gaps.
  - exists (payload_at 48 - 4, 17). split.
    + apply list_elem_of_lookup. exists 1%nat. reflexivity.
    + split; [reflexivity|]. vm_compute. split; congruence.
Defined.

Lemma coalesce_keeps_payloads_witness :
  heap (state_of (coalesce two_freed)) !! (payload_at 32 + 8)
  = heap two_freed !! (payload_at 32 + 8).
Proof.
  apply (coalesce_keeps_payloads two_freed 0 (state_of (coalesce two_freed))
           two_freed_blocks two_freed_ok two_freed_blocks_eq).
  - apply returns_eq. vm_compute. reflexivity.
  - exists (payload_at 32 - 4, 17). split.
    + apply list_elem_of_lookup. exists 2%nat. reflexivity.
    + split; [reflexivity|]. vm_compute. split; congruence.
Defined.
